(** * The fragmentation-and-reassembly pipeline of proxy-system

    A shallow embedding of the Go sources: the shared library
    (common/types.go), the client (client/main.go), the upstream server,
    the central proxy (central-proxy/main.go), the relay node and the
    Starlink gateway.  Go's [int] is the 64-bit signed integer of the
    deployment targets; its wrap-around is written out.  Maps are [gmap]s,
    byte slices are lists of bytes, pointers to sessions are locations in an
    explicit heap.  Library code (crypto/cipher, net/http, crypto/rand, the
    clock) appears as interfaces whose laws are stated where they are used. *)

From Stdlib Require Import ZArith Lia.
From Stdlib Require Import Strings.Ascii Strings.String Strings.Byte.
From stdpp Require Import base option list gmap strings fin_maps pretty.

Local Open Scope Z_scope.

(** ** Outcomes of running Go code *)

(** A Go function either returns or panics (an index out of range, a slice
    with crossed bounds, an integer division by zero). *)
Inductive exec (A : Type) : Type :=
  | Ret (a : A)
  | Panic (msg : string).
Arguments Ret {A} a.
Arguments Panic {A} msg.

Definition exec_bind {A B : Type} (m : exec A) (k : A → exec B) : exec B :=
  match m with
  | Ret a => k a
  | Panic msg => Panic msg
  end.

Notation "x ←! m ; k" := (exec_bind m (λ x, k))
  (at level 20, m at level 100, k at level 200, only parsing, right associativity).

(** ** Go's [int]: 64 bits, two's complement, silent wrap-around *)
Module goint.

Definition max_int : Z := 9223372036854775807.
Definition min_int : Z := -9223372036854775808.

Definition wrap (z : Z) : Z := (z + 2 ^ 63) `mod` 2 ^ 64 - 2 ^ 63.

Definition add (a b : Z) : Z := wrap (a + b).
Definition sub (a b : Z) : Z := wrap (a - b).
Definition mul (a b : Z) : Z := wrap (a * b).

(** [/] truncates toward zero and panics on a zero divisor. *)
Definition quo (a b : Z) : exec Z :=
  if b =? 0 then Panic "integer divide by zero" else Ret (wrap (Z.quot a b)).

(** [%] has the sign of the dividend and panics on a zero divisor. *)
Definition rem (a b : Z) : exec Z :=
  if b =? 0 then Panic "integer divide by zero" else Ret (wrap (Z.rem a b)).

Definition in_range (z : Z) : Prop := min_int ≤ z ≤ max_int.

(** [int32(z)]: the low 32 bits of [z], two's complement. *)
Definition to_int32 (z : Z) : Z := (z + 2 ^ 31) `mod` 2 ^ 32 - 2 ^ 31.

End goint.

(** ** Byte slices *)

Abbreviation bytes := (list byte).

(** [len(b)] *)
Definition len {A} (b : list A) : Z := Z.of_nat (length b).

(** [b[lo:hi]].  The bounds must satisfy [0 <= lo <= hi <= len(b)]; every
    slice expression of the sources clamps [hi] to [len(b)] first, so the
    capacity never matters. *)
Definition slice (b : bytes) (lo hi : Z) : exec bytes :=
  if bool_decide (0 ≤ lo ∧ lo ≤ hi ∧ hi ≤ len b)
  then Ret (take (Z.to_nat (hi - lo)) (drop (Z.to_nat lo) b))
  else Panic "slice bounds out of range".

(** [l[i]] for a slice of strings. *)
Definition index {A} (l : list A) (i : Z) : exec A :=
  if bool_decide (0 ≤ i)
  then match l !! Z.to_nat i with
       | Some x => Ret x
       | None => Panic "index out of range"
       end
  else Panic "index out of range".

(** The bytes of [b] at positions [lo], ..., [hi - 1]. *)
Definition byte_range (b : bytes) (lo hi : nat) : bytes :=
  take (hi - lo) (drop lo b).

(** ** encoding/hex *)
Module hex.

Definition hextable : list ascii := String.list_ascii_of_string "0123456789abcdef".

Definition digit (n : N) : ascii := default "0"%char (hextable !! N.to_nat n).

(** [hex.EncodeToString]: two digits per byte, high nibble first. *)
Fixpoint EncodeToString (src : bytes) : string :=
  match src with
  | [] => EmptyString
  | v :: rest =>
      String (digit (N.shiftr (Byte.to_N v) 4))
        (String (digit (N.land (Byte.to_N v) 15)) (EncodeToString rest))
  end.

Definition is_hex_char (c : ascii) : bool := bool_decide (c ∈ hextable).

Fixpoint all_hex (s : string) : bool :=
  match s with
  | EmptyString => true
  | String c rest => is_hex_char c && all_hex rest
  end.

End hex.

(** ** crypto/rand *)

(** The bytes the system source of randomness hands out during one call,
    in the order they are consumed.  [rand.Read] always fills its buffer. *)
Definition rand_Read (rnd : nat → byte) (off n : nat) : bytes :=
  map rnd (seq off n).

(** ** crypto/cipher: the AEAD interface, as built by [cipher.NewGCM] *)

(** [aes.NewCipher] accepts keys of 16, 24 or 32 bytes only. *)
Definition aes_key_ok (key : bytes) : bool :=
  bool_decide (length key = 16%nat ∨ length key = 24%nat ∨ length key = 32%nat).

(** [Seal key nonce plaintext] is the ciphertext followed by the tag
    (what [gcm.Seal(nil, nonce, plaintext, nil)] returns); [Open] checks the
    tag.  The laws are the ones of any AEAD, for a key the cipher accepts
    and a nonce of the right size: opening what was sealed under the same
    key and nonce gives the plaintext back, and sealing adds the tag to the
    length. *)
Class AEAD := {
  NonceSize : nat;
  Overhead : nat;
  Seal : bytes → bytes → bytes → bytes;
  Open : bytes → bytes → bytes → option bytes;
  Open_Seal : ∀ key nonce m,
    aes_key_ok key = true → length nonce = NonceSize →
    Open key nonce (Seal key nonce m) = Some m;
  Seal_length : ∀ key nonce m,
    aes_key_ok key = true → length nonce = NonceSize →
    length (Seal key nonce m) = (length m + Overhead)%nat;
  Overhead_pos : (0 < Overhead)%nat
}.


#[global] Instance byte_eq_dec : EqDecision byte := Byte.byte_eq_dec.

(** An AEAD that authenticates without hiding: the sealed text is the
    plaintext followed by a 16-byte tag computed from key and nonce.  It
    satisfies the interface's laws and lets the model run on examples. *)
Definition tag_of (key nonce : bytes) : bytes :=
  take 16 (key ++ nonce ++ replicate 16 x00).

Definition tag_Seal (key nonce m : bytes) : bytes := m ++ tag_of key nonce.

Definition tag_Open (key nonce c : bytes) : option bytes :=
  if bool_decide (16 ≤ length c)%nat
  then if decide (drop (length c - 16) c = tag_of key nonce)
       then Some (take (length c - 16) c)
       else None
  else None.

(** ** net/http, as far as the nodes use it *)

(** An outbound request as [http.NewRequest] and [Header.Set] build it.
    [Header.Set] stores a value under the canonical form of its key. *)
Record Request := {
  req_method : string;
  req_url : string;
  req_header : gmap string string;
  req_body : bytes
}.

(** What the nodes need from the library and from the network beyond
    them: the canonical form of a header key, whether [http.NewRequest]
    accepts a method and a URL, and the Internet itself, a state machine that
    answers a request with a body or fails. *)
Class Net := {
  CanonicalMIMEHeaderKey : string → string;
  NewRequest_ok : string → string → bool;
  internet : Type;
  Do : internet → Request → internet * option bytes
}.

(** A reply written to an [http.ResponseWriter]. *)
Inductive Payload :=
  | Text (s : string)
  | Json (fields : gmap string string)
  | Raw (b : bytes).

Record Reply := { status : Z; payload : Payload }.

Definition StatusOK : Z := 200.
Definition StatusAccepted : Z := 202.
Definition StatusBadRequest : Z := 400.
Definition StatusUnauthorized : Z := 401.
Definition StatusMethodNotAllowed : Z := 405.
Definition StatusInternalServerError : Z := 500.

Definition MethodPost : string := "POST".

(** ** common/types.go *)
Module Chunk.

(** [Chunk] represents a fragmented packet. *)
Record t := {
  SessionID : string;
  SequenceNum : Z;
  TotalChunks : Z;
  Data : bytes;
  Timestamp : Z;
  SourceClient : string;
  TargetURL : string;
  Method : string;
  Headers : gmap string string
}.

(** [chunk.Data = d] *)
Definition set_Data (c : t) (d : bytes) : t :=
  {| SessionID := SessionID c; SequenceNum := SequenceNum c;
     TotalChunks := TotalChunks c; Data := d; Timestamp := Timestamp c;
     SourceClient := SourceClient c; TargetURL := TargetURL c;
     Method := Method c; Headers := Headers c |}.

(** [chunk.Headers = h] *)
Definition set_Headers (c : t) (h : gmap string string) : t :=
  {| SessionID := SessionID c; SequenceNum := SequenceNum c;
     TotalChunks := TotalChunks c; Data := Data c; Timestamp := Timestamp c;
     SourceClient := SourceClient c; TargetURL := TargetURL c;
     Method := Method c; Headers := h |}.

End Chunk.

Module Session.

(** [Session] tracks reassembly state. *)
Record t := {
  SessionID : string;
  Chunks : gmap Z Chunk.t;
  TotalChunks : Z;
  ReceivedAt : Z;
  TargetURL : string;
  Method : string;
  Headers : gmap string string
}.

(** [session.Chunks[seq] = chunk] *)
Definition store (s : t) (seq : Z) (c : Chunk.t) : t :=
  {| SessionID := SessionID s; Chunks := <[seq := c]> (Chunks s);
     TotalChunks := TotalChunks s; ReceivedAt := ReceivedAt s;
     TargetURL := TargetURL s; Method := Method s; Headers := Headers s |}.

End Session.

Module common.

Record ObfuscationConfig := {
  Type_ : string;
  Headers : gmap string string;
  Padding : bool;
  Jitter : Z
}.

Record EncryptionConfig := {
  Enabled : bool;
  Algorithm : string;
  Mode : string
}.

Section crypto.
Context `{!AEAD}.

(** [EncryptAES]: a fresh nonce from crypto/rand, then
    [gcm.Seal(nonce, nonce, plaintext, nil)], the nonce followed by the
    sealed text.  [None] is the error of [aes.NewCipher]. *)
Definition EncryptAES (rnd : nat → byte) (plaintext key : bytes) : option bytes :=
  if aes_key_ok key
  then let nonce := rand_Read rnd 0 NonceSize in
       Some (nonce ++ Seal key nonce plaintext)
  else None.

(** [DecryptAES]: split the nonce off, then [gcm.Open]. *)
Definition DecryptAES (ciphertext key : bytes) : option bytes :=
  if aes_key_ok key
  then if bool_decide (length ciphertext < NonceSize)%nat
       then None
       else Open key (take NonceSize ciphertext) (drop NonceSize ciphertext)
  else None.

End crypto.

(** [ApplyObfuscation]: the original headers, overridden by the
    configured ones. *)
Definition ApplyObfuscation (headers : gmap string string)
    (config : ObfuscationConfig) : gmap string string :=
  Headers config ∪ headers.

(** [rand.Int31n(n)] of math/rand panics unless [n > 0]; otherwise it
    answers the 31-bit value [v] its generator settles on, reduced modulo
    [n]. *)
Definition Int31n (v n : Z) : exec Z :=
  if bool_decide (n ≤ 0) then Panic "invalid argument to Int31n"
  else Ret (v `mod` n).

(** The largest allocation the runtime of a 64-bit target accepts. *)
Definition maxAlloc : Z := 2 ^ 48.

(** [AddRandomPadding] adds random padding to data: [v] is the draw of
    math/rand, [rnd] the bytes [rand.Read] fills the padding with.  [make]
    panics on a length that is negative or beyond what can be allocated. *)
Definition AddRandomPadding (rnd : nat → byte) (v : Z) (data : bytes)
    (minPadding maxPadding : Z) : exec bytes :=
  paddingSize ←! (if bool_decide (maxPadding > minPadding)
                  then k ←! Int31n v (goint.to_int32 (goint.sub maxPadding minPadding));
                       Ret (goint.add minPadding k)
                  else Ret minPadding);
  if bool_decide (paddingSize < 0 ∨ paddingSize > maxAlloc)
  then Panic "makeslice: len out of range"
  else Ret (data ++ rand_Read rnd 0 (Z.to_nat paddingSize)).

End common.

(** A POST to a node's [/chunk] endpoint: the HTTP method, whether the body
    could be read, and what [common.DeserializeChunk] makes of it ([None]
    when [json.Unmarshal] fails). *)
Record ChunkPost := {
  post_method : string;
  post_readable : bool;
  post_chunk : option Chunk.t
}.

(** The POST that delivers [chunk]. *)
Definition post (chunk : Chunk.t) : ChunkPost :=
  {| post_method := MethodPost; post_readable := true; post_chunk := Some chunk |}.

(** How a function that sends while it runs ends. *)
Inductive exit (E : Type) :=
  | Returned (err : option E)
  | Panicked (msg : string).
Arguments Returned {E} err.
Arguments Panicked {E} msg.

(** One pass through the body of a fragmentation loop: the chunk goes out
    to a server, or the function returns an error. *)
Inductive iteration (E : Type) :=
  | Continue (server : string) (chunk : Chunk.t)
  | Return (err : E).
Arguments Continue {E} server chunk.
Arguments Return {E} err.

(** [for i := i0; ...; i++ { step i }], [n] passes. *)
Fixpoint send_loop {E} (step : Z → exec (iteration E)) (i : Z) (n : nat)
    : list (string * Chunk.t) * exit E :=
  match n with
  | O => ([], Returned None)
  | S n' =>
      match step i with
      | Panic msg => ([], Panicked msg)
      | Ret (Return err) => ([], Returned (Some err))
      | Ret (Continue server chunk) =>
          let '(sent, x) := send_loop step (i + 1) n' in
          ((server, chunk) :: sent, x)
      end
  end.

(** [for i := 1; i <= total; i++]: the payloads of chunks [i], [i+1], ...
    appended to [acc], or the first sequence number with no chunk. *)
Fixpoint reassemble (chunks : gmap Z Chunk.t) (i : Z) (n : nat) (acc : bytes)
    : Z + bytes :=
  match n with
  | O => inr acc
  | S n' =>
      match chunks !! i with
      | None => inl i
      | Some chunk => reassemble chunks (i + 1) n' (acc ++ Chunk.Data chunk)
      end
  end.

(** ** client/main.go *)
Module client.

Record ClientConfig := {
  ChunkSize : Z;
  UpstreamServers : list string;
  DownstreamPort : Z;
  Timeout : Z;
  Encryption_Enabled : bool;
  EncryptionKey : bytes
}.

Inductive error :=
  | encryption_failed
  | missing_chunk (i : Z)
  | request_timeout (timeout_ms : Z)
  | failed_to_send_request (cause : error).

(** [ProxyResponse] represents the final assembled response. *)
Record ProxyResponse := {
  StatusCode : Z;
  Headers : gmap string string;
  Body : bytes;
  Error : option error
}.

(** [PendingSession] tracks an outgoing request waiting for response.
    [ResponseChan] is a channel with a buffer of one. *)
Record PendingSession := {
  SessionID : string;
  RequestURL : string;
  Method : string;
  StartTime : Z;
  ResponseChan : list ProxyResponse;
  Chunks : gmap Z Chunk.t;
  TotalChunks : Z
}.

(** [ProxyClient]: [pendingSessions] maps a session id to a pointer, a
    position in [heap]. *)
Record ProxyClient := {
  config : ClientConfig;
  pendingSessions : gmap string nat;
  heap : list PendingSession
}.

Definition set_chan (s : PendingSession) (ch : list ProxyResponse) : PendingSession :=
  {| SessionID := SessionID s; RequestURL := RequestURL s; Method := Method s;
     StartTime := StartTime s; ResponseChan := ch; Chunks := Chunks s;
     TotalChunks := TotalChunks s |}.

(** [session.Chunks[chunk.SequenceNum] = chunk;
     session.TotalChunks = chunk.TotalChunks] *)
Definition add_chunk (s : PendingSession) (chunk : Chunk.t) : PendingSession :=
  {| SessionID := SessionID s; RequestURL := RequestURL s; Method := Method s;
     StartTime := StartTime s; ResponseChan := ResponseChan s;
     Chunks := <[Chunk.SequenceNum chunk := chunk]> (Chunks s);
     TotalChunks := Chunk.TotalChunks chunk |}.

Definition set_sessions (c : ProxyClient) (m : gmap string nat)
    (h : list PendingSession) : ProxyClient :=
  {| config := config c; pendingSessions := m; heap := h |}.

(** [generateSessionID]: 16 random bytes in hex. *)
Definition generateSessionID (rnd : nat → byte) : string :=
  hex.EncodeToString (rand_Read rnd 0 16).

Section with_aead.
Context `{!AEAD}.

(** The body of the loop of [fragmentAndSend] at index [i].  The result
    of [sendChunk] is only logged, so the chunk counts as sent either way. *)
Definition fragment_step (cfg : ClientConfig) (rnd : nat → byte) (now : Z → Z)
    (sessionID method url : string) (body : bytes)
    (headers : gmap string string) (totalChunks : Z) (clientAddr : string)
    (i : Z) : exec (iteration error) :=
  let start := goint.mul i (ChunkSize cfg) in
  let end_ := goint.add start (ChunkSize cfg) in
  let end_ := if bool_decide (end_ > len body) then len body else end_ in
  chunkData ←! slice body start end_;
  match (if Encryption_Enabled cfg
         then common.EncryptAES (λ k, rnd (Z.to_nat i * NonceSize + k)%nat)
                chunkData (EncryptionKey cfg)
         else Some chunkData) with
  | None => Ret (Return encryption_failed)
  | Some chunkData =>
      let chunk :=
        {| Chunk.SessionID := sessionID;
           Chunk.SequenceNum := goint.add i 1;
           Chunk.TotalChunks := totalChunks;
           Chunk.Data := chunkData;
           Chunk.Timestamp := now i;
           Chunk.SourceClient := clientAddr;
           Chunk.TargetURL := url;
           Chunk.Method := method;
           Chunk.Headers := headers |} in
      r ←! goint.rem i (len (UpstreamServers cfg));
      upstreamURL ←! index (UpstreamServers cfg) r;
      Ret (Continue upstreamURL chunk)
  end.

(** [fragmentAndSend] splits request into chunks and distributes to
    upstream servers.  The result lists the chunks handed to [sendChunk],
    in order, each with its upstream. *)
Definition fragmentAndSend (cfg : ClientConfig) (rnd : nat → byte) (now : Z → Z)
    (sessionID method url : string) (body : bytes)
    (headers : gmap string string) : list (string * Chunk.t) * exit error :=
  match goint.quo (goint.sub (goint.add (len body) (ChunkSize cfg)) 1)
          (ChunkSize cfg) with
  | Panic msg => ([], Panicked msg)
  | Ret totalChunks =>
      let totalChunks := if totalChunks =? 0 then 1 else totalChunks in
      let clientAddr := ("client:" +:+ pretty (DownstreamPort cfg))%string in
      send_loop
        (fragment_step cfg rnd now sessionID method url body headers
           totalChunks clientAddr)
        0 (Z.to_nat totalChunks)
  end.

(** [handleResponseChunk] receives response chunks from downstream
    servers.  The last component is the session [assembleResponse] is
    started on, if any. *)
Definition handleResponseChunk (c : ProxyClient) (r : ChunkPost)
    : ProxyClient * Reply * option nat :=
  if negb (bool_decide (post_method r = MethodPost))
  then (c, {| status := StatusMethodNotAllowed; payload := Text "Method not allowed" |}, None)
  else if negb (post_readable r)
  then (c, {| status := StatusBadRequest; payload := Text "Failed to read body" |}, None)
  else match post_chunk r with
  | None => (c, {| status := StatusBadRequest; payload := Text "Invalid chunk format" |}, None)
  | Some chunk =>
      match (if Encryption_Enabled (config c)
             then common.DecryptAES (Chunk.Data chunk) (EncryptionKey (config c))
             else Some (Chunk.Data chunk)) with
      | None => (c, {| status := StatusInternalServerError; payload := Text "Decryption failed" |}, None)
      | Some data =>
          let chunk := Chunk.set_Data chunk data in
          match pendingSessions c !! Chunk.SessionID chunk with
          | None => (c, {| status := StatusOK; payload := Text "" |}, None)
          | Some l =>
              match heap c !! l with
              | None => (c, {| status := StatusOK; payload := Text "" |}, None)
              | Some session =>
                  let session := add_chunk session chunk in
                  (set_sessions c (pendingSessions c) (<[l := session]> (heap c)),
                   {| status := StatusOK; payload := Text "Chunk received" |},
                   if bool_decide (Z.of_nat (size (Chunks session)) = TotalChunks session)
                   then Some l else None)
              end
          end
      end
  end.

End with_aead.

(** [assembleResponse] reassembles all chunks into final response.  A
    missing chunk is reported by a blocking send, which goes through when the
    channel has room and otherwise leaves the goroutine waiting (with the
    session's mutex held); the assembled response is offered by a send that
    gives up on a full channel. *)
Definition assembleResponse (c : ProxyClient) (l : nat) : ProxyClient :=
  match heap c !! l with
  | None => c
  | Some session =>
      let response :=
        match reassemble (Chunks session) 1 (Z.to_nat (TotalChunks session)) [] with
        | inl i =>
            {| StatusCode := 0; Headers := ∅; Body := [];
               Error := Some (missing_chunk i) |}
        | inr fullResponse =>
            {| StatusCode := 200; Headers := ∅; Body := fullResponse;
               Error := None |}
        end in
      match ResponseChan session with
      | [] => set_sessions c (pendingSessions c)
                (<[l := set_chan session [response]]> (heap c))
      | _ :: _ => c
      end
  end.

(** [MakeRequest] up to its [select]: a fresh session id, the pending
    session registered, the request fragmented and sent.  When
    [fragmentAndSend] returns an error the session is removed again and the
    error is wrapped.  The results are the client, the session id, the
    pointer the caller keeps, the chunks sent and how the sending ended. *)
Definition MakeRequest_send `{!AEAD} (c : ProxyClient) (rnd : nat → byte)
    (t0 : Z) (now : Z → Z) (method url : string) (body : bytes)
    (headers : gmap string string)
    : ProxyClient * string * nat * list (string * Chunk.t) * exit error :=
  let sessionID := generateSessionID rnd in
  let session :=
    {| SessionID := sessionID; RequestURL := url; Method := method;
       StartTime := t0; ResponseChan := []; Chunks := ∅; TotalChunks := 0 |} in
  let l := length (heap c) in
  let c := set_sessions c (<[sessionID := l]> (pendingSessions c))
             (heap c ++ [session]) in
  let '(sent, x) :=
    fragmentAndSend (config c) (λ k, rnd (16 + k)%nat) now sessionID method url
      body headers in
  match x with
  | Returned (Some err) =>
      (set_sessions c (delete sessionID (pendingSessions c)) (heap c),
       sessionID, l, sent, Returned (Some (failed_to_send_request err)))
  | _ => (c, sessionID, l, sent, x)
  end.

(** The [select] of [MakeRequest], run on the client as it is when the
    caller wakes up: a response in the channel is received and returned with
    its error; with an empty channel it is the timer that fired.  Either way
    the pending session is deleted. *)
Definition MakeRequest_wait (c : ProxyClient) (sessionID : string) (l : nat)
    : ProxyClient * option ProxyResponse * option error :=
  match heap c !! l with
  | None => (c, None, None)
  | Some session =>
      match ResponseChan session with
      | response :: rest =>
          (set_sessions c (delete sessionID (pendingSessions c))
             (<[l := set_chan session rest]> (heap c)),
           Some response, Error response)
      | [] =>
          (set_sessions c (delete sessionID (pendingSessions c)) (heap c),
           None, Some (request_timeout (Timeout (config c))))
      end
  end.

(** The response listener serving a sequence of posts, every goroutine it
    starts running to its end before the next post is handled. *)
Fixpoint serve `{!AEAD} (c : ProxyClient) (posts : list ChunkPost) : ProxyClient :=
  match posts with
  | [] => c
  | r :: rest =>
      let '(c, _, started) := handleResponseChunk c r in
      serve (match started with
             | Some l => assembleResponse c l
             | None => c
             end) rest
  end.

(** [NewProxyClient] creates a new client instance, here from the
    configuration as [yaml.Unmarshal] read it: what is zero gets its default,
    and the key is the 32 bytes the source copies into it. *)
Definition NewProxyClient (config : ClientConfig) : ProxyClient :=
  {| config :=
       {| ChunkSize := if ChunkSize config =? 0 then 8192 else ChunkSize config;
          UpstreamServers := UpstreamServers config;
          DownstreamPort :=
            if DownstreamPort config =? 0 then 7000 else DownstreamPort config;
          Timeout := if Timeout config =? 0 then 30000 else Timeout config;
          Encryption_Enabled := Encryption_Enabled config;
          EncryptionKey :=
            take 32 (String.list_byte_of_string "your-32-byte-encryption-key-here"
                     ++ replicate 32 x00) |};
     pendingSessions := ∅;
     heap := [] |}.

(** [MakeRequest] sends a proxied HTTP request.  [arrivals] are the posts
    the listener serves between the sending and the moment the caller's
    [select] fires.  The results are the client afterwards, the chunks handed
    to [sendChunk], and what the caller gets back: a response and an error,
    or the panic that ended the process. *)
Definition MakeRequest `{!AEAD} (c : ProxyClient) (rnd : nat → byte) (t0 : Z)
    (now : Z → Z) (method url : string) (body : bytes)
    (headers : gmap string string) (arrivals : list ChunkPost)
    : ProxyClient * list (string * Chunk.t)
      * exec (option ProxyResponse * option error) :=
  let '(c, sessionID, l, sent, x) :=
    MakeRequest_send c rnd t0 now method url body headers in
  match x with
  | Panicked msg => (c, sent, Panic msg)
  | Returned (Some err) => (c, sent, Ret (None, Some err))
  | Returned None =>
      let '(c, response, err) := MakeRequest_wait (serve c arrivals) sessionID l in
      (c, sent, Ret (response, err))
  end.

End client.

(** ** upstream-server/main.go *)
Module upstream.

Record UpstreamConfig := {
  ListenPort : Z;
  CentralProxy : string;
  Obfuscation : common.ObfuscationConfig;
  Encryption : common.EncryptionConfig;
  EncryptionKey : bytes
}.

Section with_aead.
Context `{!AEAD}.

(** [handleChunk] processes incoming chunk from client.  [central] stands
    for the POST of [forwardToCentral]: the status the central proxy answers
    with, or [None] when the request fails.  The second result is the chunk
    that was forwarded.  The jitter only delays the forward. *)
Definition handleChunk (cfg : UpstreamConfig) (rnd : nat → byte)
    (central : Chunk.t → option Z) (r : ChunkPost) : Reply * option Chunk.t :=
  if negb (bool_decide (post_method r = MethodPost))
  then ({| status := StatusMethodNotAllowed; payload := Text "Method not allowed" |}, None)
  else if negb (post_readable r)
  then ({| status := StatusBadRequest; payload := Text "Failed to read body" |}, None)
  else match post_chunk r with
  | None => ({| status := StatusBadRequest; payload := Text "Invalid chunk format" |}, None)
  | Some chunk =>
      let chunk :=
        Chunk.set_Headers chunk
          (common.ApplyObfuscation (Chunk.Headers chunk) (Obfuscation cfg)) in
      match (if common.Enabled (Encryption cfg)
             then common.EncryptAES rnd (Chunk.Data chunk) (EncryptionKey cfg)
             else Some (Chunk.Data chunk)) with
      | None => ({| status := StatusInternalServerError; payload := Text "Encryption failed" |}, None)
      | Some data =>
          let chunk := Chunk.set_Data chunk data in
          if bool_decide (central chunk = Some StatusOK)
          then ({| status := StatusOK; payload := Text "Chunk received and forwarded" |},
                Some chunk)
          else ({| status := StatusInternalServerError; payload := Text "Failed to forward chunk" |},
                Some chunk)
      end
  end.

End with_aead.
End upstream.

(** ** central-proxy/main.go *)
Module central.

Record CentralConfig := {
  ListenPort : Z;
  DownstreamServers : list string;
  ReassemblyTimeout : Z;
  ProxyMode : string;
  Encryption : common.EncryptionConfig;
  EncryptionKey : bytes;
  ChunkSize : Z
}.

(** [CentralProxy]: [sessions] maps a session id to a pointer, a position
    in [heap]; a goroutine started on a session keeps its pointer. *)
Record CentralProxy := {
  config : CentralConfig;
  sessions : gmap string nat;
  heap : list Session.t
}.

Inductive error :=
  | request_creation_error
  | request_error
  | encryption_error.

Definition set_sessions (p : CentralProxy) (m : gmap string nat)
    (h : list Session.t) : CentralProxy :=
  {| config := config p; sessions := m; heap := h |}.

(** [session.Chunks[chunk.SequenceNum] = chunk] on the session at [l],
    then the completeness test [len(session.Chunks) == session.TotalChunks]. *)
Definition insert_chunk (p : CentralProxy) (m : gmap string nat)
    (h : list Session.t) (l : nat) (session : Session.t) (chunk : Chunk.t)
    : CentralProxy * Reply * option nat :=
  let session := Session.store session (Chunk.SequenceNum chunk) chunk in
  (set_sessions p m (<[l := session]> h),
   {| status := StatusOK; payload := Text "Chunk received" |},
   if bool_decide (Z.of_nat (size (Session.Chunks session))
                   = Session.TotalChunks session)
   then Some l else None).

Section with_aead.
Context `{!AEAD}.

(** [handleChunk] processes incoming chunk from upstream servers.  The
    last component is the session [processCompleteSession] is started on, if
    any. *)
Definition handleChunk (p : CentralProxy) (now : Z) (r : ChunkPost)
    : CentralProxy * Reply * option nat :=
  if negb (bool_decide (post_method r = MethodPost))
  then (p, {| status := StatusMethodNotAllowed; payload := Text "Method not allowed" |}, None)
  else if negb (post_readable r)
  then (p, {| status := StatusBadRequest; payload := Text "Failed to read body" |}, None)
  else match post_chunk r with
  | None => (p, {| status := StatusBadRequest; payload := Text "Invalid chunk format" |}, None)
  | Some chunk =>
      match (if common.Enabled (Encryption (config p))
             then common.DecryptAES (Chunk.Data chunk) (EncryptionKey (config p))
             else Some (Chunk.Data chunk)) with
      | None => (p, {| status := StatusInternalServerError; payload := Text "Decryption failed" |}, None)
      | Some data =>
          let chunk := Chunk.set_Data chunk data in
          match sessions p !! Chunk.SessionID chunk with
          | Some l =>
              match heap p !! l with
              | Some session => insert_chunk p (sessions p) (heap p) l session chunk
              | None =>
                  (* a pointer stored in the map is never dangling *)
                  (p, {| status := StatusInternalServerError; payload := Text "" |}, None)
              end
          | None =>
              let session :=
                {| Session.SessionID := Chunk.SessionID chunk;
                   Session.Chunks := ∅;
                   Session.TotalChunks := Chunk.TotalChunks chunk;
                   Session.ReceivedAt := now;
                   Session.TargetURL := Chunk.TargetURL chunk;
                   Session.Method := Chunk.Method chunk;
                   Session.Headers := Chunk.Headers chunk |} in
              let l := length (heap p) in
              insert_chunk p (<[Chunk.SessionID chunk := l]> (sessions p))
                (heap p ++ [session]) l session chunk
          end
      end
  end.

(** The body of the loop of [fragmentAndForward] at index [i]. *)
Definition forward_step (cfg : CentralConfig) (rnd : nat → byte) (now : Z → Z)
    (session : Session.t) (response : bytes) (totalChunks : Z) (i : Z)
    : exec (iteration error) :=
  let start := goint.mul i (ChunkSize cfg) in
  let end_ := goint.add start (ChunkSize cfg) in
  let end_ := if bool_decide (end_ > len response) then len response else end_ in
  data ←! slice response start end_;
  first ←! match Session.Chunks session !! 1 with
           | Some c => Ret c
           | None => Panic "nil pointer dereference"
           end;
  let chunk :=
    {| Chunk.SessionID := Session.SessionID session;
       Chunk.SequenceNum := goint.add i 1;
       Chunk.TotalChunks := totalChunks;
       Chunk.Data := data;
       Chunk.Timestamp := now i;
       Chunk.SourceClient := Chunk.SourceClient first;
       Chunk.TargetURL := "";
       Chunk.Method := "";
       Chunk.Headers := ∅ |} in
  match (if common.Enabled (Encryption cfg)
         then common.EncryptAES (λ k, rnd (Z.to_nat i * NonceSize + k)%nat)
                (Chunk.Data chunk) (EncryptionKey cfg)
         else Some (Chunk.Data chunk)) with
  | None => Ret (Return encryption_error)
  | Some data =>
      let chunk := Chunk.set_Data chunk data in
      r ←! goint.rem i (len (DownstreamServers cfg));
      downstreamURL ←! index (DownstreamServers cfg) r;
      Ret (Continue downstreamURL chunk)
  end.

(** [fragmentAndForward] splits response and sends to downstream
    servers.  The result lists the chunks handed to [sendToDownstream], in
    order, each with its downstream. *)
Definition fragmentAndForward (cfg : CentralConfig) (rnd : nat → byte)
    (now : Z → Z) (session : Session.t) (response : bytes)
    : list (string * Chunk.t) * exit error :=
  match goint.quo (goint.sub (goint.add (len response) (ChunkSize cfg)) 1)
          (ChunkSize cfg) with
  | Panic msg => ([], Panicked msg)
  | Ret totalChunks =>
      send_loop (forward_step cfg rnd now session response totalChunks)
        0 (Z.to_nat totalChunks)
  end.

End with_aead.

Section with_net.
Context `{!Net}.

(** [for k, v := range session.Headers { req.Header.Set(k, v) }].  Go
    leaves the order of the iteration open; it matters only when two keys of
    the session share a canonical form. *)
Definition set_headers (headers : gmap string string) : gmap string string :=
  map_fold (λ k v h, <[CanonicalMIMEHeaderKey k := v]> h) ∅ headers.

(** [performProxyRequest] makes the actual HTTP request.  The results are
    the Internet afterwards, the requests issued and the response body, or
    the error. *)
Definition performProxyRequest (w : internet) (session : Session.t)
    (body : bytes) : internet * list Request * (bytes + error) :=
  if NewRequest_ok (Session.Method session) (Session.TargetURL session)
  then
    let req :=
      {| req_method := Session.Method session;
         req_url := Session.TargetURL session;
         req_header := set_headers (Session.Headers session);
         req_body := body |} in
    match Do w req with
    | (w, Some responseData) => (w, [req], inl responseData)
    | (w, None) => (w, [req], inr request_error)
    end
  else (w, [], inr request_creation_error).

(** What one run of [processCompleteSession] does: the proxy and the
    Internet afterwards, the outbound requests issued, the chunks dispatched
    to downstream servers, and the panic that ended the process, if any. *)
Record Run := {
  proxy : CentralProxy;
  net : internet;
  outbound : list Request;
  dispatched : list (string * Chunk.t);
  crashed : option string
}.

(** [processCompleteSession] reassembles and proxies the request. *)
Definition processCompleteSession `{!AEAD} (p : CentralProxy) (w : internet)
    (rnd : nat → byte) (now : Z → Z) (l : nat) : Run :=
  match heap p !! l with
  | None => {| proxy := p; net := w; outbound := []; dispatched := []; crashed := None |}
  | Some session =>
      match reassemble (Session.Chunks session) 1
              (Z.to_nat (Session.TotalChunks session)) [] with
      | inl i =>
          {| proxy := p; net := w; outbound := []; dispatched := []; crashed := None |}
      | inr fullData =>
          match performProxyRequest w session fullData with
          | (w, reqs, inr err) =>
              {| proxy := p; net := w; outbound := reqs; dispatched := []; crashed := None |}
          | (w, reqs, inl response) =>
              match fragmentAndForward (config p) rnd now session response with
              | (sent, Panicked msg) =>
                  {| proxy := p; net := w; outbound := reqs; dispatched := sent;
                     crashed := Some msg |}
              | (sent, Returned _) =>
                  {| proxy := set_sessions p
                                (delete (Session.SessionID session) (sessions p))
                                (heap p);
                     net := w; outbound := reqs; dispatched := sent;
                     crashed := None |}
              end
          end
      end
  end.

End with_net.

(** [now.Sub(session.ReceivedAt) > timeout], times in milliseconds. *)
Definition expired (p : CentralProxy) (now : Z) (l : nat) : bool :=
  match heap p !! l with
  | Some session =>
      bool_decide (now - Session.ReceivedAt session > ReassemblyTimeout (config p))
  | None => false
  end.

(** One pass of [cleanupSessions]: every session first seen more than the
    reassembly timeout ago is deleted. *)
Definition cleanup (p : CentralProxy) (now : Z) : CentralProxy :=
  set_sessions p (filter (λ kl, expired p now kl.2 = false) (sessions p)) (heap p).

(** The central proxy serving a sequence of posts, every goroutine it
    starts running to its end before the next post is handled; the k-th post
    arrives at time [clock k], and a goroutine it starts draws its random
    bytes from [rnd k].  A panic in a goroutine ends the process. *)
Fixpoint serve `{!AEAD} `{!Net} (p : CentralProxy) (w : internet)
    (rnd : nat → nat → byte) (clock : nat → Z) (now : Z → Z)
    (posts : list ChunkPost) : Run :=
  match posts with
  | [] => {| proxy := p; net := w; outbound := []; dispatched := []; crashed := None |}
  | r :: rest =>
      let '(p, _, started) := handleChunk p (clock 0%nat) r in
      match started with
      | None => serve p w (λ k, rnd (S k)) (λ k, clock (S k)) now rest
      | Some l =>
          let run := processCompleteSession p w (rnd 0%nat) now l in
          match crashed run with
          | Some _ => run
          | None =>
              let more :=
                serve (proxy run) (net run) (λ k, rnd (S k)) (λ k, clock (S k))
                  now rest in
              {| proxy := proxy more; net := net more;
                 outbound := outbound run ++ outbound more;
                 dispatched := dispatched run ++ dispatched more;
                 crashed := crashed more |}
          end
      end
  end.

End central.

(** ** downstream-server/main.go *)
Module downstream.

Record DownstreamConfig := {
  ListenPort : Z;
  Obfuscation : common.ObfuscationConfig;
  Encryption : common.EncryptionConfig;
  EncryptionKey : bytes;
  ReassemblyTimeout : Z
}.

(** [DownstreamServer]: [sessions] maps a session id to a pointer, a
    position in [heap]; a goroutine started on a session keeps its pointer. *)
Record DownstreamServer := {
  config : DownstreamConfig;
  sessions : gmap string nat;
  heap : list Session.t
}.

Definition set_sessions (s : DownstreamServer) (m : gmap string nat)
    (h : list Session.t) : DownstreamServer :=
  {| config := config s; sessions := m; heap := h |}.

(** [session.Chunks[chunk.SequenceNum] = chunk] on the session at [l],
    then the completeness test [len(session.Chunks) == session.TotalChunks]. *)
Definition insert_chunk (s : DownstreamServer) (m : gmap string nat)
    (h : list Session.t) (l : nat) (session : Session.t) (chunk : Chunk.t)
    : DownstreamServer * Reply * option nat :=
  let session := Session.store session (Chunk.SequenceNum chunk) chunk in
  (set_sessions s m (<[l := session]> h),
   {| status := StatusOK; payload := Text "Chunk received" |},
   if bool_decide (Z.of_nat (size (Session.Chunks session))
                   = Session.TotalChunks session)
   then Some l else None).

(** What one run of [deliverToClient] does: the server afterwards, the
    chunks handed to [sendChunkToClient], each with the client address, and
    the panic that ended the process, if any. *)
Record Run := {
  server : DownstreamServer;
  delivered : list (string * Chunk.t);
  crashed : option string
}.

Section with_aead.
Context `{!AEAD}.

(** [handleChunk] processes incoming response chunk from central proxy.
    The session it creates records neither target nor method nor headers.
    The last component is the session [deliverToClient] is started on, if
    any. *)
Definition handleChunk (s : DownstreamServer) (now : Z) (r : ChunkPost)
    : DownstreamServer * Reply * option nat :=
  if negb (bool_decide (post_method r = MethodPost))
  then (s, {| status := StatusMethodNotAllowed; payload := Text "Method not allowed" |}, None)
  else if negb (post_readable r)
  then (s, {| status := StatusBadRequest; payload := Text "Failed to read body" |}, None)
  else match post_chunk r with
  | None => (s, {| status := StatusBadRequest; payload := Text "Invalid chunk format" |}, None)
  | Some chunk =>
      match (if common.Enabled (Encryption (config s))
             then common.DecryptAES (Chunk.Data chunk) (EncryptionKey (config s))
             else Some (Chunk.Data chunk)) with
      | None => (s, {| status := StatusInternalServerError; payload := Text "Decryption failed" |}, None)
      | Some data =>
          let chunk := Chunk.set_Data chunk data in
          match sessions s !! Chunk.SessionID chunk with
          | Some l =>
              match heap s !! l with
              | Some session => insert_chunk s (sessions s) (heap s) l session chunk
              | None =>
                  (* a pointer stored in the map is never dangling *)
                  (s, {| status := StatusInternalServerError; payload := Text "" |}, None)
              end
          | None =>
              let session :=
                {| Session.SessionID := Chunk.SessionID chunk;
                   Session.Chunks := ∅;
                   Session.TotalChunks := Chunk.TotalChunks chunk;
                   Session.ReceivedAt := now;
                   Session.TargetURL := "";
                   Session.Method := "";
                   Session.Headers := ∅ |} in
              let l := length (heap s) in
              insert_chunk s (<[Chunk.SessionID chunk := l]> (sessions s))
                (heap s ++ [session]) l session chunk
          end
      end
  end.

(** [for i := 1; i <= session.TotalChunks; i++] of [deliverToClient], [n]
    passes from [i] on.  A missing chunk is skipped; a chunk that is there is
    changed in place (its headers, then its payload) before it is sent, and
    stays changed in the session; when the encryption fails the chunk is
    skipped with its headers already changed.  The result of
    [sendChunkToClient] is only logged. *)
Fixpoint deliver_loop (cfg : DownstreamConfig) (rnd : nat → byte)
    (session : Session.t) (clientAddr : string) (i : Z) (n : nat)
    : Session.t * list (string * Chunk.t) :=
  match n with
  | O => (session, [])
  | S n' =>
      match Session.Chunks session !! i with
      | None => deliver_loop cfg rnd session clientAddr (i + 1) n'
      | Some chunk =>
          let chunk :=
            if bool_decide (common.Type_ (Obfuscation cfg) ≠ EmptyString)
            then Chunk.set_Headers chunk
                   (common.ApplyObfuscation (Chunk.Headers chunk) (Obfuscation cfg))
            else chunk in
          match (if common.Enabled (Encryption cfg)
                 then common.EncryptAES (λ k, rnd (Z.to_nat i * NonceSize + k)%nat)
                        (Chunk.Data chunk) (EncryptionKey cfg)
                 else Some (Chunk.Data chunk)) with
          | None =>
              deliver_loop cfg rnd (Session.store session i chunk) clientAddr (i + 1) n'
          | Some data =>
              let chunk := Chunk.set_Data chunk data in
              let '(session, sent) :=
                deliver_loop cfg rnd (Session.store session i chunk) clientAddr
                  (i + 1) n' in
              (session, (clientAddr, chunk) :: sent)
          end
      end
  end.

(** [deliverToClient] reassembles response and sends to client.  The
    client address is read off chunk 1 before anything else. *)
Definition deliverToClient (s : DownstreamServer) (rnd : nat → byte) (l : nat)
    : Run :=
  match heap s !! l with
  | None => {| server := s; delivered := []; crashed := None |}
  | Some session =>
      match Session.Chunks session !! 1 with
      | None =>
          {| server := s; delivered := [];
             crashed := Some "nil pointer dereference" |}
      | Some first =>
          let clientAddr := Chunk.SourceClient first in
          if bool_decide (clientAddr = EmptyString)
          then {| server := s; delivered := []; crashed := None |}
          else
            let '(session', sent) :=
              deliver_loop (config s) rnd session clientAddr 1
                (Z.to_nat (Session.TotalChunks session)) in
            {| server := set_sessions s
                           (delete (Session.SessionID session) (sessions s))
                           (<[l := session']> (heap s));
               delivered := sent; crashed := None |}
      end
  end.

(** The downstream server serving a sequence of posts, every goroutine
    it starts running to its end before the next post is handled; the k-th
    post arrives at time [clock k], and a goroutine it starts draws its
    random bytes from [rnd k]. *)
Fixpoint serve (s : DownstreamServer) (rnd : nat → nat → byte) (clock : nat → Z)
    (posts : list ChunkPost) : Run :=
  match posts with
  | [] => {| server := s; delivered := []; crashed := None |}
  | r :: rest =>
      let '(s, _, started) := handleChunk s (clock 0%nat) r in
      match started with
      | None => serve s (λ k, rnd (S k)) (λ k, clock (S k)) rest
      | Some l =>
          let run := deliverToClient s (rnd 0%nat) l in
          match crashed run with
          | Some _ => run
          | None =>
              let more :=
                serve (server run) (λ k, rnd (S k)) (λ k, clock (S k)) rest in
              {| server := server more;
                 delivered := delivered run ++ delivered more;
                 crashed := crashed more |}
          end
      end
  end.

End with_aead.

(** [now.Sub(session.ReceivedAt) > timeout], times in milliseconds. *)
Definition expired (s : DownstreamServer) (now : Z) (l : nat) : bool :=
  match heap s !! l with
  | Some session =>
      bool_decide (now - Session.ReceivedAt session > ReassemblyTimeout (config s))
  | None => false
  end.

(** One pass of [cleanupSessions]. *)
Definition cleanup (s : DownstreamServer) (now : Z) : DownstreamServer :=
  set_sessions s (filter (λ kl, expired s now kl.2 = false) (sessions s)) (heap s).

End downstream.

(** ** relay-node/main.go *)
Module relay.

Record RelayConfig := {
  ListenPort : Z;
  NodeID : string;
  NextHops : list string;
  PrevHops : list string;
  GatewayURL : string;
  AuthToken : string;
  Secret : string;
  TrafficMixing : bool;
  RotationTime : Z
}.

Record RelayTraffic := {
  RequestID : string;
  Data : bytes;
  Timestamp : Z;
  FromNode : string
}.

Record RelayNode := {
  config : RelayConfig;
  currentHopIdx : Z;
  trafficBuffer : list RelayTraffic
}.

Definition set_currentHopIdx (r : RelayNode) (i : Z) : RelayNode :=
  {| config := config r; currentHopIdx := i; trafficBuffer := trafficBuffer r |}.

(** [NewRelayNode] starts [rotateRoutes] when a rotation time is
    configured. *)
Definition rotation_enabled (r : RelayNode) : bool :=
  bool_decide (RotationTime (config r) > 0).

(** The body of the loop of [rotateRoutes], run once per tick. *)
Definition rotate (r : RelayNode) : exec RelayNode :=
  if bool_decide (len (NextHops (config r)) ≤ 1)
  then Ret r
  else
    i ←! goint.rem (goint.add (currentHopIdx r) 1) (len (NextHops (config r)));
    Ret (set_currentHopIdx r i).

(** The ticker of [rotateRoutes] delivers a tick at every positive
    multiple of the rotation time; time is counted in whole seconds, and the
    period [time.Duration(RotationTime) * time.Second] is taken to fit a
    [time.Duration]. *)
Definition ticker_fires (r : RelayNode) (t : Z) : bool :=
  bool_decide (t `mod` RotationTime (config r) = 0).

(** The relay [n] seconds later, when [t] seconds have passed since
    [rotateRoutes] started: second by second, the loop body runs whenever
    the ticker fires. *)
Fixpoint rotateRoutes (r : RelayNode) (t : Z) (n : nat) : exec RelayNode :=
  match n with
  | O => Ret r
  | S n' =>
      r ←! (if ticker_fires r (t + 1) then rotate r else Ret r);
      rotateRoutes r (t + 1) n'
  end.

(** The relay [T] seconds after its start. *)
Definition after (r : RelayNode) (T : Z) : exec RelayNode :=
  if rotation_enabled r then rotateRoutes r 0 (Z.to_nat T) else Ret r.

(** The next hop [forwardTraffic] selects when no gateway is set. *)
Definition nextHop (r : RelayNode) : exec string :=
  index (NextHops (config r)) (currentHopIdx r).

Definition set_trafficBuffer (r : RelayNode) (b : list RelayTraffic) : RelayNode :=
  {| config := config r; currentHopIdx := currentHopIdx r; trafficBuffer := b |}.


Inductive error :=
  | request_creation_error
  | request_error
  | next_hop_returned_status (code : Z).

(** A request to [/relay]: the HTTP method, whether the body could be
    read, the headers under their canonical keys, and the body. *)
Record RelayPost := {
  relay_method : string;
  relay_readable : bool;
  relay_header : gmap string string;
  relay_body : bytes
}.


Section with_net.
Context `{!Net}.

(** [req.Header.Get(key)] *)
Definition Header_Get (h : gmap string string) (key : string) : string :=
  default EmptyString (h !! CanonicalMIMEHeaderKey key).

(** [httpReq.Header.Set(key, value)] *)
Definition Header_Set (h : gmap string string) (key value : string)
    : gmap string string :=
  <[CanonicalMIMEHeaderKey key := value]> h.

(** The headers [forwardTraffic] sets, in its order; the credentials are
    added only on the way to the gateway, and only once there is a token. *)
Definition forward_headers (r : RelayNode) (requestID : string)
    : gmap string string :=
  let h := Header_Set ∅ "Content-Type" "application/json" in
  let h := Header_Set h "X-Request-ID" requestID in
  let h := Header_Set h "X-From-Node" (NodeID (config r)) in
  if bool_decide (GatewayURL (config r) ≠ EmptyString
                  ∧ AuthToken (config r) ≠ EmptyString)
  then Header_Set (Header_Set h "X-Node-ID" (NodeID (config r)))
         "X-Auth-Token" (AuthToken (config r))
  else h.

(** [forwardTraffic] sends traffic to next hop.  [hop] stands for whoever
    receives the request: the status it answers with, or [None] when the
    request fails.  The results are the requests issued and the error
    returned. *)
Definition forwardTraffic (r : RelayNode) (hop : Request → option Z)
    (data : bytes) (requestID fromNode : string)
    : exec (list Request * option error) :=
  targetURL ←! (if bool_decide (GatewayURL (config r) ≠ EmptyString)
                then Ret (GatewayURL (config r))
                else nextHop ←! nextHop r;
                     Ret ("http://" +:+ nextHop +:+ "/relay")%string);
  if NewRequest_ok MethodPost targetURL
  then
    let httpReq :=
      {| req_method := MethodPost; req_url := targetURL;
         req_header := forward_headers r requestID; req_body := data |} in
    match hop httpReq with
    | None => Ret ([httpReq], Some request_error)
    | Some code =>
        if bool_decide (code ≠ StatusOK ∧ code ≠ StatusAccepted)
        then Ret ([httpReq], Some (next_hop_returned_status code))
        else Ret ([httpReq], None)
    end
  else Ret ([], Some request_creation_error).

(** [handleRelay] receives and forwards traffic.  The last component
    lists the requests issued while the handler ran. *)
Definition handleRelay (r : RelayNode) (hop : Request → option Z) (now : Z)
    (req : RelayPost) : exec (RelayNode * Reply * list Request) :=
  if negb (bool_decide (relay_method req = MethodPost))
  then Ret (r, {| status := StatusMethodNotAllowed; payload := Text "Method not allowed" |}, [])
  else if negb (relay_readable req)
  then Ret (r, {| status := StatusBadRequest; payload := Text "Failed to read body" |}, [])
  else
    let fromNode := Header_Get (relay_header req) "X-From-Node" in
    let requestID := Header_Get (relay_header req) "X-Request-ID" in
    if TrafficMixing (config r)
    then Ret (set_trafficBuffer r
                (trafficBuffer r
                 ++ [ {| RequestID := requestID; Data := relay_body req;
                         Timestamp := now; FromNode := fromNode |} ]),
              {| status := StatusAccepted; payload := Text "Traffic queued" |}, [])
    else
      forwarded ←! forwardTraffic r hop (relay_body req) requestID fromNode;
      match forwarded.2 with
      | Some _ =>
          Ret (r, {| status := StatusInternalServerError; payload := Text "Forward failed" |},
               forwarded.1)
      | None =>
          Ret (r, {| status := StatusOK; payload := Text "Traffic relayed" |},
               forwarded.1)
      end.




(** [NewRelayNode] starts [registerWithGateway] for a final relay that
    has no token yet. *)
Definition registers (r : RelayNode) : bool :=
  bool_decide (GatewayURL (config r) ≠ EmptyString
               ∧ AuthToken (config r) = EmptyString).

End with_net.

End relay.

(** ** starlink-gateway/main.go *)
Module gateway.

Record GatewayConfig := {
  ListenPort : Z;
  AuthenticatedNodes : list string;
  TrafficMixing : bool;
  SourceRotation : bool;
  MACRandomization : bool;
  TimingJitter : Z;
  HideGatewayIP : bool;
  UseRelayNodes : bool;
  NodeTokens : gmap string string
}.

(** [TrafficRequest] represents a proxied request. *)
Record TrafficRequest := {
  RequestID : string;
  NodeID : string;
  TargetURL : string;
  Method : string;
  Body : bytes;
  Headers : gmap string string;
  ReceivedAt : Z
}.

Record StarlinkGateway := {
  config : GatewayConfig;
  trafficBatch : list TrafficRequest
}.

Inductive error :=
  | request_creation_error
  | request_error.

(** The JSON body of a POST to [/proxy], decoded. *)
Record proxyReq := {
  request_id : string;
  target_url : string;
  method : string;
  body : bytes;
  headers : gmap string string
}.

(** A request to [/proxy]: its headers under their canonical keys, and
    its body as [json.Decode] reads it ([None] when it is not valid). *)
Record ProxyPost := {
  proxy_header : gmap string string;
  proxy_json : option proxyReq
}.

(** The JSON body of a POST to [/register], decoded. *)
Record regReq := {
  node_id : string;
  secret : string
}.

Record RegisterPost := {
  register_method : string;
  register_json : option regReq
}.

Definition set_NodeTokens (g : StarlinkGateway) (m : gmap string string)
    : StarlinkGateway :=
  {| config :=
       {| ListenPort := ListenPort (config g);
          AuthenticatedNodes := AuthenticatedNodes (config g);
          TrafficMixing := TrafficMixing (config g);
          SourceRotation := SourceRotation (config g);
          MACRandomization := MACRandomization (config g);
          TimingJitter := TimingJitter (config g);
          HideGatewayIP := HideGatewayIP (config g);
          UseRelayNodes := UseRelayNodes (config g);
          NodeTokens := m |};
     trafficBatch := trafficBatch g |}.

Definition set_trafficBatch (g : StarlinkGateway) (b : list TrafficRequest)
    : StarlinkGateway :=
  {| config := config g; trafficBatch := b |}.

(** [generateToken] creates a random authentication token: 32 random
    bytes in hex. *)
Definition generateToken (rnd : nat → byte) : string :=
  hex.EncodeToString (rand_Read rnd 0 32).

(** The loop of [NewStarlinkGateway] that generates a token for each
    configured node. *)
Fixpoint initial_tokens (nodes : list string) (rnd : nat → byte)
    (tokens : gmap string string) : gmap string string :=
  match nodes with
  | [] => tokens
  | nodeID :: rest =>
      initial_tokens rest (λ k, rnd (32 + k)%nat)
        (<[nodeID := generateToken rnd]> tokens)
  end.

(** [authenticateNode] verifies node credentials. *)
Definition authenticateNode (g : StarlinkGateway) (nodeID token : string) : bool :=
  match NodeTokens (config g) !! nodeID with
  | Some expectedToken => bool_decide (expectedToken = token)
  | None => false
  end.

Section with_net.
Context `{!Net}.

(** [r.Header.Get(key)]: the value under the canonical key, or the empty
    string. *)
Definition Header_Get (h : gmap string string) (key : string) : string :=
  default EmptyString (h !! CanonicalMIMEHeaderKey key).

(** The loop of [performProxyRequest] that sets the headers and removes
    the internal ones. *)
Definition set_headers (headers : gmap string string) : gmap string string :=
  map_fold (λ k v h,
              if bool_decide (k ≠ "X-Node-ID" ∧ k ≠ "X-Auth-Token")
              then <[CanonicalMIMEHeaderKey k := v]> h else h)
    ∅ headers.

(** [performProxyRequest] makes the actual HTTP request to the internet.
    The request is built without a body, and the body returned is the empty
    slice the function allocates: the response is never read. *)
Definition performProxyRequest (w : internet) (trafficReq : TrafficRequest)
    : internet * list Request * (bytes + error) :=
  if NewRequest_ok (Method trafficReq) (TargetURL trafficReq)
  then
    let req :=
      {| req_method := Method trafficReq;
         req_url := TargetURL trafficReq;
         req_header := set_headers (Headers trafficReq);
         req_body := [] |} in
    match Do w req with
    | (w, Some _) => (w, [req], inl [])
    | (w, None) => (w, [req], inr request_error)
    end
  else (w, [], inr request_creation_error).

(** [handleProxyRequest] receives requests from relay nodes.  The jitter
    only delays what follows.  The last component lists the outbound
    requests issued while the handler ran. *)
Definition handleProxyRequest (g : StarlinkGateway) (w : internet) (now : Z)
    (r : ProxyPost) : StarlinkGateway * internet * Reply * list Request :=
  let nodeID := Header_Get (proxy_header r) "X-Node-ID" in
  let token := Header_Get (proxy_header r) "X-Auth-Token" in
  if negb (authenticateNode g nodeID token)
  then (g, w, {| status := StatusUnauthorized; payload := Text "Unauthorized" |}, [])
  else match proxy_json r with
  | None => (g, w, {| status := StatusBadRequest; payload := Text "Invalid request" |}, [])
  | Some proxyReq =>
      let trafficReq :=
        {| RequestID := request_id proxyReq;
           NodeID := nodeID;
           TargetURL := target_url proxyReq;
           Method := method proxyReq;
           Body := body proxyReq;
           Headers := headers proxyReq;
           ReceivedAt := now |} in
      if TrafficMixing (config g)
      then (set_trafficBatch g (trafficBatch g ++ [trafficReq]), w,
            {| status := StatusAccepted;
               payload := Json {[ "status" := "queued";
                                  "request_id" := request_id proxyReq ]} |},
            [])
      else match performProxyRequest w trafficReq with
           | (w, reqs, inr err) =>
               (g, w, {| status := StatusInternalServerError; payload := Text "Proxy error" |}, reqs)
           | (w, reqs, inl response) =>
               (g, w, {| status := StatusOK; payload := Raw response |}, reqs)
           end
  end.

End with_net.

(** [handleNodeRegistration] allows new nodes to register. *)
Definition handleNodeRegistration (g : StarlinkGateway) (rnd : nat → byte)
    (r : RegisterPost) : StarlinkGateway * Reply :=
  if negb (bool_decide (register_method r = MethodPost))
  then (g, {| status := StatusMethodNotAllowed; payload := Text "Method not allowed" |})
  else match register_json r with
  | None => (g, {| status := StatusBadRequest; payload := Text "Invalid request" |})
  | Some regReq =>
      let authorized :=
        existsb (λ nodeID, bool_decide (nodeID = node_id regReq))
          (AuthenticatedNodes (config g)) in
      if negb authorized
      then (g, {| status := StatusUnauthorized; payload := Text "Unauthorized" |})
      else
        let token := generateToken rnd in
        (set_NodeTokens g (<[node_id regReq := token]> (NodeTokens (config g))),
         {| status := StatusOK;
            payload := Json {[ "node_id" := node_id regReq; "token" := token ]} |})
  end.

Section with_net.
Context `{!Net}.



End with_net.

End gateway.

(** ** A network to run the model on *)

(** [textproto.CanonicalMIMEHeaderKey]: the first letter and every letter
    after a hyphen in upper case, the others in lower case; a key with a
    byte that no header name may contain is left as it is. *)
Definition is_upper (c : ascii) : bool :=
  (65 <=? nat_of_ascii c)%nat && (nat_of_ascii c <=? 90)%nat.
Definition is_lower (c : ascii) : bool :=
  (97 <=? nat_of_ascii c)%nat && (nat_of_ascii c <=? 122)%nat.
Definition is_digit (c : ascii) : bool :=
  (48 <=? nat_of_ascii c)%nat && (nat_of_ascii c <=? 57)%nat.

Definition validHeaderFieldByte (c : ascii) : bool :=
  is_upper c || is_lower c || is_digit c
  || bool_decide (c ∈ String.list_ascii_of_string "!#$%&'*+-.^_`|~").

Fixpoint all_valid (s : string) : bool :=
  match s with
  | EmptyString => true
  | String c rest => validHeaderFieldByte c && all_valid rest
  end.

Fixpoint canonical_from (upper : bool) (s : string) : string :=
  match s with
  | EmptyString => EmptyString
  | String c rest =>
      let c :=
        if upper && is_lower c then ascii_of_nat (nat_of_ascii c - 32)
        else if negb upper && is_upper c then ascii_of_nat (nat_of_ascii c + 32)
        else c in
      String c (canonical_from (bool_decide (c = "-"%char)) rest)
  end.

Definition canonical_key (s : string) : string :=
  if all_valid s then canonical_from true s else s.

(** An Internet for examples.  Its state counts the requests served; the
    host [unreachable.test] refuses connections, [empty.test] answers with an
    empty body, and every other URL is answered with the bytes "hi" followed
    by the count as one byte. *)
Definition example_Do (served : nat) (req : Request) : nat * option bytes :=
  (S served,
   if bool_decide (req_url req = "http://unreachable.test/")
   then None
   else if bool_decide (req_url req = "http://empty.test/")
   then Some []
   else Some ([x68; x69] ++ [default x00 (Byte.of_nat served)])).

#[export] Instance example_net : Net := {|
  CanonicalMIMEHeaderKey := canonical_key;
  NewRequest_ok := λ method url, all_valid method;
  internet := nat;
  Do := example_Do
|}.

(** The example Internet before any request. *)
Definition untouched : @internet example_net := 0%nat.

(** ** The tagging AEAD satisfies the interface *)

Lemma tag_of_length key nonce : length (tag_of key nonce) = 16%nat.
Proof.
  unfold tag_of. rewrite length_take, !length_app, length_replicate. lia.
Qed.

Lemma tag_Open_Seal key nonce m : tag_Open key nonce (tag_Seal key nonce m) = Some m.
Proof.
  unfold tag_Open, tag_Seal.
  rewrite length_app, tag_of_length.
  rewrite bool_decide_true by lia.
  replace (length m + 16 - 16)%nat with (length m) by lia.
  rewrite drop_app_length, take_app_length.
  by rewrite decide_True.
Qed.

Lemma tag_Seal_length key nonce m :
  length (tag_Seal key nonce m) = (length m + 16)%nat.
Proof. unfold tag_Seal. by rewrite length_app, tag_of_length. Qed.

#[export] Instance tag_aead : AEAD := {|
  NonceSize := 12;
  Overhead := 16;
  Seal := tag_Seal;
  Open := tag_Open;
  Open_Seal := λ key nonce m _ _, tag_Open_Seal key nonce m;
  Seal_length := λ key nonce m _ _, tag_Seal_length key nonce m;
  Overhead_pos := ltac:(lia)
|}.

(** * Vocabulary of the statements, and nodes to run the model on *)

(** The ceiling of [a / b], by way of the floor. *)
Definition ceil_div (a b : Z) : Z := - ((- a) `div` b).

(** The upstream the round-robin selects for index [i]. *)
Definition round_robin (servers : list string) (i : Z) : string :=
  default EmptyString (servers !! Z.to_nat (i `mod` len servers)).

(** The bytes of [body] that chunk number [i + 1] carries. *)
Definition fragment (body : bytes) (chunk_size i : Z) : bytes :=
  byte_range body (Z.to_nat (i * chunk_size))
    (Z.to_nat (Z.min ((i + 1) * chunk_size) (len body))).

(** What a chunk's payload is made of its fragment: the fragment itself,
    or the fragment encrypted with the nonce drawn in pass [i]. *)
Definition payload_of `{!AEAD} (cfg : client.ClientConfig) (rnd : nat → byte)
    (i : Z) (plain : bytes) : option bytes :=
  if client.Encryption_Enabled cfg
  then common.EncryptAES (λ k, rnd (Z.to_nat i * NonceSize + k)%nat) plain
         (client.EncryptionKey cfg)
  else Some plain.

(** The payload of the chunk built in pass [i] from the fragment [plain]. *)
Definition sealed `{!AEAD} (cfg : client.ClientConfig) (rnd : nat → byte) (i : Z)
    (plain : bytes) : bytes :=
  if client.Encryption_Enabled cfg
  then let nonce := rand_Read (λ k, rnd (Z.to_nat i * NonceSize + k)%nat) 0 NonceSize in
       nonce ++ Seal (client.EncryptionKey cfg) nonce plain
  else plain.

(** The number of chunks of a body of [size] bytes. *)
Definition chunk_count (size chunk_size : Z) : Z :=
  Z.max 1 (ceil_div size chunk_size).

(** The chunk the client builds in pass [i]. *)
Definition client_chunk `{!AEAD} (cfg : client.ClientConfig) (rnd : nat → byte)
    (now : Z → Z) (sessionID method url : string) (body : bytes)
    (headers : gmap string string) (i : Z) : Chunk.t :=
  {| Chunk.SessionID := sessionID;
     Chunk.SequenceNum := i + 1;
     Chunk.TotalChunks := chunk_count (len body) (client.ChunkSize cfg);
     Chunk.Data := sealed cfg rnd i (fragment body (client.ChunkSize cfg) i);
     Chunk.Timestamp := now i;
     Chunk.SourceClient := "client:" +:+ pretty (client.DownstreamPort cfg);
     Chunk.TargetURL := url;
     Chunk.Method := method;
     Chunk.Headers := headers |}.

(** A chunk of the client carries [plain]: as it is when encryption is
    disabled, and otherwise encrypted under the client's key. *)
Definition carries `{!AEAD} (cfg : client.ClientConfig) (chunk : Chunk.t)
    (plain : bytes) : Prop :=
  if client.Encryption_Enabled cfg
  then common.DecryptAES (Chunk.Data chunk) (client.EncryptionKey cfg) = Some plain
  else Chunk.Data chunk = plain.

(** A client that encrypts, with two upstreams and chunks of two bytes. *)
Definition small_chunks : client.ClientConfig :=
  {| client.ChunkSize := 2;
     client.UpstreamServers := ["upstream-1:8001"; "upstream-2:8002"];
     client.DownstreamPort := 7000;
     client.Timeout := 30000;
     client.Encryption_Enabled := true;
     client.EncryptionKey := replicate 32 x2a |}.

(** The same client without encryption and with the largest chunk size an
    [int] holds. *)
Definition huge_chunks : client.ClientConfig :=
  {| client.ChunkSize := goint.max_int;
     client.UpstreamServers := ["upstream-1:8001"; "upstream-2:8002"];
     client.DownstreamPort := 7000;
     client.Timeout := 30000;
     client.Encryption_Enabled := false;
     client.EncryptionKey := replicate 32 x2a |}.

(** The chunk map after storing the chunks of [arrived], first to last. *)
Definition stored (arrived : list Chunk.t) : gmap Z Chunk.t :=
  foldl (λ m chunk, <[Chunk.SequenceNum chunk := chunk]> m) ∅ arrived.

(** The response [assembleResponse] offers for a complete session. *)
Definition assembled (body : bytes) : client.ProxyResponse :=
  {| client.StatusCode := 200; client.Headers := ∅; client.Body := body;
     client.Error := None |}.

(** The pending session [MakeRequest] registers for a request, here with
    the id ["5e55"]: no chunk yet, an empty channel. *)
Definition fresh_session : client.PendingSession :=
  {| client.SessionID := "5e55"; client.RequestURL := "http://echo.test/";
     client.Method := "POST"; client.StartTime := 0;
     client.ResponseChan := []; client.Chunks := ∅;
     client.TotalChunks := 0 |}.

(** A client waiting for the response to session ["5e55"]. *)
Definition waiting (cfg : client.ClientConfig) : client.ProxyClient :=
  {| client.config := cfg;
     client.pendingSessions := {[ "5e55" := 0%nat ]};
     client.heap := [fresh_session] |}.

(** A client that does not encrypt, with two upstreams and chunks of two
    bytes. *)
Definition plain_chunks : client.ClientConfig :=
  {| client.ChunkSize := 2;
     client.UpstreamServers := ["upstream-1:8001"; "upstream-2:8002"];
     client.DownstreamPort := 7000;
     client.Timeout := 30000;
     client.Encryption_Enabled := false;
     client.EncryptionKey := replicate 32 x2a |}.

(** Every pointer in the session map is allocated. *)
Definition central_wf (p : central.CentralProxy) : Prop :=
  ∀ sessionID l, central.sessions p !! sessionID = Some l →
    is_Some (central.heap p !! l).

(** Nodes to run the model on.  The sources copy one hard-coded 32-byte
    key into every node; any 32 bytes do here. *)
Definition example_key : bytes := replicate 32 x2a.

Definition encryption_on : common.EncryptionConfig :=
  {| common.Enabled := true; common.Algorithm := "aes-256-gcm";
     common.Mode := "body_only" |}.

Definition encryption_off : common.EncryptionConfig :=
  {| common.Enabled := false; common.Algorithm := "aes-256-gcm";
     common.Mode := "body_only" |}.

Definition example_upstream : upstream.UpstreamConfig :=
  {| upstream.ListenPort := 8001;
     upstream.CentralProxy := "central:8080";
     upstream.Obfuscation :=
       {| common.Type_ := "http"; common.Headers := {[ "Accept" := "text/html" ]};
          common.Padding := false; common.Jitter := 0 |};
     upstream.Encryption := encryption_on;
     upstream.EncryptionKey := example_key |}.

Definition example_central (encryption : common.EncryptionConfig)
    : central.CentralProxy :=
  {| central.config :=
       {| central.ListenPort := 8080;
          central.DownstreamServers := ["downstream-1:8443"; "downstream-2:8443"];
          central.ReassemblyTimeout := 60000;
          central.ProxyMode := "http";
          central.Encryption := encryption;
          central.EncryptionKey := example_key;
          central.ChunkSize := 2 |};
     central.sessions := ∅;
     central.heap := [] |}.

(** The only chunk of a one-byte body, as the encrypting client sends it. *)
Definition encrypted_chunk : Chunk.t :=
  client_chunk small_chunks (λ _, x07) (λ i, i) "5e55" "POST"
    "http://echo.test/" [x41] ∅ 0.

(** A request chunk numbered 2 of 1. *)
Definition stray_chunk : Chunk.t :=
  {| Chunk.SessionID := "5e55"; Chunk.SequenceNum := 2; Chunk.TotalChunks := 1;
     Chunk.Data := [x41]; Chunk.Timestamp := 0;
     Chunk.SourceClient := "client:7000"; Chunk.TargetURL := "http://echo.test/";
     Chunk.Method := "POST"; Chunk.Headers := ∅ |}.

(** A complete session whose headers came with relay credentials. *)
Definition credentialed_session : Session.t :=
  {| Session.SessionID := "5e55";
     Session.Chunks :=
       {[ 1 := {| Chunk.SessionID := "5e55"; Chunk.SequenceNum := 1;
                  Chunk.TotalChunks := 1; Chunk.Data := [x41];
                  Chunk.Timestamp := 0; Chunk.SourceClient := "client:7000";
                  Chunk.TargetURL := "http://echo.test/"; Chunk.Method := "POST";
                  Chunk.Headers := {[ "X-Node-ID" := "relay-1";
                                      "X-Auth-Token" := "5ec2e7";
                                      "Accept" := "text/html" ]} |} ]};
     Session.TotalChunks := 1;
     Session.ReceivedAt := 0;
     Session.TargetURL := "http://echo.test/";
     Session.Method := "POST";
     Session.Headers := {[ "X-Node-ID" := "relay-1";
                           "X-Auth-Token" := "5ec2e7";
                           "Accept" := "text/html" ]} |}.


(** The credentials of a request to [/proxy] are those stored for a node. *)
Definition authenticated `{!Net} (g : gateway.StarlinkGateway)
    (r : gateway.ProxyPost) : Prop :=
  gateway.NodeTokens (gateway.config g)
    !! gateway.Header_Get (gateway.proxy_header r) "X-Node-ID"
  = Some (gateway.Header_Get (gateway.proxy_header r) "X-Auth-Token").

(** A gateway that knows the relay [relay-1]; its token is minted from
    random bytes that are all [0xab]. *)
Definition example_gateway (mixing : bool) : gateway.StarlinkGateway :=
  {| gateway.config :=
       {| gateway.ListenPort := 9000;
          gateway.AuthenticatedNodes := ["relay-1"];
          gateway.TrafficMixing := mixing;
          gateway.SourceRotation := false;
          gateway.MACRandomization := false;
          gateway.TimingJitter := 0;
          gateway.HideGatewayIP := true;
          gateway.UseRelayNodes := true;
          gateway.NodeTokens := gateway.initial_tokens ["relay-1"] (λ _, xab) ∅ |};
     gateway.trafficBatch := [] |}.


(** A POST to [/register] with a body that decodes. *)
Definition register_post (reg : gateway.regReq) : gateway.RegisterPost :=
  {| gateway.register_method := MethodPost; gateway.register_json := Some reg |}.

(** Every token the gateway stores is minted by [generateToken]: the ones
    of [NewStarlinkGateway] and the ones of registrations. *)
Definition tokens_minted (tokens : gmap string string) : Prop :=
  ∀ node token, tokens !! node = Some token →
    String.length token = 64%nat ∧ hex.all_hex token = true.

(** The only chunk of a one-byte request. *)
Definition whole_request : Chunk.t :=
  {| Chunk.SessionID := "5e55"; Chunk.SequenceNum := 1; Chunk.TotalChunks := 1;
     Chunk.Data := [x41]; Chunk.Timestamp := 0;
     Chunk.SourceClient := "client:7000"; Chunk.TargetURL := "http://echo.test/";
     Chunk.Method := "POST"; Chunk.Headers := ∅ |}.







(** A relay with three next hops that rotates every second. *)
Definition example_relay : relay.RelayNode :=
  {| relay.config :=
       {| relay.ListenPort := 9100; relay.NodeID := "relay-1";
          relay.NextHops := ["relay-2:9100"; "relay-3:9100"; "relay-4:9100"];
          relay.PrevHops := []; relay.GatewayURL := ""; relay.AuthToken := "";
          relay.Secret := "secret"; relay.TrafficMixing := false;
          relay.RotationTime := 1 |};
     relay.currentHopIdx := 0;
     relay.trafficBuffer := [] |}.

(** What the listener and the goroutines it starts leave alone: a pending
    session none of the posts is for. *)
Definition untouched_by (sessionID : string) (r : ChunkPost) : Prop :=
  ∀ chunk, post_chunk r = Some chunk → Chunk.SessionID chunk ≠ sessionID.

Definition waits (c : client.ProxyClient) (sessionID : string) (l : nat)
    (s : client.PendingSession) : Prop :=
  client.pendingSessions c !! sessionID = Some l
  ∧ client.heap c !! l = Some s
  ∧ ∀ other, client.pendingSessions c !! other = Some l → other = sessionID.

(** The only chunk of a request to a target that answers with an empty
    body. *)
Definition request_to_empty : Chunk.t :=
  {| Chunk.SessionID := "5e55"; Chunk.SequenceNum := 1; Chunk.TotalChunks := 1;
     Chunk.Data := [x41]; Chunk.Timestamp := 0;
     Chunk.SourceClient := "client:7000"; Chunk.TargetURL := "http://empty.test/";
     Chunk.Method := "POST"; Chunk.Headers := ∅ |}.

(** The central proxy once that chunk has arrived. *)
Definition holding_request_to_empty : central.CentralProxy :=
  (central.handleChunk (example_central encryption_off) 0 (post request_to_empty)).1.1.

(** Every pointer in the client's session map is allocated. *)
Definition client_wf (c : client.ProxyClient) : Prop :=
  ∀ sessionID l, client.pendingSessions c !! sessionID = Some l →
    is_Some (client.heap c !! l).

(** ** More nodes to run the model on *)

(** A client with no request under way. *)
Definition idle (cfg : client.ClientConfig) : client.ProxyClient :=
  {| client.config := cfg; client.pendingSessions := ∅; client.heap := [] |}.


(** A client configured with a negative chunk size. *)
Definition negative_chunks : client.ClientConfig :=
  {| client.ChunkSize := -4;
     client.UpstreamServers := ["upstream-1:8001"; "upstream-2:8002"];
     client.DownstreamPort := 7000;
     client.Timeout := 30000;
     client.Encryption_Enabled := false;
     client.EncryptionKey := replicate 32 x2a |}.

(** None of the posts is for a session that is pending at the client. *)
Definition strangers (c : client.ProxyClient) (posts : list ChunkPost) : Prop :=
  ∀ r chunk, r ∈ posts → post_chunk r = Some chunk →
    client.pendingSessions c !! Chunk.SessionID chunk = None.

(** The payload of the chunk the central proxy builds in pass [i] from
    the fragment [plain]. *)
Definition central_sealed `{!AEAD} (cfg : central.CentralConfig) (rnd : nat → byte)
    (i : Z) (plain : bytes) : bytes :=
  if common.Enabled (central.Encryption cfg)
  then let nonce := rand_Read (λ k, rnd (Z.to_nat i * NonceSize + k)%nat) 0 NonceSize in
       nonce ++ Seal (central.EncryptionKey cfg) nonce plain
  else plain.

(** The chunk the central proxy builds in pass [i] for a response;
    [first] is chunk 1 of the request. *)
Definition central_chunk `{!AEAD} (cfg : central.CentralConfig) (rnd : nat → byte)
    (now : Z → Z) (session : Session.t) (first : Chunk.t) (response : bytes)
    (i : Z) : Chunk.t :=
  {| Chunk.SessionID := Session.SessionID session;
     Chunk.SequenceNum := i + 1;
     Chunk.TotalChunks := ceil_div (len response) (central.ChunkSize cfg);
     Chunk.Data := central_sealed cfg rnd i (fragment response (central.ChunkSize cfg) i);
     Chunk.Timestamp := now i;
     Chunk.SourceClient := Chunk.SourceClient first;
     Chunk.TargetURL := "";
     Chunk.Method := "";
     Chunk.Headers := ∅ |}.

(** A chunk of the central proxy carries [plain]: as it is when
    encryption is disabled, and otherwise encrypted under the proxy's key. *)
Definition central_carries `{!AEAD} (cfg : central.CentralConfig) (chunk : Chunk.t)
    (plain : bytes) : Prop :=
  if common.Enabled (central.Encryption cfg)
  then common.DecryptAES (Chunk.Data chunk) (central.EncryptionKey cfg) = Some plain
  else Chunk.Data chunk = plain.

(** The session the central proxy holds once [whole_request] has arrived. *)
Definition whole_session : Session.t :=
  Session.store
    {| Session.SessionID := "5e55"; Session.Chunks := ∅;
       Session.TotalChunks := 1; Session.ReceivedAt := 0;
       Session.TargetURL := "http://echo.test/";
       Session.Method := "POST"; Session.Headers := ∅ |}
    1 whole_request.

(** The same session for a target that cannot be reached. *)
Definition unreachable_session : Session.t :=
  {| Session.SessionID := "5e55";
     Session.Chunks := {[ 1 := whole_request ]};
     Session.TotalChunks := 1; Session.ReceivedAt := 0;
     Session.TargetURL := "http://unreachable.test/";
     Session.Method := "POST"; Session.Headers := ∅ |}.

(** A central proxy that holds [session] under its id. *)
Definition holding (encryption : common.EncryptionConfig) (session : Session.t)
    : central.CentralProxy :=
  central.set_sessions (example_central encryption)
    {[ Session.SessionID session := 0%nat ]} [session].


(** [http.NewRequest] accepts the method and URL of a queued request. *)
Definition creatable `{!Net} (t : gateway.TrafficRequest) : Prop :=
  NewRequest_ok (gateway.Method t) (gateway.TargetURL t) = true.

(** The gateway after [node] has registered with the random bytes [rnd]. *)
Definition registered (g : gateway.StarlinkGateway) (rnd : nat → byte)
    (node secret : string) : gateway.StarlinkGateway :=
  (gateway.handleNodeRegistration g rnd
     (register_post {| gateway.node_id := node; gateway.secret := secret |})).1.

(** The header names the relay and the gateway use have canonical forms
    that differ from one another, as those of net/http do. *)
Definition distinct_header_names `{!Net} : Prop :=
  NoDup (CanonicalMIMEHeaderKey
           <$> ["Content-Type"; "X-Request-ID"; "X-From-Node"; "X-Node-ID";
                "X-Auth-Token"]).

(** Where the relay sends what it forwards: the gateway URL as it is
    configured when there is one, and otherwise the [/relay] endpoint of the
    next hop under the cursor. *)
Definition forward_target (r : relay.RelayNode) (url : string) : Prop :=
  (relay.GatewayURL (relay.config r) ≠ EmptyString
   ∧ url = relay.GatewayURL (relay.config r))
  ∨ (relay.GatewayURL (relay.config r) = EmptyString
     ∧ ∃ hop, relay.nextHop r = Ret hop
              ∧ url = ("http://" +:+ hop +:+ "/relay")%string).

(** The request the relay builds for a request id and a body. *)
Definition forwarded_request `{!Net} (r : relay.RelayNode) (url requestID : string)
    (data : bytes) : Request :=
  {| req_method := MethodPost; req_url := url;
     req_header := relay.forward_headers r requestID; req_body := data |}.


(** The last relay before the gateway, with the token [token]. *)
Definition final_relay (mixing : bool) (token : string) : relay.RelayNode :=
  {| relay.config :=
       {| relay.ListenPort := 9100; relay.NodeID := "relay-1";
          relay.NextHops := []; relay.PrevHops := ["relay-0:9100"];
          relay.GatewayURL := "http://gateway:9000/proxy";
          relay.AuthToken := token; relay.Secret := "secret";
          relay.TrafficMixing := mixing; relay.RotationTime := 0 |};
     relay.currentHopIdx := 0;
     relay.trafficBuffer := [] |}.

(** A POST to [/relay] with a request id. *)
Definition relay_post (requestID : string) (data : bytes) : relay.RelayPost :=
  {| relay.relay_method := MethodPost; relay.relay_readable := true;
     relay.relay_header := {[ "X-Request-Id" := requestID;
                              "X-From-Node" := "relay-0" ]};
     relay.relay_body := data |}.





(** The payload the downstream server puts into the chunk it sends in
    pass [i], made of the payload [plain] it holds. *)
Definition downstream_sealed `{!AEAD} (cfg : downstream.DownstreamConfig)
    (rnd : nat → byte) (i : Z) (plain : bytes) : bytes :=
  if common.Enabled (downstream.Encryption cfg)
  then let nonce := rand_Read (λ k, rnd (Z.to_nat i * NonceSize + k)%nat) 0 NonceSize in
       nonce ++ Seal (downstream.EncryptionKey cfg) nonce plain
  else plain.

(** The chunk the downstream server sends in pass [i], made of the chunk
    it holds under sequence number [i]. *)
Definition downstream_chunk `{!AEAD} (cfg : downstream.DownstreamConfig)
    (rnd : nat → byte) (i : Z) (chunk : Chunk.t) : Chunk.t :=
  Chunk.set_Data
    (if bool_decide (common.Type_ (downstream.Obfuscation cfg) ≠ EmptyString)
     then Chunk.set_Headers chunk
            (common.ApplyObfuscation (Chunk.Headers chunk) (downstream.Obfuscation cfg))
     else chunk)
    (downstream_sealed cfg rnd i (Chunk.Data chunk)).

(** A chunk of the downstream server carries [plain]. *)
Definition downstream_carries `{!AEAD} (cfg : downstream.DownstreamConfig)
    (chunk : Chunk.t) (plain : bytes) : Prop :=
  if common.Enabled (downstream.Encryption cfg)
  then common.DecryptAES (Chunk.Data chunk) (downstream.EncryptionKey cfg) = Some plain
  else Chunk.Data chunk = plain.

(** What the downstream server holds for a session id once the chunks of
    [arrived] have come in. *)
Definition downstream_holds (d : downstream.DownstreamServer) (sessionID : string)
    (n : Z) (arrived : list Chunk.t) : Prop :=
  (arrived = [] ∧ downstream.sessions d !! sessionID = None)
  ∨ ∃ l s,
      downstream.sessions d !! sessionID = Some l
      ∧ downstream.heap d !! l = Some s
      ∧ Session.Chunks s = stored arrived
      ∧ Session.TotalChunks s = n
      ∧ Session.SessionID s = sessionID.

(** Every session of the downstream server holds at most [k] chunks and
    expects [n]. *)
Definition downstream_short (d : downstream.DownstreamServer) (k : nat) (n : Z) : Prop :=
  ∀ sessionID l session,
    downstream.sessions d !! sessionID = Some l →
    downstream.heap d !! l = Some session →
    (size (Session.Chunks session) ≤ k)%nat ∧ Session.TotalChunks session = n.

(** The chunks of [dispatched] that go to the downstream server
    [server]. *)
Definition sent_to (server : string) (dispatched : list (string * Chunk.t))
    : list Chunk.t :=
  (filter (λ sc, sc.1 = server) dispatched).*2.

(** A downstream server before any chunk. *)
Definition example_downstream (encryption : common.EncryptionConfig)
    : downstream.DownstreamServer :=
  {| downstream.config :=
       {| downstream.ListenPort := 8443;
          downstream.Obfuscation :=
            {| common.Type_ := "http";
               common.Headers := {[ "Server" := "nginx" ]};
               common.Padding := false; common.Jitter := 0 |};
          downstream.Encryption := encryption;
          downstream.EncryptionKey := example_key;
          downstream.ReassemblyTimeout := 60000 |};
     downstream.sessions := ∅;
     downstream.heap := [] |}.

(** A central proxy configuration with a single downstream server. *)
Definition one_downstream : central.CentralConfig :=
  {| central.ListenPort := 8080;
     central.DownstreamServers := ["downstream-1:8443"];
     central.ReassemblyTimeout := 60000;
     central.ProxyMode := "http";
     central.Encryption := encryption_off;
     central.EncryptionKey := example_key;
     central.ChunkSize := 2 |}.

(** * Facts *)

(** ** Machine integers *)

Lemma wrap_id z : goint.in_range z → goint.wrap z = z.
Proof.
  unfold goint.in_range, goint.wrap, goint.min_int, goint.max_int. intros H.
  rewrite Z.mod_small; lia.
Qed.

Lemma wrap_in_range z : goint.in_range (goint.wrap z).
Proof.
  unfold goint.in_range, goint.wrap, goint.min_int, goint.max_int.
  pose proof (Z.mod_pos_bound (z + 2 ^ 63) (2 ^ 64)). lia.
Qed.

(** Wrapping an intermediate result does not change the wrapped sum. *)
Lemma wrap_add_wrap a b : goint.wrap (goint.wrap a + b) = goint.wrap (a + b).
Proof.
  unfold goint.wrap.
  replace ((a + 2 ^ 63) `mod` 2 ^ 64 - 2 ^ 63 + b + 2 ^ 63)
    with ((a + 2 ^ 63) `mod` 2 ^ 64 + b) by lia.
  rewrite Zplus_mod_idemp_l. f_equal. f_equal. lia.
Qed.

Lemma add_exact a b : goint.in_range (a + b) → goint.add a b = a + b.
Proof. apply wrap_id. Qed.

Lemma mul_exact a b : goint.in_range (a * b) → goint.mul a b = a * b.
Proof. apply wrap_id. Qed.

(** [(a + b) - 1] is exact as soon as the final value fits, even when the
    sum in between does not. *)
Lemma sub_add_exact a b :
  goint.in_range (a + b - 1) → goint.sub (goint.add a b) 1 = a + b - 1.
Proof.
  intros H. unfold goint.sub, goint.add.
  replace (goint.wrap (a + b) - 1) with (goint.wrap (a + b) + -1) by lia.
  rewrite wrap_add_wrap. apply wrap_id.
  by replace (a + b + -1) with (a + b - 1) by lia.
Qed.

Lemma quo_exact a b :
  0 ≤ a ≤ goint.max_int → 0 < b → goint.quo a b = Ret (a `div` b).
Proof.
  intros Ha Hb. unfold goint.quo.
  destruct (Z.eqb_spec b 0) as [->|_]; [lia|].
  rewrite Z.quot_div_nonneg by lia. f_equal. apply wrap_id.
  pose proof (Z.div_pos a b). pose proof (Z.div_le_upper_bound a b a).
  unfold goint.in_range, goint.min_int, goint.max_int in *. nia.
Qed.

Lemma rem_exact a b :
  0 ≤ a ≤ goint.max_int → 0 < b → goint.rem a b = Ret (a `mod` b).
Proof.
  intros Ha Hb. unfold goint.rem.
  destruct (Z.eqb_spec b 0) as [->|_]; [lia|].
  rewrite Z.rem_mod_nonneg by lia. f_equal. apply wrap_id.
  pose proof (Z.mod_pos_bound a b Hb). pose proof (Z.mod_le a b).
  unfold goint.in_range, goint.min_int, goint.max_int in *. lia.
Qed.

Lemma ceil_div_spec a b : 0 < b → (a + b - 1) `div` b = ceil_div a b.
Proof.
  intros Hb. unfold ceil_div.
  pose proof (Z.div_mod (a + b - 1) b). pose proof (Z.mod_pos_bound (a + b - 1) b).
  pose proof (Z.div_mod (- a) b). pose proof (Z.mod_pos_bound (- a) b).
  nia.
Qed.

(** ** Loops *)

Lemma send_loop_all {E} (step : Z → exec (iteration E))
    (f : Z → string * Chunk.t) (i : Z) (n : nat) :
  (∀ k, i ≤ k < i + Z.of_nat n → step k = Ret (Continue (f k).1 (f k).2)) →
  send_loop step i n = (f <$> seqZ i (Z.of_nat n), Returned None).
Proof.
  revert i. induction n as [|n IH]; intros i Hstep; [done|].
  cbn [send_loop]. rewrite Hstep by lia.
  rewrite (IH (i + 1)) by (intros k Hk; apply Hstep; lia).
  rewrite (seqZ_cons i) by lia. cbn [fmap list_fmap].
  replace (Z.pred (Z.of_nat (S n))) with (Z.of_nat n) by lia.
  replace (Z.succ i) with (i + 1) by lia.
  by destruct (f i).
Qed.

(** ** The client's fragmentation *)

Lemma index_round_robin (servers : list string) (i : Z) :
  servers ≠ [] → 0 ≤ i →
  index servers (i `mod` len servers) = Ret (round_robin servers i).
Proof.
  intros Hne Hi.
  assert (0 < len servers) by (unfold len; destruct servers; [done|cbn; lia]).
  pose proof (Z.mod_pos_bound i (len servers) ltac:(done)) as Hb.
  unfold index, round_robin. rewrite bool_decide_true by lia.
  destruct (lookup_lt_is_Some_2 servers (Z.to_nat (i `mod` len servers))) as [u Hu].
  { unfold len in *. lia. }
  by rewrite Hu.
Qed.

Lemma len_pos {A} (l : list A) : l ≠ [] → 0 < len l.
Proof. unfold len. destruct l; [done|cbn; lia]. Qed.

Section fragment_step.
Context `{!AEAD}.
Variables (cfg : client.ClientConfig) (rnd : nat → byte) (now : Z → Z).
Variables (sessionID method url : string) (body : bytes).
Variables (headers : gmap string string) (totalChunks : Z) (clientAddr : string).

Let cs := client.ChunkSize cfg.

Hypothesis chunk_size_pos : 1 ≤ cs ≤ goint.max_int.
Hypothesis no_overflow : len body + cs - 1 ≤ goint.max_int.
Hypothesis has_upstream : client.UpstreamServers cfg ≠ [].

Lemma slice_fragment i :
  0 ≤ i → i * cs < Z.max 1 (len body) →
  slice body (goint.mul i cs)
    (if bool_decide (goint.add (goint.mul i cs) cs > len body)
     then len body else goint.add (goint.mul i cs) cs)
  = Ret (fragment body cs i).
Proof.
  intros Hi Hlt.
  assert (0 ≤ len body) by (unfold len; lia).
  assert (0 ≤ i * cs) by nia.
  assert (i * cs ≤ len body) by lia.
  unfold goint.max_int in *.
  rewrite mul_exact by (unfold goint.in_range, goint.min_int, goint.max_int; lia).
  rewrite add_exact by (unfold goint.in_range, goint.min_int, goint.max_int; lia).
  unfold slice, fragment, byte_range.
  replace ((i + 1) * cs) with (i * cs + cs) by lia.
  destruct (decide (i * cs + cs > len body)) as [Hgt|Hgt].
  - rewrite (bool_decide_true (i * cs + cs > len body)) by done.
    rewrite bool_decide_true by lia. f_equal.
    rewrite Z.min_r by lia. f_equal. lia.
  - rewrite (bool_decide_false (i * cs + cs > len body)) by done.
    rewrite bool_decide_true by lia. f_equal.
    rewrite Z.min_l by lia. f_equal. lia.
Qed.

Lemma fragment_step_eq i :
  0 ≤ i → i * cs < Z.max 1 (len body) →
  client.fragment_step cfg rnd now sessionID method url body headers
    totalChunks clientAddr i
  = match payload_of cfg rnd i (fragment body cs i) with
    | None => Ret (Return client.encryption_failed)
    | Some data =>
        Ret (Continue (round_robin (client.UpstreamServers cfg) i)
               {| Chunk.SessionID := sessionID;
                  Chunk.SequenceNum := i + 1;
                  Chunk.TotalChunks := totalChunks;
                  Chunk.Data := data;
                  Chunk.Timestamp := now i;
                  Chunk.SourceClient := clientAddr;
                  Chunk.TargetURL := url;
                  Chunk.Method := method;
                  Chunk.Headers := headers |})
    end.
Proof.
  intros Hi Hlt.
  assert (0 ≤ len body) by (unfold len; lia).
  unfold client.fragment_step. fold cs.
  rewrite slice_fragment by done. cbn [exec_bind].
  unfold payload_of.
  destruct (if client.Encryption_Enabled cfg then _ else _) as [data|]; [|done].
  assert (0 ≤ i * cs) by nia.
  rewrite rem_exact; [|unfold goint.max_int in *; nia|by apply len_pos].
  cbn [exec_bind]. rewrite index_round_robin by done.
  cbn [exec_bind]. do 2 f_equal.
  rewrite add_exact; [done|].
  unfold goint.in_range, goint.min_int, goint.max_int in *. nia.
Qed.

End fragment_step.

Lemma chunk_count_bounds size chunk_size :
  0 ≤ size → 1 ≤ chunk_size →
  let n := chunk_count size chunk_size in
  1 ≤ n ∧ (n - 1) * chunk_size < Z.max 1 size ∧ size ≤ n * chunk_size.
Proof.
  intros Hs Hc. unfold chunk_count. rewrite <- ceil_div_spec by lia.
  pose proof (Z.div_mod (size + chunk_size - 1) chunk_size ltac:(lia)).
  pose proof (Z.mod_pos_bound (size + chunk_size - 1) chunk_size ltac:(lia)).
  cbn zeta. nia.
Qed.

Lemma fragmentAndSend_spec `{!AEAD} (cfg : client.ClientConfig)
    (rnd : nat → byte) (now : Z → Z) (sessionID method url : string)
    (body : bytes) (headers : gmap string string) :
  1 ≤ client.ChunkSize cfg ≤ goint.max_int →
  len body + client.ChunkSize cfg - 1 ≤ goint.max_int →
  client.UpstreamServers cfg ≠ [] →
  (client.Encryption_Enabled cfg = true →
   aes_key_ok (client.EncryptionKey cfg) = true) →
  client.fragmentAndSend cfg rnd now sessionID method url body headers
  = ((λ i, (round_robin (client.UpstreamServers cfg) i,
            client_chunk cfg rnd now sessionID method url body headers i))
       <$> seqZ 0 (chunk_count (len body) (client.ChunkSize cfg)),
     Returned None).
Proof.
  intros Hcs Hov Hup Hkey.
  assert (0 ≤ len body) by (unfold len; lia).
  destruct (chunk_count_bounds (len body) (client.ChunkSize cfg)) as (Hn1 & Hn2 & Hn3);
    [done|lia|].
  unfold client.fragmentAndSend.
  rewrite sub_add_exact
    by (unfold goint.in_range, goint.min_int, goint.max_int in *; lia).
  rewrite quo_exact by lia.
  rewrite ceil_div_spec by lia.
  set (n := chunk_count (len body) (client.ChunkSize cfg)) in *.
  assert ((if ceil_div (len body) (client.ChunkSize cfg) =? 0 then 1
           else ceil_div (len body) (client.ChunkSize cfg)) = n) as ->.
  { assert (0 ≤ ceil_div (len body) (client.ChunkSize cfg)).
    { rewrite <- ceil_div_spec by lia. apply Z.div_pos; lia. }
    subst n. unfold chunk_count in *.
    destruct (Z.eqb_spec (ceil_div (len body) (client.ChunkSize cfg)) 0); lia. }
  replace (seqZ 0 n) with (seqZ 0 (Z.of_nat (Z.to_nat n)))
    by (by rewrite Z2Nat.id by lia).
  apply send_loop_all. intros k Hk. cbn [fst snd].
  rewrite fragment_step_eq by (done || nia).
  unfold payload_of, client_chunk, sealed, common.EncryptAES.
  destruct (client.Encryption_Enabled cfg); [rewrite Hkey by done|]; done.
Qed.

Lemma rand_Read_length rnd off n : length (rand_Read rnd off n) = n.
Proof. unfold rand_Read. by rewrite length_map, length_seq. Qed.

Lemma DecryptAES_EncryptAES `{!AEAD} rnd plain key :
  aes_key_ok key = true →
  ∃ c, common.EncryptAES rnd plain key = Some c ∧ common.DecryptAES c key = Some plain.
Proof.
  intros Hkey. unfold common.EncryptAES, common.DecryptAES. rewrite Hkey.
  eexists; split; [done|].
  pose proof (rand_Read_length rnd 0 NonceSize) as Hlen.
  rewrite bool_decide_false by (rewrite length_app; lia).
  rewrite take_app_length' by done. rewrite drop_app_length' by done.
  by apply Open_Seal.
Qed.

Lemma carries_sealed `{!AEAD} cfg rnd now sessionID method url body headers i :
  (client.Encryption_Enabled cfg = true →
   aes_key_ok (client.EncryptionKey cfg) = true) →
  carries cfg (client_chunk cfg rnd now sessionID method url body headers i)
    (fragment body (client.ChunkSize cfg) i).
Proof.
  intros Hkey. unfold carries, client_chunk, sealed. cbn.
  destruct (client.Encryption_Enabled cfg); [|done].
  destruct (DecryptAES_EncryptAES (λ k, rnd (Z.to_nat i * NonceSize + k)%nat)
              (fragment body (client.ChunkSize cfg) i) (client.EncryptionKey cfg))
    as (c & Henc & Hdec); [by apply Hkey|].
  unfold common.EncryptAES in Henc. rewrite Hkey in Henc by done.
  by injection Henc as <-.
Qed.

Lemma byte_range_length (b : bytes) lo hi :
  (lo ≤ hi ≤ length b)%nat → length (byte_range b lo hi) = (hi - lo)%nat.
Proof. intros H. unfold byte_range. rewrite length_take, length_drop. lia. Qed.

(** C2, as amended: for every body and every chunk size from 1 on such
    that [|body| + chunk_size - 1] fits Go's [int], a client with an
    upstream (and a usable key when it encrypts) hands [sendChunk] exactly
    [max 1 (ceil (|body| / chunk_size))] chunks and returns no error; the
    i-th chunk (1-indexed) has sequence number i and carries exactly the
    bytes [(i-1)*chunk_size, min (i*chunk_size, |body|)); a body of
    [k*chunk_size] bytes gives k chunks, the last one full, one of
    [k*chunk_size + 1] bytes gives k+1 chunks, the last of one byte, and an
    empty body gives one chunk that carries no byte. *)
Theorem client_fragmentation `{!AEAD} (cfg : client.ClientConfig)
    (rnd : nat → byte) (now : Z → Z) (sessionID method url : string)
    (body : bytes) (headers : gmap string string) :
  1 ≤ client.ChunkSize cfg ≤ goint.max_int →
  len body + client.ChunkSize cfg - 1 ≤ goint.max_int →
  client.UpstreamServers cfg ≠ [] →
  (client.Encryption_Enabled cfg = true →
   aes_key_ok (client.EncryptionKey cfg) = true) →
  ∃ sent,
    client.fragmentAndSend cfg rnd now sessionID method url body headers
    = (sent, Returned None)
    ∧ len sent = Z.max 1 (ceil_div (len body) (client.ChunkSize cfg))
    ∧ (∀ i, 1 ≤ i ≤ len sent →
         ∃ upstream chunk,
           sent !! Z.to_nat (i - 1) = Some (upstream, chunk)
           ∧ Chunk.SequenceNum chunk = i
           ∧ Chunk.TotalChunks chunk = len sent
           ∧ carries cfg chunk
               (byte_range body (Z.to_nat ((i - 1) * client.ChunkSize cfg))
                  (Z.to_nat (Z.min (i * client.ChunkSize cfg) (len body)))))
    ∧ (∀ k, 1 ≤ k → len body = k * client.ChunkSize cfg →
         len sent = k
         ∧ len (byte_range body (Z.to_nat ((k - 1) * client.ChunkSize cfg))
                  (Z.to_nat (Z.min (k * client.ChunkSize cfg) (len body))))
           = client.ChunkSize cfg)
    ∧ (∀ k, 0 ≤ k → len body = k * client.ChunkSize cfg + 1 →
         len sent = k + 1
         ∧ len (byte_range body (Z.to_nat (k * client.ChunkSize cfg))
                  (Z.to_nat (Z.min ((k + 1) * client.ChunkSize cfg) (len body))))
           = 1)
    ∧ (body = [] →
         ∃ upstream chunk, sent = [(upstream, chunk)] ∧ carries cfg chunk []).
Proof.
  intros Hcs Hov Hup Hkey.
  assert (0 ≤ len body) as Hlen by (unfold len; lia).
  destruct (chunk_count_bounds (len body) (client.ChunkSize cfg))
    as (Hn1 & Hn2 & Hn3); [done|lia|].
  fold (chunk_count (len body) (client.ChunkSize cfg)).
  set (cs := client.ChunkSize cfg) in *.
  set (n := chunk_count (len body) cs) in *.
  exists ((λ i, (round_robin (client.UpstreamServers cfg) i,
                 client_chunk cfg rnd now sessionID method url body headers i))
            <$> seqZ 0 n).
  split; [by apply fragmentAndSend_spec|].
  assert (len ((λ i, (round_robin (client.UpstreamServers cfg) i,
                      client_chunk cfg rnd now sessionID method url body headers i))
               <$> seqZ 0 n) = n) as Hsent.
  { unfold len at 1. rewrite length_fmap, length_seqZ. lia. }
  rewrite Hsent.
  split; [done|]. split; [|split; [|split]].
  - intros i Hi. do 2 eexists. split; [|split; [|split]].
    + rewrite list_lookup_fmap, lookup_seqZ_lt by lia. cbn. reflexivity.
    + cbn. lia.
    + done.
    + replace (0 + Z.of_nat (Z.to_nat (i - 1))) with (i - 1) by lia.
      pose proof (carries_sealed cfg rnd now sessionID method url body headers
                    (i - 1) Hkey) as Hc.
      unfold fragment in Hc. fold cs in Hc.
      by replace (i - 1 + 1) with i in Hc by lia.
  - intros k Hk Hbody. assert (n = k) as -> by nia. split; [done|].
    unfold len at 1. rewrite byte_range_length; unfold len in *; nia.
  - intros k Hk Hbody. assert (n = k + 1) as -> by nia. split; [done|].
    unfold len at 1. rewrite byte_range_length; unfold len in *; nia.
  - intros ->. change (len (@nil byte)) with 0 in *.
    assert (n = 1) as -> by nia.
    do 2 eexists. split; [reflexivity|].
    pose proof (carries_sealed cfg rnd now sessionID method url [] headers 0 Hkey)
      as Hc.
    unfold fragment, byte_range in Hc. by rewrite drop_nil, take_nil in Hc.
Qed.

Lemma client_fragmentation_witness :
  ∃ sent,
    client.fragmentAndSend small_chunks (λ _, x07) (λ i, i) "5e55"
      "POST" "http://echo.test/" [x01; x02; x03; x04; x05] ∅
    = (sent, Returned None)
    ∧ len sent = 3.
Proof.
  destruct (client_fragmentation small_chunks (λ _, x07) (λ i, i) "5e55"
              "POST" "http://echo.test/" [x01; x02; x03; x04; x05] ∅)
    as (sent & Hrun & Hlen & _).
  - vm_compute. split; discriminate.
  - vm_compute. discriminate.
  - discriminate.
  - reflexivity.
  - exists sent. split; [exact Hrun|]. rewrite Hlen. reflexivity.
Defined.

(** C2 fails as stated: with [chunk_size = 2^63 - 1] and a body of two
    bytes, [len(body) + chunk_size - 1] wraps around to [-2^63], the
    quotient is [-1], the loop does not run, and no chunk is sent, where the
    claim counts [max 1 (ceil (2 / chunk_size)) = 1] chunk. *)
Lemma client_fragmentation_overflow :
  client.fragmentAndSend huge_chunks (λ _, x07) (λ i, i) "5e55"
    "POST" "http://echo.test/" [x01; x02] ∅
  = ([], Returned None)
  ∧ Z.max 1 (ceil_div (len [x01; x02]) (client.ChunkSize huge_chunks)) = 1.
Proof. split; vm_compute; reflexivity. Qed.

(** ** The client's reassembly *)

Lemma stored_snoc arrived chunk :
  stored (arrived ++ [chunk])
  = <[Chunk.SequenceNum chunk := chunk]> (stored arrived).
Proof. unfold stored. by rewrite foldl_snoc. Qed.

Lemma stored_lookup_None arrived seq :
  seq ∉ Chunk.SequenceNum <$> arrived → stored arrived !! seq = None.
Proof.
  induction arrived as [|chunk arrived IH] using rev_ind; [done|].
  rewrite fmap_app, not_elem_of_app, stored_snoc. cbn. intros [Hin Hne].
  rewrite lookup_insert_ne by set_solver. by apply IH.
Qed.

Lemma stored_lookup arrived chunk :
  NoDup (Chunk.SequenceNum <$> arrived) → chunk ∈ arrived →
  stored arrived !! Chunk.SequenceNum chunk = Some chunk.
Proof.
  induction arrived as [|last arrived IH] using rev_ind; [by intros _ ?%elem_of_nil|].
  rewrite fmap_app, NoDup_app, stored_snoc, elem_of_app. cbn.
  intros (Hnd & Hfresh & _) [Hin| ->%list_elem_of_singleton].
  - rewrite lookup_insert_ne; [by apply IH|].
    intros Heq. apply (Hfresh (Chunk.SequenceNum chunk)).
    + by apply list_elem_of_fmap_2.
    + rewrite Heq. set_solver.
  - by rewrite lookup_insert_eq.
Qed.

Lemma stored_size arrived :
  NoDup (Chunk.SequenceNum <$> arrived) → size (stored arrived) = length arrived.
Proof.
  induction arrived as [|last arrived IH] using rev_ind; [done|].
  rewrite fmap_app, NoDup_app, stored_snoc, length_app. cbn.
  intros (Hnd & Hfresh & _).
  rewrite map_size_insert_None, IH; [lia|done|].
  apply stored_lookup_None. intros Hin.
  apply (Hfresh _ Hin), list_elem_of_singleton. done.
Qed.

Lemma reassemble_all (chunks : gmap Z Chunk.t) (f : Z → Chunk.t) i n acc :
  (∀ j, i ≤ j < i + Z.of_nat n → chunks !! j = Some (f j)) →
  reassemble chunks i n acc
  = inr (acc ++ mjoin ((λ j, Chunk.Data (f j)) <$> seqZ i (Z.of_nat n))).
Proof.
  revert i acc. induction n as [|n IH]; intros i acc Hall.
  - cbn. by rewrite app_nil_r.
  - cbn [reassemble]. rewrite Hall by lia.
    rewrite (IH (i + 1)) by (intros j Hj; apply Hall; lia).
    rewrite (seqZ_cons i) by lia. cbn.
    replace (Z.pred (Z.of_nat (S n))) with (Z.of_nat n) by lia.
    replace (Z.succ i) with (i + 1) by lia.
    by rewrite <- app_assoc.
Qed.

Lemma reassemble_missing (chunks : gmap Z Chunk.t) i n acc j :
  i ≤ j < i + Z.of_nat n → chunks !! j = None →
  ∃ k, i ≤ k ≤ j ∧ reassemble chunks i n acc = inl k.
Proof.
  revert i acc. induction n as [|n IH]; intros i acc Hj Hnone; [lia|].
  cbn [reassemble]. destruct (chunks !! i) as [chunk|] eqn:Hi.
  - assert (i ≠ j) by congruence.
    destruct (IH (i + 1) (acc ++ Chunk.Data chunk)) as (k & Hk & ->); [lia|done|].
    exists k. split; [lia|done].
  - exists i. split; [lia|done].
Qed.

(** The fragments of a body, in order, make up the body. *)
Lemma fragments_take (body : bytes) (cs : Z) (k : nat) :
  1 ≤ cs →
  mjoin (fragment body cs <$> seqZ 0 (Z.of_nat k)) = take (k * Z.to_nat cs) body.
Proof.
  intros Hcs. induction k as [|k IH]; [done|].
  replace (Z.of_nat (S k)) with (Z.of_nat k + 1) by lia.
  rewrite seqZ_app, fmap_app, join_app, IH by lia.
  assert (seqZ (0 + Z.of_nat k) 1 = [Z.of_nat k]) as ->.
  { rewrite seqZ_cons by lia. by rewrite Z.add_0_l. }
  change (mjoin (fragment body cs <$> [Z.of_nat k]))
    with (fragment body cs (Z.of_nat k) ++ []).
  rewrite app_nil_r. unfold fragment, byte_range.
  replace (Z.to_nat (Z.of_nat k * cs)) with (k * Z.to_nat cs)%nat by nia.
  replace (S k * Z.to_nat cs)%nat with (k * Z.to_nat cs + Z.to_nat cs)%nat by lia.
  rewrite <- take_take_drop. f_equal.
  destruct (decide ((Z.of_nat k + 1) * cs ≤ len body)) as [Hle|Hgt].
  - rewrite Z.min_l by done. f_equal. nia.
  - rewrite Z.min_r by lia. unfold len in *. rewrite Nat2Z.id.
    rewrite !take_ge; [done|rewrite length_drop; nia|rewrite length_drop; lia].
Qed.

Lemma fragments_join (body : bytes) (cs n : Z) :
  1 ≤ cs → 0 ≤ n → len body ≤ n * cs →
  mjoin (fragment body cs <$> seqZ 0 n) = body.
Proof.
  intros Hcs Hn Hlen. rewrite <- (Z2Nat.id n) by done.
  rewrite fragments_take by done. apply take_ge. unfold len in *. nia.
Qed.

Section roundtrip.
Context `{!AEAD}.
Variables (cfg : client.ClientConfig) (rnd : nat → byte) (now : Z → Z).
Variables (sessionID method url : string) (body : bytes).
Variables (headers : gmap string string).

Let n := chunk_count (len body) (client.ChunkSize cfg).
Let chunk_at := client_chunk cfg rnd now sessionID method url body headers.
Let chunks := chunk_at <$> seqZ 0 n.

Hypothesis chunk_size_pos : 1 ≤ client.ChunkSize cfg.
Hypothesis plain : client.Encryption_Enabled cfg = false.

Lemma chunks_seq : Chunk.SequenceNum <$> chunks = Z.add 1 <$> seqZ 0 n.
Proof.
  unfold chunks. rewrite <- list_fmap_compose. apply list_fmap_ext.
  intros _ i _. cbn. lia.
Qed.

Lemma chunks_NoDup : NoDup (Chunk.SequenceNum <$> chunks).
Proof. rewrite chunks_seq, fmap_add_seqZ. apply NoDup_seqZ. Qed.

Lemma chunks_elem chunk :
  chunk ∈ chunks →
  Chunk.SessionID chunk = sessionID ∧ Chunk.TotalChunks chunk = n.
Proof. unfold chunks. intros (i & -> & _)%list_elem_of_fmap. done. Qed.

Lemma chunks_length : length chunks = Z.to_nat n.
Proof. unfold chunks. by rewrite length_fmap, length_seqZ. Qed.

Lemma n_pos : 1 ≤ n.
Proof. unfold n, chunk_count. lia. Qed.

(** Once every chunk is stored, whatever the order of arrival, the
    reassembly loop returns the body. *)
Lemma reassemble_arrived (arrived : list Chunk.t) :
  arrived ≡ₚ chunks →
  reassemble (stored arrived) 1 (Z.to_nat n) [] = inr body.
Proof.
  intros Hperm. pose proof n_pos.
  rewrite (reassemble_all _ (λ j, chunk_at (j - 1))).
  - cbn [app]. f_equal. rewrite Z2Nat.id by lia.
    rewrite <- (fmap_add_seqZ 1 0), <- list_fmap_compose.
    rewrite <- (fragments_join body (client.ChunkSize cfg) n); [| |lia|].
    + f_equal. apply list_fmap_ext. intros _ i _. cbn. unfold sealed.
      rewrite plain. f_equal. lia.
    + done.
    + assert (0 ≤ len body) by (unfold len; lia).
      by destruct (chunk_count_bounds (len body) (client.ChunkSize cfg)) as (_ & _ & ?).
  - intros j Hj.
    assert (chunk_at (j - 1) ∈ arrived) as Hin.
    { rewrite Hperm. unfold chunks. apply list_elem_of_fmap_2, elem_of_seqZ. lia. }
    pose proof (stored_lookup arrived (chunk_at (j - 1))) as Hl.
    replace (Chunk.SequenceNum (chunk_at (j - 1))) with j in Hl by (cbn; lia).
    apply Hl; [|done]. rewrite Hperm. apply chunks_NoDup.
Qed.

(** The listener, given the chunks still to come in any order, ends with
    the assembled body in the channel of the session. *)
Lemma serve_arrivals (l : nat) (rest arrived : list Chunk.t)
    (c : client.ProxyClient) (s : client.PendingSession) :
  rest ≠ [] →
  arrived ++ rest ≡ₚ chunks →
  client.config c = cfg →
  client.pendingSessions c !! sessionID = Some l →
  client.heap c !! l = Some s →
  client.Chunks s = stored arrived →
  client.ResponseChan s = [] →
  ∃ s',
    client.heap (client.serve c (post <$> rest)) !! l = Some s'
    ∧ client.ResponseChan s' = [assembled body]
    ∧ client.config (client.serve c (post <$> rest)) = cfg.
Proof.
  revert arrived c s.
  induction rest as [|chunk rest IH]; intros arrived c s Hne Hperm Hcfg Hsid Hl Hch Hchan;
    [done|].
  assert (chunk ∈ chunks) as Hin by (rewrite <- Hperm; set_solver).
  destruct (chunks_elem chunk Hin) as [Hid Htotal].
  assert ((arrived ++ [chunk]) ++ rest ≡ₚ chunks) as Hperm'
    by (by rewrite <- app_assoc).
  assert (NoDup (Chunk.SequenceNum <$> arrived ++ [chunk])) as Hnd.
  { pose proof chunks_NoDup as Hc. rewrite <- Hperm', fmap_app in Hc.
    by apply NoDup_app in Hc as (? & _). }
  assert (length (arrived ++ [chunk]) + length rest = Z.to_nat n)%nat as Hlen.
  { rewrite <- chunks_length, <- Hperm'. by rewrite !length_app. }
  pose proof (lookup_lt_Some _ _ _ Hl) as Hlt.
  cbn [fmap list_fmap client.serve].
  unfold client.handleResponseChunk. cbn [post post_method post_readable post_chunk].
  rewrite Hcfg, plain.
  rewrite bool_decide_true by done. cbn [negb].
  replace (Chunk.set_Data chunk (Chunk.Data chunk)) with chunk by (by destruct chunk).
  rewrite Hid, Hsid, Hl.
  set (s1 := client.add_chunk s chunk).
  assert (client.Chunks s1 = stored (arrived ++ [chunk])) as Hch1
    by (subst s1; cbn; by rewrite stored_snoc, Hch).
  assert (client.TotalChunks s1 = n) as Htot1 by done.
  rewrite Hch1, Htot1, stored_size by done.
  set (c1 := client.set_sessions c (client.pendingSessions c) (<[l:=s1]> (client.heap c))).
  assert (client.heap c1 !! l = Some s1) as Hl1
    by (subst c1; cbn; by rewrite list_lookup_insert_eq).
  destruct rest as [|next rest].
  - change (length (@nil Chunk.t)) with 0%nat in Hlen.
    rewrite bool_decide_true by (pose proof n_pos; lia).
    cbn [fmap list_fmap client.serve]. rewrite app_nil_r in Hperm'.
    unfold client.assembleResponse. rewrite Hl1, Hch1, Htot1.
    rewrite reassemble_arrived by done.
    replace (client.ResponseChan s1) with (@nil client.ProxyResponse) by done.
    cbn. rewrite list_lookup_insert_eq by (by rewrite length_insert).
    eexists. split; [done|]. split; [done|]. done.
  - change (length (next :: rest)) with (S (length rest)) in Hlen.
    rewrite bool_decide_false by (pose proof n_pos; lia).
    apply (IH (arrived ++ [chunk]) c1 s1); done.
Qed.

End roundtrip.

(** C3, as amended: for every body and every chunk size from 1 on such
    that [|body| + chunk_size - 1] fits Go's [int], with encryption disabled,
    the chunks [fragmentAndSend] produces, delivered to the client's listener
    in any order, are reassembled in ascending sequence order into exactly
    the original body, which the waiting caller receives without error. *)
Theorem fragment_reassemble_roundtrip `{!AEAD} (c : client.ProxyClient)
    (rnd : nat → byte) (now : Z → Z) (sessionID method url : string)
    (body : bytes) (headers : gmap string string) (l : nat)
    (s : client.PendingSession) (arrivals : list Chunk.t) :
  1 ≤ client.ChunkSize (client.config c) ≤ goint.max_int →
  len body + client.ChunkSize (client.config c) - 1 ≤ goint.max_int →
  client.UpstreamServers (client.config c) ≠ [] →
  client.Encryption_Enabled (client.config c) = false →
  client.pendingSessions c !! sessionID = Some l →
  client.heap c !! l = Some s →
  client.Chunks s = ∅ →
  client.ResponseChan s = [] →
  arrivals ≡ₚ (client.fragmentAndSend (client.config c) rnd now sessionID
                 method url body headers).1.*2 →
  ∃ s',
    client.heap (client.serve c (post <$> arrivals)) !! l = Some s'
    ∧ client.ResponseChan s' = [assembled body]
    ∧ (client.MakeRequest_wait (client.serve c (post <$> arrivals)) sessionID l).1.2
      = Some (assembled body)
    ∧ (client.MakeRequest_wait (client.serve c (post <$> arrivals)) sessionID l).2
      = None.
Proof.
  intros Hcs Hov Hup Hplain Hsid Hl Hchunks Hchan Hperm.
  rewrite fragmentAndSend_spec in Hperm by (done || by rewrite Hplain).
  cbn [fst] in Hperm. rewrite <- list_fmap_compose in Hperm.
  assert (arrivals ≠ []) as Hne.
  { intros ->. apply Permutation_nil_l in Hperm.
    apply (f_equal length) in Hperm. rewrite length_fmap, length_seqZ in Hperm.
    unfold chunk_count in Hperm. cbn in Hperm. lia. }
  destruct (serve_arrivals (client.config c) rnd now sessionID method url body
              headers ltac:(lia) Hplain l arrivals [] c s) as (s' & Hl' & Hchan' & _);
    try done.
  exists s'. split; [done|]. split; [done|].
  unfold client.MakeRequest_wait. rewrite Hl', Hchan'. done.
Qed.

Lemma fragment_reassemble_roundtrip_witness :
  (client.MakeRequest_wait
     (client.serve (waiting plain_chunks)
        (post <$> reverse (client.fragmentAndSend plain_chunks (λ _, x07) (λ i, i)
                             "5e55" "POST" "http://echo.test/"
                             [x01; x02; x03; x04; x05] ∅).1.*2))
     "5e55" 0).1.2
  = Some (assembled [x01; x02; x03; x04; x05]).
Proof.
  destruct (fragment_reassemble_roundtrip (waiting plain_chunks) (λ _, x07)
              (λ i, i) "5e55" "POST" "http://echo.test/"
              [x01; x02; x03; x04; x05] ∅ 0 fresh_session
              (reverse (client.fragmentAndSend plain_chunks (λ _, x07) (λ i, i)
                          "5e55" "POST" "http://echo.test/"
                          [x01; x02; x03; x04; x05] ∅).1.*2))
    as (s' & _ & _ & Hwait & _).
  - vm_compute. split; discriminate.
  - vm_compute. discriminate.
  - discriminate.
  - reflexivity.
  - reflexivity.
  - reflexivity.
  - reflexivity.
  - reflexivity.
  - apply reverse_Permutation.
  - exact Hwait.
Defined.

(** C3 fails as stated: with [chunk_size = 2^63 - 1] and a body of two
    bytes the chunk count overflows, no chunk is produced, the payloads
    concatenate to nothing, and the caller times out. *)
Lemma fragment_reassemble_overflow :
  mjoin (Chunk.Data <$> (client.fragmentAndSend huge_chunks (λ _, x07) (λ i, i)
                           "5e55" "POST" "http://echo.test/" [x01; x02] ∅).1.*2)
  = []
  ∧ client.MakeRequest_wait
      (client.serve (waiting huge_chunks)
         (post <$> (client.fragmentAndSend huge_chunks (λ _, x07) (λ i, i)
                      "5e55" "POST" "http://echo.test/" [x01; x02] ∅).1.*2))
      "5e55" 0
    = (client.set_sessions (waiting huge_chunks) ∅ (client.heap (waiting huge_chunks)),
       None, Some (client.request_timeout 30000)).
Proof. split; vm_compute; reflexivity. Qed.

(** ** The central proxy's reassembly *)

(** What [handleChunk] does with a well-formed POST whose payload passes
    the decryption step: the chunk, with the payload [data], is stored in the
    session of its id, which is created when it does not exist. *)
Lemma central_handleChunk_stores `{!AEAD} (p : central.CentralProxy) (now : Z)
    (chunk : Chunk.t) (data : bytes) :
  central_wf p →
  (if common.Enabled (central.Encryption (central.config p))
   then common.DecryptAES (Chunk.Data chunk) (central.EncryptionKey (central.config p))
   else Some (Chunk.Data chunk)) = Some data →
  ∃ p' l session,
    (central.handleChunk p now (post chunk)).1.1 = p'
    ∧ (central.handleChunk p now (post chunk)).1.2
      = {| status := StatusOK; payload := Text "Chunk received" |}
    ∧ central.sessions p' !! Chunk.SessionID chunk = Some l
    ∧ central.heap p' !! l = Some session
    ∧ Session.Chunks session !! Chunk.SequenceNum chunk
      = Some (Chunk.set_Data chunk data)
    ∧ central_wf p'.
Proof.
  intros Hwf Hdec. unfold central.handleChunk.
  cbn [post post_method post_readable post_chunk].
  rewrite bool_decide_true by done. cbn [negb]. rewrite Hdec.
  change (Chunk.SessionID (Chunk.set_Data chunk data)) with (Chunk.SessionID chunk).
  unfold central.insert_chunk, central.set_sessions.
  destruct (central.sessions p !! Chunk.SessionID chunk) as [l|] eqn:Hsid.
  - destruct (Hwf _ _ Hsid) as [session Hl]. rewrite Hl.
    pose proof (lookup_lt_Some _ _ _ Hl) as Hlt.
    eexists _, l,
      (Session.store session (Chunk.SequenceNum chunk) (Chunk.set_Data chunk data)).
    cbn. split_and!; try done.
    + cbn. by rewrite list_lookup_insert_eq.
    + cbn. by rewrite lookup_insert_eq.
    + intros sid' l' Hsid'. cbn in *.
      destruct (Hwf _ _ Hsid') as [s' Hs'].
      apply lookup_lt_is_Some. rewrite length_insert.
      by eapply lookup_lt_Some.
  - eexists _, (length (central.heap p)),
      (Session.store _ (Chunk.SequenceNum chunk) (Chunk.set_Data chunk data)).
    cbn. split_and!; try done.
    + cbn. by rewrite lookup_insert_eq.
    + cbn. rewrite list_lookup_insert_eq by (rewrite length_app; cbn; lia). done.
    + cbn. by rewrite lookup_insert_eq.
    + intros sid' l' Hsid'. cbn in *.
      apply lookup_lt_is_Some. rewrite length_insert, length_app. cbn.
      destruct (decide (Chunk.SessionID chunk = sid')) as [<-|Hne].
      * rewrite lookup_insert_eq in Hsid'. injection Hsid' as <-. lia.
      * rewrite lookup_insert_ne in Hsid' by done.
        destruct (Hwf _ _ Hsid') as [s' Hs'].
        apply lookup_lt_Some in Hs'. lia.
Qed.

(** ** Encryption along the request path *)

Lemma EncryptAES_longer `{!AEAD} rnd plain key c :
  common.EncryptAES rnd plain key = Some c → c ≠ plain.
Proof.
  unfold common.EncryptAES. destruct (aes_key_ok key) eqn:Hkey; [|done].
  intros [= <-] Heq. apply (f_equal length) in Heq.
  rewrite length_app, Seal_length in Heq by (done || apply rand_Read_length).
  pose proof Overhead_pos. lia.
Qed.

(** C1, on the code: when the client, the upstream and the central proxy
    all have encryption enabled, the upstream encrypts the payload as it
    arrives, without decrypting it, so the payload the central proxy stores
    after its single decryption is the client's ciphertext (nonce, sealed
    text and tag), which differs from the plaintext fragment. *)
Theorem upstream_encrypts_without_decrypting `{!AEAD}
    (cfg : upstream.UpstreamConfig) (p : central.CentralProxy)
    (rnd_client rnd_upstream : nat → byte) (key_client : bytes)
    (reply : Chunk.t → option Z) (now : Z) (chunk : Chunk.t) (plain : bytes) :
  common.EncryptAES rnd_client plain key_client = Some (Chunk.Data chunk) →
  common.Enabled (upstream.Encryption cfg) = true →
  common.Enabled (central.Encryption (central.config p)) = true →
  upstream.EncryptionKey cfg = central.EncryptionKey (central.config p) →
  aes_key_ok (upstream.EncryptionKey cfg) = true →
  central_wf p →
  ∃ forwarded l session received,
    (upstream.handleChunk cfg rnd_upstream reply (post chunk)).2 = Some forwarded
    ∧ central.sessions (central.handleChunk p now (post forwarded)).1.1
        !! Chunk.SessionID chunk = Some l
    ∧ central.heap (central.handleChunk p now (post forwarded)).1.1 !! l
      = Some session
    ∧ Session.Chunks session !! Chunk.SequenceNum chunk = Some received
    ∧ Chunk.Data received = Chunk.Data chunk
    ∧ Chunk.Data received ≠ plain.
Proof.
  intros Hclient Hup Hcentral Hkeys Hkey Hwf.
  destruct (DecryptAES_EncryptAES rnd_upstream (Chunk.Data chunk)
              (upstream.EncryptionKey cfg) Hkey) as (c & Henc & Hdec).
  set (forwarded :=
         Chunk.set_Data
           (Chunk.set_Headers chunk
              (common.ApplyObfuscation (Chunk.Headers chunk) (upstream.Obfuscation cfg)))
           c).
  assert ((upstream.handleChunk cfg rnd_upstream reply (post chunk)).2
          = Some forwarded) as Hfwd.
  { unfold upstream.handleChunk. cbn [post post_method post_readable post_chunk].
    rewrite bool_decide_true by done. cbn [negb]. rewrite Hup. cbn. rewrite Henc.
    by case_bool_decide. }
  destruct (central_handleChunk_stores p now forwarded (Chunk.Data chunk) Hwf)
    as (p' & l & session & Hp' & _ & Hsid & Hl & Hseq & _).
  { rewrite Hcentral, <- Hkeys. exact Hdec. }
  exists forwarded, l, session, (Chunk.set_Data forwarded (Chunk.Data chunk)).
  rewrite Hp'. repeat split; try done.
  cbn. by eapply EncryptAES_longer.
Qed.

Lemma example_central_wf encryption : central_wf (example_central encryption).
Proof. intros sessionID l Hl. cbn in Hl. by rewrite lookup_empty in Hl. Qed.

Lemma upstream_encrypts_without_decrypting_witness :
  ∃ forwarded l session received,
    (upstream.handleChunk example_upstream (λ _, x09) (λ _, Some StatusOK)
       (post encrypted_chunk)).2 = Some forwarded
    ∧ central.sessions
        (central.handleChunk (example_central encryption_on) 0 (post forwarded)).1.1
        !! Chunk.SessionID encrypted_chunk = Some l
    ∧ central.heap
        (central.handleChunk (example_central encryption_on) 0 (post forwarded)).1.1
        !! l = Some session
    ∧ Session.Chunks session !! Chunk.SequenceNum encrypted_chunk = Some received
    ∧ Chunk.Data received = Chunk.Data encrypted_chunk
    ∧ Chunk.Data received ≠ [x41].
Proof.
  apply (upstream_encrypts_without_decrypting example_upstream
           (example_central encryption_on) (λ _, x07) (λ _, x09) example_key
           (λ _, Some StatusOK) 0 encrypted_chunk [x41]).
  - reflexivity.
  - reflexivity.
  - reflexivity.
  - reflexivity.
  - reflexivity.
  - apply example_central_wf.
Defined.

(** ** A session with a hole *)

(** C4 on the code, central proxy: when a sequence number of [1..total]
    has no chunk, [processCompleteSession] returns at once; it issues no
    outbound request and dispatches nothing, and it leaves the proxy as it
    was, so the session stays in the session map. *)
Theorem central_keeps_session_with_missing_chunk `{!AEAD} `{!Net}
    (p : central.CentralProxy) (w : internet) (rnd : nat → byte) (now : Z → Z)
    (l : nat) (session : Session.t) (i : Z) :
  central.heap p !! l = Some session →
  1 ≤ i ≤ Session.TotalChunks session →
  Session.Chunks session !! i = None →
  central.processCompleteSession p w rnd now l
  = {| central.proxy := p; central.net := w; central.outbound := [];
       central.dispatched := []; central.crashed := None |}.
Proof.
  intros Hl Hi Hnone. unfold central.processCompleteSession. rewrite Hl.
  destruct (reassemble_missing (Session.Chunks session) 1
              (Z.to_nat (Session.TotalChunks session)) [] i) as (k & _ & ->);
    [lia|done|done].
Qed.

(** The client, in the same situation, reports the missing chunk to the
    waiting caller, who deletes the pending session. *)
Lemma client_reports_missing_chunk (c : client.ProxyClient) (sessionID : string)
    (l : nat) (session : client.PendingSession) (i : Z) :
  client.heap c !! l = Some session →
  client.ResponseChan session = [] →
  1 ≤ i ≤ client.TotalChunks session →
  client.Chunks session !! i = None →
  ∃ c' k,
    1 ≤ k ≤ i
    ∧ client.MakeRequest_wait (client.assembleResponse c l) sessionID l
      = (c',
         Some {| client.StatusCode := 0; client.Headers := ∅; client.Body := [];
                 client.Error := Some (client.missing_chunk k) |},
         Some (client.missing_chunk k))
    ∧ client.pendingSessions c' !! sessionID = None.
Proof.
  intros Hl Hchan Hi Hnone.
  pose proof (lookup_lt_Some _ _ _ Hl) as Hlt.
  destruct (reassemble_missing (client.Chunks session) 1
              (Z.to_nat (client.TotalChunks session)) [] i) as (k & Hk & Hre);
    [lia|done|].
  unfold client.assembleResponse. rewrite Hl, Hre, Hchan.
  unfold client.MakeRequest_wait, client.set_sessions. cbn.
  rewrite list_lookup_insert_eq by done. cbn.
  eexists _, k. split; [lia|]. split; [done|].
  cbn. by rewrite lookup_delete_eq.
Qed.

Lemma central_keeps_session_with_missing_chunk_witness :
  (central.handleChunk (example_central encryption_off) 0 (post stray_chunk)).2
  = Some 0%nat
  ∧ central.sessions
      (central.proxy
         (central.processCompleteSession
            (central.handleChunk (example_central encryption_off) 0
               (post stray_chunk)).1.1
            untouched (λ _, x07) (λ i, i) 0))
      !! "5e55" = Some 0%nat.
Proof.
  split; [reflexivity|].
  rewrite (central_keeps_session_with_missing_chunk
             (central.handleChunk (example_central encryption_off) 0
                (post stray_chunk)).1.1
             untouched (λ _, x07) (λ i, i) 0
             (Session.store
                {| Session.SessionID := "5e55"; Session.Chunks := ∅;
                   Session.TotalChunks := 1; Session.ReceivedAt := 0;
                   Session.TargetURL := "http://echo.test/";
                   Session.Method := "POST"; Session.Headers := ∅ |}
                2 stray_chunk)
             1).
  - reflexivity.
  - reflexivity.
  - cbn. lia.
  - reflexivity.
Defined.

(** ** Headers of the outbound request *)

Lemma central_set_headers_lookup `{!Net} (headers : gmap string string) :
  ∀ k v,
    headers !! k = Some v →
    (∀ k' v', headers !! k' = Some v' →
              CanonicalMIMEHeaderKey k' = CanonicalMIMEHeaderKey k → k' = k) →
    central.set_headers headers !! CanonicalMIMEHeaderKey k = Some v.
Proof.
  unfold central.set_headers.
  apply (map_fold_weak_ind
           (λ r m, ∀ k v, m !! k = Some v →
              (∀ k' v', m !! k' = Some v' →
                        CanonicalMIMEHeaderKey k' = CanonicalMIMEHeaderKey k → k' = k) →
              r !! CanonicalMIMEHeaderKey k = Some v)).
  - intros k v Hk. by rewrite lookup_empty in Hk.
  - intros i x m r Hi IH k v Hk Huniq.
    destruct (decide (i = k)) as [->|Hne].
    + rewrite lookup_insert_eq in Hk. injection Hk as ->.
      by rewrite lookup_insert_eq.
    + rewrite lookup_insert_ne in Hk by done.
      rewrite lookup_insert_ne.
      * apply IH; [done|]. intros k' v' Hk' Hcanon.
        apply (Huniq k' v'); [|done].
        rewrite lookup_insert_ne; [done|]. intros ->. congruence.
      * intros Hcanon. apply Hne, (Huniq i x); [|done].
        by rewrite lookup_insert_eq.
Qed.

(** The gateway's loop drops the two internal headers: whatever it sets
    comes from a header of the request other than those. *)
Lemma gateway_set_headers_lookup `{!Net} (headers : gmap string string) :
  ∀ k' v,
    gateway.set_headers headers !! k' = Some v →
    ∃ k, headers !! k = Some v ∧ k ≠ "X-Node-ID" ∧ k ≠ "X-Auth-Token"
         ∧ CanonicalMIMEHeaderKey k = k'.
Proof.
  unfold gateway.set_headers.
  apply (map_fold_weak_ind
           (λ r m, ∀ k' v, r !! k' = Some v →
              ∃ k, m !! k = Some v ∧ k ≠ "X-Node-ID" ∧ k ≠ "X-Auth-Token"
                   ∧ CanonicalMIMEHeaderKey k = k')).
  - intros k' v Hk. by rewrite lookup_empty in Hk.
  - intros i x m r Hi IH k' v Hk.
    assert (∀ k, m !! k = Some v → <[i:=x]> m !! k = Some v) as Hmono.
    { intros k Hm. rewrite lookup_insert_ne; [done|]. intros ->. congruence. }
    case_bool_decide as Hkeep.
    + destruct Hkeep as [Hnode Htoken].
      destruct (decide (CanonicalMIMEHeaderKey i = k')) as [<-|Hne].
      * rewrite lookup_insert_eq in Hk. injection Hk as ->.
        exists i. by rewrite lookup_insert_eq.
      * rewrite lookup_insert_ne in Hk by done.
        destruct (IH k' v Hk) as (k & ? & ? & ? & ?). exists k. auto.
    + destruct (IH k' v Hk) as (k & ? & ? & ? & ?). exists k. auto.
Qed.

(** C8 on the code: the central proxy copies every session header into
    the outbound request, the two inter-node auth headers included. *)
Theorem central_forwards_auth_headers `{!Net} (w : internet)
    (session : Session.t) (body : bytes) (auth value : string) :
  auth = "X-Node-ID" ∨ auth = "X-Auth-Token" →
  NewRequest_ok (Session.Method session) (Session.TargetURL session) = true →
  Session.Headers session !! auth = Some value →
  (∀ k' v', Session.Headers session !! k' = Some v' →
            CanonicalMIMEHeaderKey k' = CanonicalMIMEHeaderKey auth → k' = auth) →
  ∃ req,
    (central.performProxyRequest w session body).1.2 = [req]
    ∧ req_method req = Session.Method session
    ∧ req_url req = Session.TargetURL session
    ∧ req_body req = body
    ∧ req_header req !! CanonicalMIMEHeaderKey auth = Some value.
Proof.
  intros _ Hok Hauth Huniq. unfold central.performProxyRequest. rewrite Hok.
  eexists. split.
  - destruct (Do w _) as [w' [responseData|]]; reflexivity.
  - cbn. split_and!; try done. by apply central_set_headers_lookup.
Qed.

Lemma central_forwards_auth_headers_witness :
  ∃ req,
    (central.performProxyRequest untouched credentialed_session [x41]).1.2 = [req]
    ∧ req_method req = "POST"
    ∧ req_url req = "http://echo.test/"
    ∧ req_body req = [x41]
    ∧ req_header req !! CanonicalMIMEHeaderKey "X-Auth-Token" = Some "5ec2e7".
Proof.
  apply (central_forwards_auth_headers untouched credentialed_session [x41]
           "X-Auth-Token" "5ec2e7").
  - right. reflexivity.
  - reflexivity.
  - reflexivity.
  - intros k' v' Hk' Hcanon. cbn in Hk'.
    apply lookup_insert_Some in Hk' as [[<- _]|[_ Hk']]; [by vm_compute in Hcanon|].
    apply lookup_insert_Some in Hk' as [[<- _]|[_ Hk']]; [done|].
    apply lookup_singleton_Some in Hk' as [<- _]. by vm_compute in Hcanon.
Defined.

(** ** The gateway *)

Lemma authenticateNode_true `{!Net} g r :
  authenticated g r ↔
  gateway.authenticateNode g
    (gateway.Header_Get (gateway.proxy_header r) "X-Node-ID")
    (gateway.Header_Get (gateway.proxy_header r) "X-Auth-Token") = true.
Proof.
  unfold authenticated, gateway.authenticateNode.
  destruct (gateway.NodeTokens (gateway.config g) !! _) as [expected|]; [|done].
  rewrite bool_decide_eq_true. split; congruence.
Qed.




(** ** Tokens *)

Lemma EncodeToString_length (src : bytes) :
  String.length (hex.EncodeToString src) = (2 * length src)%nat.
Proof. induction src as [|v src IH]; [done|]. cbn. rewrite IH. lia. Qed.

Lemma digit_is_hex (v : byte) :
  hex.is_hex_char (hex.digit (N.shiftr (Byte.to_N v) 4)) = true
  ∧ hex.is_hex_char (hex.digit (N.land (Byte.to_N v) 15)) = true.
Proof. destruct v; split; vm_compute; reflexivity. Qed.

Lemma EncodeToString_hex (src : bytes) : hex.all_hex (hex.EncodeToString src) = true.
Proof.
  induction src as [|v src IH]; [done|].
  destruct (digit_is_hex v) as [Hhi Hlo].
  cbn [hex.EncodeToString hex.all_hex]. by rewrite Hhi, Hlo, IH.
Qed.

Lemma generateToken_shape (rnd : nat → byte) :
  String.length (gateway.generateToken rnd) = 64%nat
  ∧ hex.all_hex (gateway.generateToken rnd) = true.
Proof.
  unfold gateway.generateToken.
  by rewrite EncodeToString_length, rand_Read_length, EncodeToString_hex.
Qed.

Lemma authorized_elem_of (nodes : list string) (node : string) :
  existsb (λ nodeID, bool_decide (nodeID = node)) nodes = true ↔ node ∈ nodes.
Proof.
  rewrite existsb_exists. split.
  - intros (x & Hin & Heq%bool_decide_eq_true). subst. by apply list_elem_of_In.
  - intros Hin. exists node. split; [by apply list_elem_of_In|].
    by apply bool_decide_eq_true.
Qed.

(** C6: a request to [/proxy] whose [X-Node-ID] and [X-Auth-Token] headers
    do not match a stored (node, token) pair is answered 401, and the gateway
    neither queues nor issues anything; so is a request without
    [X-Auth-Token] when every stored token has 64 characters.  A POST to
    [/register] for a node id that is not in the configured list is answered
    401 and changes nothing; for a configured node id the gateway mints a
    token, the 64 hex characters of 32 fresh random bytes, stores it, returns
    it, and from then on does not answer 401 to a [/proxy] request bearing
    that node id and token. *)
Theorem gateway_authentication `{!Net} (g : gateway.StarlinkGateway)
    (rnd : nat → byte) (reg : gateway.regReq) :
  (∀ w now r,
     ¬ authenticated g r →
     gateway.handleProxyRequest g w now r
     = (g, w, {| status := StatusUnauthorized; payload := Text "Unauthorized" |}, []))
  ∧ (∀ w now r,
       (∀ node token, gateway.NodeTokens (gateway.config g) !! node = Some token →
                      String.length token = 64%nat) →
       gateway.proxy_header r !! CanonicalMIMEHeaderKey "X-Auth-Token" = None →
       gateway.handleProxyRequest g w now r
       = (g, w, {| status := StatusUnauthorized; payload := Text "Unauthorized" |}, []))
  ∧ (gateway.node_id reg ∉ gateway.AuthenticatedNodes (gateway.config g) →
     gateway.handleNodeRegistration g rnd (register_post reg)
     = (g, {| status := StatusUnauthorized; payload := Text "Unauthorized" |}))
  ∧ (gateway.node_id reg ∈ gateway.AuthenticatedNodes (gateway.config g) →
     ∃ g' token,
       gateway.handleNodeRegistration g rnd (register_post reg)
       = (g', {| status := StatusOK;
                 payload := Json {[ "node_id" := gateway.node_id reg;
                                    "token" := token ]} |})
       ∧ token = hex.EncodeToString (rand_Read rnd 0 32)
       ∧ String.length token = 64%nat
       ∧ hex.all_hex token = true
       ∧ gateway.NodeTokens (gateway.config g') !! gateway.node_id reg = Some token
       ∧ ∀ w now r,
           gateway.Header_Get (gateway.proxy_header r) "X-Node-ID"
           = gateway.node_id reg →
           gateway.Header_Get (gateway.proxy_header r) "X-Auth-Token" = token →
           authenticated g' r
           ∧ status (gateway.handleProxyRequest g' w now r).1.2 ≠ StatusUnauthorized).
Proof.
  assert (∀ w now r, ¬ authenticated g r →
            gateway.handleProxyRequest g w now r
            = (g, w, {| status := StatusUnauthorized; payload := Text "Unauthorized" |}, []))
    as Hreject.
  { intros w now r Hauth. unfold gateway.handleProxyRequest.
    destruct (gateway.authenticateNode g _ _) eqn:Hcheck; [|done].
    by apply authenticateNode_true in Hcheck. }
  split_and!.
  - exact Hreject.
  - intros w now r Hlen Hmissing. apply Hreject. unfold authenticated.
    unfold gateway.Header_Get at 2. rewrite Hmissing. cbn.
    intros Hstored. by apply Hlen in Hstored.
  - intros Hunknown. unfold gateway.handleNodeRegistration. cbn.
    destruct (existsb _ _) eqn:Hauth; [|done].
    by apply authorized_elem_of in Hauth.
  - intros Hknown. apply authorized_elem_of in Hknown.
    unfold gateway.handleNodeRegistration. cbn. rewrite Hknown. cbn.
    destruct (generateToken_shape rnd) as [Hlen Hhex].
    exists (gateway.set_NodeTokens g
              (<[gateway.node_id reg := gateway.generateToken rnd]>
                 (gateway.NodeTokens (gateway.config g)))),
      (gateway.generateToken rnd).
    split; [done|]. split_and!; try done.
    + cbn. by rewrite lookup_insert_eq.
    + intros w now r Hnode Htoken.
      assert (authenticated
                (gateway.set_NodeTokens g
                   (<[gateway.node_id reg := gateway.generateToken rnd]>
                      (gateway.NodeTokens (gateway.config g)))) r) as Hauth.
      { unfold authenticated. cbn. rewrite Hnode, Htoken.
        by rewrite lookup_insert_eq. }
      split; [done|]. apply authenticateNode_true in Hauth.
      unfold gateway.handleProxyRequest. rewrite Hauth. cbn [negb].
      destruct (gateway.proxy_json r) as [q|]; [|done].
      destruct (gateway.TrafficMixing _); [done|].
      by destruct (gateway.performProxyRequest w _) as [[w' reqs] [response|err]].
Qed.

Lemma initial_tokens_minted (nodes : list string) (rnd : nat → byte)
    (tokens : gmap string string) :
  tokens_minted tokens → tokens_minted (gateway.initial_tokens nodes rnd tokens).
Proof.
  revert rnd tokens. induction nodes as [|nodeID nodes IH]; intros rnd tokens Hm;
    [done|].
  cbn. apply IH. intros node token.
  destruct (decide (nodeID = node)) as [->|Hne].
  - rewrite lookup_insert_eq. intros [= <-]. apply generateToken_shape.
  - rewrite lookup_insert_ne by done. apply Hm.
Qed.

Lemma registration_tokens_minted (g : gateway.StarlinkGateway)
    (rnd : nat → byte) (r : gateway.RegisterPost) :
  tokens_minted (gateway.NodeTokens (gateway.config g)) →
  tokens_minted
    (gateway.NodeTokens (gateway.config (gateway.handleNodeRegistration g rnd r).1)).
Proof.
  intros Hm. unfold gateway.handleNodeRegistration.
  destruct (negb _); [done|]. destruct (gateway.register_json r) as [reg|]; [|done].
  destruct (negb _); [done|]. cbn. intros node token.
  destruct (decide (gateway.node_id reg = node)) as [->|Hne].
  - rewrite lookup_insert_eq. intros [= <-]. apply generateToken_shape.
  - rewrite lookup_insert_ne by done. apply Hm.
Qed.

Lemma gateway_authentication_witness :
  gateway.handleNodeRegistration (example_gateway true) (λ _, x3c)
    (register_post {| gateway.node_id := "intruder"; gateway.secret := "" |})
  = (example_gateway true,
     {| status := StatusUnauthorized; payload := Text "Unauthorized" |}).
Proof.
  apply (gateway_authentication (example_gateway true) (λ _, x3c)
           {| gateway.node_id := "intruder"; gateway.secret := "" |}).
  cbn. intros Hin%list_elem_of_singleton. discriminate Hin.
Defined.

(** The spec's scenario: a registered relay is served with its token and
    turned away with a token that differs in one character. *)
Example gateway_token_scenario :
  let registered :=
    (gateway.handleNodeRegistration (example_gateway true) (λ _, x3c)
       (register_post {| gateway.node_id := "relay-1"; gateway.secret := "" |})).1 in
  let request token :=
    {| gateway.proxy_header := {[ "X-Node-Id" := "relay-1"; "X-Auth-Token" := token ]};
       gateway.proxy_json :=
         Some {| gateway.request_id := "req-1";
                 gateway.target_url := "http://echo.test/";
                 gateway.method := "GET"; gateway.body := [];
                 gateway.headers := ∅ |} |} in
  status (gateway.handleProxyRequest registered untouched 0
            (request (gateway.generateToken (λ _, x3c)))).1.2 = StatusAccepted
  ∧ status (gateway.handleProxyRequest registered untouched 0
              (request (String "4" (String.substring 1 63
                                      (gateway.generateToken (λ _, x3c)))))).1.2
    = StatusUnauthorized.
Proof. split; vm_compute; reflexivity. Qed.

(** ** Duplicate deliveries at the central proxy *)






(** ** Rotation of the relay's next hop *)



Section rotation.
Variable hops : list string.
Hypothesis hops_nonempty : hops ≠ [].
Hypothesis hops_fit : len hops ≤ goint.max_int.




End rotation.



(** The spec's scenario: with three next hops and a rotation time of one
    second, forwards between the second and the third second go to hop 2. *)
Example relay_rotation_scenario :
  (r ←! relay.after example_relay 2; relay.nextHop r) = Ret "relay-4:9100"
  ∧ (r ←! relay.after example_relay 3; relay.nextHop r) = Ret "relay-2:9100".
Proof. split; vm_compute; reflexivity. Qed.

(** ** An empty response *)

Lemma fragmentAndForward_empty `{!AEAD} (cfg : central.CentralConfig)
    (rnd : nat → byte) (now : Z → Z) (session : Session.t) :
  1 ≤ central.ChunkSize cfg ≤ goint.max_int →
  central.fragmentAndForward cfg rnd now session [] = ([], Returned None).
Proof.
  intros Hcs. unfold central.fragmentAndForward.
  change (len (@nil byte)) with 0.
  rewrite sub_add_exact
    by (unfold goint.in_range, goint.min_int, goint.max_int in *; lia).
  rewrite quo_exact by lia.
  by rewrite Z.div_small by lia.
Qed.

Lemma assembleResponse_other (c : client.ProxyClient) (sessionID : string)
    (l l' : nat) (s : client.PendingSession) :
  l' ≠ l → waits c sessionID l s →
  waits (client.assembleResponse c l') sessionID l s
  ∧ client.config (client.assembleResponse c l') = client.config c.
Proof.
  intros Hne (Hsid & Hl & Hinj). unfold client.assembleResponse.
  destruct (client.heap c !! l') as [session|]; [|done].
  destruct (client.ResponseChan session); [|done].
  split; [|done]. split_and!; cbn; [done| |done].
  by rewrite list_lookup_insert_ne.
Qed.

Lemma handleResponseChunk_other `{!AEAD} (c : client.ProxyClient)
    (sessionID : string) (l : nat) (s : client.PendingSession) (r : ChunkPost) :
  untouched_by sessionID r → waits c sessionID l s →
  waits (client.handleResponseChunk c r).1.1 sessionID l s
  ∧ client.config (client.handleResponseChunk c r).1.1 = client.config c
  ∧ (client.handleResponseChunk c r).2 ≠ Some l.
Proof.
  intros Hother (Hsid & Hl & Hinj). unfold client.handleResponseChunk.
  destruct (negb (bool_decide _)); [done|].
  destruct (negb (post_readable r)); [done|].
  destruct (post_chunk r) as [chunk|] eqn:Hchunk; [|done].
  destruct (if client.Encryption_Enabled (client.config c) then _ else _)
    as [data|]; [|done].
  change (Chunk.SessionID (Chunk.set_Data chunk data)) with (Chunk.SessionID chunk).
  destruct (client.pendingSessions c !! Chunk.SessionID chunk) as [l'|] eqn:Hl';
    [|done].
  assert (l' ≠ l) as Hne.
  { intros ->. by apply (Hother chunk), Hinj. }
  destruct (client.heap c !! l') as [session|]; [|done].
  unfold waits, client.set_sessions. cbn. split_and!; try done.
  - by rewrite list_lookup_insert_ne.
  - case_bool_decide; congruence.
Qed.

Lemma serve_other_sessions `{!AEAD} (posts : list ChunkPost) :
  ∀ (c : client.ProxyClient) (sessionID : string) (l : nat)
    (s : client.PendingSession),
    Forall (untouched_by sessionID) posts → waits c sessionID l s →
    waits (client.serve c posts) sessionID l s
    ∧ client.config (client.serve c posts) = client.config c.
Proof.
  induction posts as [|r posts IH]; intros c sessionID l s Hposts Hwaits; [done|].
  apply Forall_cons in Hposts as [Hr Hposts].
  destruct (handleResponseChunk_other c sessionID l s r Hr Hwaits)
    as (Hwaits' & Hcfg & Hstarted).
  cbn [client.serve].
  destruct (client.handleResponseChunk c r) as [[c' reply] started]. cbn in *.
  destruct started as [l'|].
  - destruct (assembleResponse_other c' sessionID l l' s) as [Hw Hc];
      [congruence|done|].
    destruct (IH _ sessionID l s Hposts Hw) as [? ?]. split; [done|congruence].
  - destruct (IH _ sessionID l s Hposts Hwaits') as [? ?]. split; [done|congruence].
Qed.

(** C10 (implicit): for a complete session whose outbound request is
    answered with an empty body, [fragmentAndForward] computes a chunk count
    of 0 and hands nothing to any downstream server; the session is then
    deleted.  A client with the same chunk size still sends one chunk for an
    empty body: the minimum of one chunk has no counterpart at the central
    proxy.  A client whose listener is handed the dispatched chunks (there
    are none) and posts of other sessions only finds its channel empty when
    it wakes up, and returns the timeout error. *)
Theorem central_empty_response `{!AEAD} `{!Net} (p : central.CentralProxy)
    (w w' : internet) (rnd : nat → byte) (now : Z → Z) (l : nat)
    (session : Session.t) (fullData : bytes) (reqs : list Request) :
  1 ≤ central.ChunkSize (central.config p) ≤ goint.max_int →
  central.heap p !! l = Some session →
  reassemble (Session.Chunks session) 1
    (Z.to_nat (Session.TotalChunks session)) [] = inr fullData →
  central.performProxyRequest w session fullData = (w', reqs, inl []) →
  goint.quo (goint.sub (goint.add (len (@nil byte)) (central.ChunkSize (central.config p))) 1)
    (central.ChunkSize (central.config p)) = Ret 0
  ∧ central.fragmentAndForward (central.config p) rnd now session []
    = ([], Returned None)
  ∧ central.processCompleteSession p w rnd now l
    = {| central.proxy :=
           central.set_sessions p
             (delete (Session.SessionID session) (central.sessions p))
             (central.heap p);
         central.net := w'; central.outbound := reqs;
         central.dispatched := []; central.crashed := None |}
  ∧ (∀ cfg rnd' now' sessionID method url headers,
       client.ChunkSize cfg = central.ChunkSize (central.config p) →
       client.UpstreamServers cfg ≠ [] →
       (client.Encryption_Enabled cfg = true →
        aes_key_ok (client.EncryptionKey cfg) = true) →
       length (client.fragmentAndSend cfg rnd' now' sessionID method url [] headers).1
       = 1%nat)
  ∧ (∀ c lc s others,
       waits c (Session.SessionID session) lc s →
       client.ResponseChan s = [] →
       Forall (untouched_by (Session.SessionID session)) others →
       (client.MakeRequest_wait
          (client.serve c
             ((post <$> (central.dispatched
                           (central.processCompleteSession p w rnd now l)).*2)
              ++ others))
          (Session.SessionID session) lc).2
       = Some (client.request_timeout (client.Timeout (client.config c)))).
Proof.
  intros Hcs Hl Hre Hperform.
  assert (central.processCompleteSession p w rnd now l
          = {| central.proxy :=
                 central.set_sessions p
                   (delete (Session.SessionID session) (central.sessions p))
                   (central.heap p);
               central.net := w'; central.outbound := reqs;
               central.dispatched := []; central.crashed := None |}) as Hrun.
  { unfold central.processCompleteSession.
    by rewrite Hl, Hre, Hperform, fragmentAndForward_empty. }
  split_and!.
  - change (len (@nil byte)) with 0.
    rewrite sub_add_exact
      by (unfold goint.in_range, goint.min_int, goint.max_int in *; lia).
    rewrite quo_exact by lia. by rewrite Z.div_small by lia.
  - by apply fragmentAndForward_empty.
  - exact Hrun.
  - intros cfg rnd' now' sessionID method url headers Hsame Hup Hkey.
    rewrite fragmentAndSend_spec; [|rewrite Hsame; lia|rewrite Hsame|done|done].
    + cbn [fst]. rewrite length_fmap, length_seqZ. unfold chunk_count, ceil_div.
      change (len (@nil byte)) with 0. rewrite Z.opp_0, Z.div_0_l by lia. done.
    + change (len (@nil byte)) with 0. lia.
  - intros c lc s others Hwaits Hchan Hothers. rewrite Hrun. cbn.
    destruct (serve_other_sessions others c (Session.SessionID session) lc s
                Hothers Hwaits) as [(_ & Hlc & _) Hcfg].
    unfold client.MakeRequest_wait. rewrite Hlc, Hchan, Hcfg. done.
Qed.

Lemma central_empty_response_witness :
  central.processCompleteSession holding_request_to_empty untouched
    (λ _, x07) (λ i, i) 0
  = {| central.proxy :=
         central.set_sessions holding_request_to_empty ∅
           (central.heap holding_request_to_empty);
       central.net := 1%nat;
       central.outbound :=
         [ {| req_method := "POST"; req_url := "http://empty.test/";
              req_header := ∅; req_body := [x41] |} ];
       central.dispatched := []; central.crashed := None |}.
Proof.
  refine (proj1 (proj2 (proj2
            (central_empty_response holding_request_to_empty
               untouched 1%nat (λ _, x07) (λ i, i) 0
               (Session.store
                  {| Session.SessionID := "5e55"; Session.Chunks := ∅;
                     Session.TotalChunks := 1; Session.ReceivedAt := 0;
                     Session.TargetURL := "http://empty.test/";
                     Session.Method := "POST"; Session.Headers := ∅ |}
                  1 request_to_empty)
               [x41]
               [ {| req_method := "POST"; req_url := "http://empty.test/";
                    req_header := ∅; req_body := [x41] |} ]
               _ _ _ _)))).
  - vm_compute. split; discriminate.
  - reflexivity.
  - reflexivity.
  - reflexivity.
Defined.

(** ** The periodic sweep *)

(** What the early return of [processCompleteSession] leaves behind is
    removed by the sweep, once the reassembly timeout has passed. *)
Lemma cleanup_evicts (p : central.CentralProxy) (now : Z) (sessionID : string)
    (l : nat) (session : Session.t) :
  central.sessions p !! sessionID = Some l →
  central.heap p !! l = Some session →
  now - Session.ReceivedAt session > central.ReassemblyTimeout (central.config p) →
  central.sessions (central.cleanup p now) !! sessionID = None.
Proof.
  intros Hsid Hl Hold. unfold central.cleanup. cbn.
  apply map_lookup_filter_None_2. right. intros l' Hl'.
  rewrite Hsid in Hl'. injection Hl' as <-. cbn.
  unfold central.expired. rewrite Hl. by rewrite bool_decide_true.
Qed.

Lemma cleanup_keeps (p : central.CentralProxy) (now : Z) (sessionID : string)
    (l : nat) (session : Session.t) :
  central.sessions p !! sessionID = Some l →
  central.heap p !! l = Some session →
  now - Session.ReceivedAt session ≤ central.ReassemblyTimeout (central.config p) →
  central.sessions (central.cleanup p now) !! sessionID = Some l.
Proof.
  intros Hsid Hl Hyoung. unfold central.cleanup. cbn.
  apply map_lookup_filter_Some_2; [done|]. cbn.
  unfold central.expired. rewrite Hl. by rewrite bool_decide_false by lia.
Qed.

(** ** The session [MakeRequest] waits on *)

(** After a successful send the caller holds the pointer of a pending
    session with no chunk and an empty channel, which no other session id
    points to: the state the round trip and the timeout start from. *)
Lemma MakeRequest_send_waits `{!AEAD} (c : client.ProxyClient) (rnd : nat → byte)
    (t0 : Z) (now : Z → Z) (method url : string) (body : bytes)
    (headers : gmap string string) :
  client_wf c →
  1 ≤ client.ChunkSize (client.config c) ≤ goint.max_int →
  len body + client.ChunkSize (client.config c) - 1 ≤ goint.max_int →
  client.UpstreamServers (client.config c) ≠ [] →
  (client.Encryption_Enabled (client.config c) = true →
   aes_key_ok (client.EncryptionKey (client.config c)) = true) →
  ∃ c' s,
    client.MakeRequest_send c rnd t0 now method url body headers
    = (c', client.generateSessionID rnd, length (client.heap c),
       (client.fragmentAndSend (client.config c) (λ k, rnd (16 + k)%nat) now
          (client.generateSessionID rnd) method url body headers).1,
       Returned None)
    ∧ waits c' (client.generateSessionID rnd) (length (client.heap c)) s
    ∧ client.Chunks s = ∅
    ∧ client.ResponseChan s = []
    ∧ client.config c' = client.config c.
Proof.
  intros Hwf Hcs Hov Hup Hkey. unfold client.MakeRequest_send.
  cbn [client.config client.set_sessions].
  rewrite fragmentAndSend_spec by done. cbn [fst].
  set (sessionID := client.generateSessionID rnd).
  set (s := {| client.SessionID := sessionID; client.RequestURL := url;
               client.Method := method; client.StartTime := t0;
               client.ResponseChan := []; client.Chunks := ∅;
               client.TotalChunks := 0 |}).
  eexists _, s. split; [reflexivity|]. unfold waits, client.set_sessions.
  cbn [client.pendingSessions client.heap client.config].
  split_and!; try done.
  - by rewrite lookup_insert_eq.
  - by rewrite lookup_app_r, Nat.sub_diag by lia.
  - intros other Hother.
    destruct (decide (other = sessionID)) as [Heq|Hne]; [exact Heq|].
    rewrite lookup_insert_ne in Hother by (intros Heq; by apply Hne).
    destruct (Hwf _ _ Hother) as [s' Hs']. apply lookup_lt_Some in Hs'. lia.
Qed.

(** * Further properties of the code *)

(** ** common/types.go: encryption and padding *)

(** X1: under a key [aes.NewCipher] accepts, [EncryptAES] returns the
    nonce it drew followed by the sealed text, [NonceSize + Overhead] bytes
    longer than the plaintext, and [DecryptAES] under the same key gives the
    plaintext back; [DecryptAES] refuses whatever is shorter than a nonce. *)
Theorem EncryptAES_DecryptAES_roundtrip `{!AEAD} (rnd : nat → byte)
    (plain key : bytes) :
  aes_key_ok key = true →
  ∃ c,
    common.EncryptAES rnd plain key = Some c
    ∧ length c = (NonceSize + length plain + Overhead)%nat
    ∧ take NonceSize c = rand_Read rnd 0 NonceSize
    ∧ common.DecryptAES c key = Some plain
    ∧ ∀ short, (length short < NonceSize)%nat → common.DecryptAES short key = None.
Proof.
  intros Hkey.
  destruct (DecryptAES_EncryptAES rnd plain key Hkey) as (c & Henc & Hdec).
  exists c. split; [done|].
  pose proof (rand_Read_length rnd 0 NonceSize) as Hnonce.
  unfold common.EncryptAES in Henc. rewrite Hkey in Henc. injection Henc as <-.
  split_and!.
  - rewrite length_app, Seal_length by done. lia.
  - by rewrite take_app_length' by done.
  - done.
  - intros short Hshort. unfold common.DecryptAES. rewrite Hkey.
    by rewrite bool_decide_true by done.
Qed.

Lemma EncryptAES_DecryptAES_roundtrip_witness :
  ∃ c,
    common.EncryptAES (λ _, x07) [x41; x42] example_key = Some c
    ∧ length c = 30%nat
    ∧ take 12 c = replicate 12 x07
    ∧ common.DecryptAES c example_key = Some [x41; x42]
    ∧ ∀ short, (length short < 12)%nat → common.DecryptAES short example_key = None.
Proof.
  exact (EncryptAES_DecryptAES_roundtrip (λ _, x07) [x41; x42] example_key eq_refl).
Defined.

Lemma to_int32_id z : - 2 ^ 31 ≤ z < 2 ^ 31 → goint.to_int32 z = z.
Proof. intros Hz. unfold goint.to_int32. rewrite Z.mod_small; lia. Qed.

Lemma to_int32_high z : 2 ^ 31 ≤ z ≤ 2 ^ 32 → goint.to_int32 z ≤ 0.
Proof.
  intros Hz. unfold goint.to_int32.
  replace (z + 2 ^ 31) with (z - 2 ^ 31 + 1 * 2 ^ 32) by lia.
  rewrite Z.mod_add by lia.
  destruct (decide (z = 2 ^ 32)) as [->|Hne]; [done|].
  rewrite Z.mod_small; lia.
Qed.

(** X2: [AddRandomPadding] keeps the data and appends random bytes.  With
    [0 <= minPadding] and sizes that can be allocated, it appends exactly
    [minPadding] bytes when [maxPadding <= minPadding], and some [k] bytes
    with [minPadding <= k < maxPadding] when the difference is below 2^31, so
    [maxPadding] itself is never reached.  A difference from 2^31 to 2^32 is
    cut to an [int32] that is not positive, and [rand.Int31n] panics; a
    negative size makes [make] panic. *)
Theorem AddRandomPadding_bounds (rnd : nat → byte) (v : Z) (data : bytes)
    (minPadding maxPadding : Z) :
  0 ≤ v →
  - common.maxAlloc ≤ minPadding ≤ common.maxAlloc →
  maxPadding ≤ common.maxAlloc →
  (0 ≤ minPadding → maxPadding ≤ minPadding →
   common.AddRandomPadding rnd v data minPadding maxPadding
   = Ret (data ++ rand_Read rnd 0 (Z.to_nat minPadding)))
  ∧ (0 ≤ minPadding → minPadding < maxPadding →
     maxPadding - minPadding < 2 ^ 31 →
     ∃ k, minPadding ≤ k < maxPadding
          ∧ common.AddRandomPadding rnd v data minPadding maxPadding
            = Ret (data ++ rand_Read rnd 0 (Z.to_nat k)))
  ∧ (2 ^ 31 ≤ maxPadding - minPadding ≤ 2 ^ 32 →
     common.AddRandomPadding rnd v data minPadding maxPadding
     = Panic "invalid argument to Int31n")
  ∧ (minPadding < 0 → maxPadding ≤ minPadding →
     common.AddRandomPadding rnd v data minPadding maxPadding
     = Panic "makeslice: len out of range").
Proof.
  intros Hv Hmin Hmax. unfold common.maxAlloc in *.
  unfold common.AddRandomPadding, common.maxAlloc. split_and!.
  - intros Hpos Hle. rewrite (bool_decide_false (maxPadding > minPadding)) by lia.
    cbn [exec_bind]. by rewrite bool_decide_false by lia.
  - intros Hpos Hlt Hdiff.
    rewrite (bool_decide_true (maxPadding > minPadding)) by lia.
    unfold goint.sub. rewrite wrap_id
      by (unfold goint.in_range, goint.min_int, goint.max_int; lia).
    rewrite to_int32_id by lia.
    unfold common.Int31n. rewrite bool_decide_false by lia. cbn [exec_bind].
    pose proof (Z.mod_pos_bound v (maxPadding - minPadding) ltac:(lia)) as Hk.
    rewrite add_exact
      by (unfold goint.in_range, goint.min_int, goint.max_int; lia).
    exists (minPadding + v `mod` (maxPadding - minPadding)). split; [lia|].
    by rewrite bool_decide_false by lia.
  - intros Hdiff.
    rewrite (bool_decide_true (maxPadding > minPadding)) by lia.
    unfold goint.sub. rewrite wrap_id
      by (unfold goint.in_range, goint.min_int, goint.max_int; lia).
    unfold common.Int31n.
    by rewrite bool_decide_true by (by apply to_int32_high).
  - intros Hneg Hle. rewrite (bool_decide_false (maxPadding > minPadding)) by lia.
    cbn [exec_bind]. by rewrite bool_decide_true by lia.
Qed.

Lemma AddRandomPadding_bounds_witness :
  ∃ k, 2 ≤ k < 5
       ∧ common.AddRandomPadding (λ _, xff) 7 [x41] 2 5
         = Ret ([x41] ++ rand_Read (λ _, xff) 0 (Z.to_nat k)).
Proof.
  destruct (AddRandomPadding_bounds (λ _, xff) 7 [x41] 2 5) as (_ & Hbounded & _).
  - lia.
  - vm_compute. split; discriminate.
  - vm_compute. discriminate.
  - apply Hbounded; lia.
Defined.

(** ** client/main.go: the pending sessions *)

Lemma handleResponseChunk_frame `{!AEAD} (c : client.ProxyClient) (r : ChunkPost) :
  client.pendingSessions (client.handleResponseChunk c r).1.1 = client.pendingSessions c
  ∧ length (client.heap (client.handleResponseChunk c r).1.1) = length (client.heap c)
  ∧ client.config (client.handleResponseChunk c r).1.1 = client.config c.
Proof.
  unfold client.handleResponseChunk.
  destruct (negb (bool_decide _)); [done|].
  destruct (negb (post_readable r)); [done|].
  destruct (post_chunk r) as [chunk|]; [|done].
  destruct (if client.Encryption_Enabled (client.config c) then _ else _)
    as [data|]; [|done].
  destruct (client.pendingSessions c !! _) as [l|]; [|done].
  destruct (client.heap c !! l) as [session|]; [|done].
  cbn. by rewrite length_insert.
Qed.

Lemma assembleResponse_frame (c : client.ProxyClient) (l : nat) :
  client.pendingSessions (client.assembleResponse c l) = client.pendingSessions c
  ∧ length (client.heap (client.assembleResponse c l)) = length (client.heap c)
  ∧ client.config (client.assembleResponse c l) = client.config c.
Proof.
  unfold client.assembleResponse.
  destruct (client.heap c !! l) as [session|]; [|done].
  destruct (client.ResponseChan session); [|done].
  cbn. by rewrite length_insert.
Qed.

Lemma serve_frame `{!AEAD} (posts : list ChunkPost) :
  ∀ c : client.ProxyClient,
    client.pendingSessions (client.serve c posts) = client.pendingSessions c
    ∧ length (client.heap (client.serve c posts)) = length (client.heap c)
    ∧ client.config (client.serve c posts) = client.config c.
Proof.
  induction posts as [|r posts IH]; intros c; [done|].
  cbn [client.serve].
  destruct (handleResponseChunk_frame c r) as (Hp & Hh & Hc).
  destruct (client.handleResponseChunk c r) as [[c1 reply] started]. cbn in *.
  destruct started as [l|].
  - destruct (assembleResponse_frame c1 l) as (Hp' & Hh' & Hc').
    destruct (IH (client.assembleResponse c1 l)) as (-> & -> & ->).
    split_and!; congruence.
  - destruct (IH c1) as (-> & -> & ->). done.
Qed.

(** X3: however [MakeRequest] returns (with the error of the sending,
    with a response, or with the timeout), the pending session it registered
    is gone: the table of pending sessions is the one it found, without the
    session id it drew; the configuration is untouched; a caller that gets
    no response gets an error, and the error beside a response is the one the
    response carries. *)
Theorem MakeRequest_removes_session `{!AEAD} (c : client.ProxyClient)
    (rnd : nat → byte) (t0 : Z) (now : Z → Z) (method url : string)
    (body : bytes) (headers : gmap string string) (arrivals : list ChunkPost)
    (c' : client.ProxyClient) (sent : list (string * Chunk.t))
    (response : option client.ProxyResponse) (err : option client.error) :
  client.MakeRequest c rnd t0 now method url body headers arrivals
  = (c', sent, Ret (response, err)) →
  client.pendingSessions c'
  = delete (client.generateSessionID rnd) (client.pendingSessions c)
  ∧ client.config c' = client.config c
  ∧ (response = None → err ≠ None)
  ∧ (∀ r, response = Some r → err = client.Error r).
Proof.
  unfold client.MakeRequest, client.MakeRequest_send.
  cbn [client.config client.set_sessions client.pendingSessions client.heap].
  destruct (client.fragmentAndSend _ _ _ _ _ _ _ _) as [sent' x].
  destruct x as [[e|]|msg]; [| |done].
  - intros [= <- <- <- <-]. cbn. by rewrite delete_insert_eq.
  - set (c0 := client.set_sessions c _ _).
    destruct (serve_frame arrivals c0) as (Hp & Hh & Hc).
    unfold client.MakeRequest_wait.
    destruct (client.heap (client.serve c0 arrivals) !! length (client.heap c))
      as [session|] eqn:Hl.
    + destruct (client.ResponseChan session) as [|first rest].
      * intros [= <- <- <- <-]. cbn. rewrite Hp, Hc. cbn.
        by rewrite delete_insert_eq.
      * intros [= <- <- <- <-]. cbn. rewrite Hp, Hc. cbn.
        rewrite delete_insert_eq. split_and!; try done. by intros r [= <-].
    + apply lookup_ge_None in Hl. rewrite Hh in Hl. subst c0. cbn in Hl.
      rewrite length_app in Hl. cbn in Hl. lia.
Qed.

Lemma MakeRequest_removes_session_witness :
  client.pendingSessions
    (client.MakeRequest (idle plain_chunks) (λ _, x07) 0 (λ i, i) "GET"
       "http://echo.test/" [] ∅ []).1.1
  = ∅.
Proof.
  set (run := client.MakeRequest (idle plain_chunks) (λ _, x07) 0 (λ i, i) "GET"
                "http://echo.test/" [] ∅ []).
  destruct (MakeRequest_removes_session (idle plain_chunks) (λ _, x07) 0 (λ i, i)
              "GET" "http://echo.test/" [] ∅ [] run.1.1 run.1.2 None
              (Some (client.request_timeout 30000))) as (Hpending & _).
  - vm_compute. reflexivity.
  - rewrite Hpending. reflexivity.
Defined.

(** X4: the response listener never adds or removes a pending session
    and never touches the configuration, whatever it is sent; and posts that
    are for no pending session (late chunks of a request that has timed out,
    chunks of strangers) leave the client exactly as it was. *)
Theorem client_listener_frame `{!AEAD} (c : client.ProxyClient)
    (posts : list ChunkPost) :
  client.pendingSessions (client.serve c posts) = client.pendingSessions c
  ∧ client.config (client.serve c posts) = client.config c
  ∧ (strangers c posts → client.serve c posts = c).
Proof.
  destruct (serve_frame posts c) as (Hp & _ & Hc). split_and!; [done|done|].
  clear Hp Hc. induction posts as [|r posts IH]; intros Hstr; [done|].
  cbn [client.serve].
  assert (client.handleResponseChunk c r = (c, (client.handleResponseChunk c r).1.2, None))
    as Hr.
  { unfold client.handleResponseChunk.
    destruct (negb (bool_decide _)); [done|].
    destruct (negb (post_readable r)); [done|].
    destruct (post_chunk r) as [chunk|] eqn:Hchunk; [|done].
    destruct (if client.Encryption_Enabled (client.config c) then _ else _)
      as [data|]; [|done].
    change (Chunk.SessionID (Chunk.set_Data chunk data)) with (Chunk.SessionID chunk).
    rewrite (Hstr r chunk); [done|set_solver|done]. }
  rewrite Hr. apply IH. intros r' chunk Hin. apply Hstr. set_solver.
Qed.

Lemma client_listener_frame_witness :
  client.serve (idle plain_chunks) [post whole_request; post stray_chunk]
  = idle plain_chunks.
Proof.
  apply (client_listener_frame (idle plain_chunks)
           [post whole_request; post stray_chunk]).
  intros r chunk _ _. reflexivity.
Defined.

(** ** client/main.go: configurations that send nothing *)

Lemma send_loop_panics {E} (step : Z → exec (iteration E)) (i : Z) (n : nat)
    (msg : string) :
  step i = Panic msg →
  send_loop step i n = ([], if n is O then Returned None else Panicked msg).
Proof. intros Hstep. destruct n as [|n]; [done|]. cbn. by rewrite Hstep. Qed.



(** X6: [NewProxyClient] replaces a chunk size of zero only.  A client
    it builds from a configuration with a negative chunk size hands no chunk
    to [sendChunk] and reports no error either: the chunk count is negative
    and the loop does not run, or the first slice has crossed bounds and
    panics. *)
Theorem client_negative_chunk_size `{!AEAD} (config : client.ClientConfig)
    (rnd : nat → byte) (now : Z → Z) (sessionID method url : string)
    (body : bytes) (headers : gmap string string) :
  goint.min_int ≤ client.ChunkSize config < 0 →
  ∃ x,
    client.fragmentAndSend (client.config (client.NewProxyClient config)) rnd now
      sessionID method url body headers = ([], x)
    ∧ (x = Returned None ∨ x = Panicked "slice bounds out of range").
Proof.
  intros Hcs. unfold client.NewProxyClient. cbn [client.config].
  destruct (Z.eqb_spec (client.ChunkSize config) 0) as [Hz|_]; [lia|].
  set (cfg := client.Build_ClientConfig _ _ _ _ _ _).
  change (client.ChunkSize config) with (client.ChunkSize cfg) in Hcs.
  unfold client.fragmentAndSend, goint.quo.
  destruct (Z.eqb_spec (client.ChunkSize cfg) 0) as [Hz|_]; [lia|].
  rewrite (send_loop_panics _ 0 _ "slice bounds out of range").
  - destruct (Z.to_nat _); eauto.
  - unfold client.fragment_step.
    assert (goint.mul 0 (client.ChunkSize cfg) = 0) as -> by done.
    assert (goint.add 0 (client.ChunkSize cfg) = client.ChunkSize cfg) as ->.
    { apply add_exact. unfold goint.in_range, goint.min_int, goint.max_int in *. lia. }
    assert (0 ≤ len body) by (unfold len; lia).
    rewrite bool_decide_false by lia.
    unfold slice. by rewrite bool_decide_false by lia.
Qed.

Lemma client_negative_chunk_size_witness :
  ∃ x,
    client.fragmentAndSend (client.config (client.NewProxyClient negative_chunks))
      (λ _, x07) (λ i, i) "5e55" "POST" "http://echo.test/" (replicate 9 x41) ∅
    = ([], x)
    ∧ (x = Returned None ∨ x = Panicked "slice bounds out of range").
Proof.
  apply (client_negative_chunk_size negative_chunks (λ _, x07) (λ i, i) "5e55"
           "POST" "http://echo.test/" (replicate 9 x41) ∅).
  vm_compute. split; [discriminate|reflexivity].
Defined.

(** X7: a client built by [NewProxyClient] never fails to encrypt: the
    key it is given has 32 bytes.  With a chunk size that is not negative
    (zero stands for 8192) and at least one upstream server, every request
    whose body fits is sent, without error, in [max 1 (ceil (|body| / size))]
    chunks, whether encryption is enabled or not. *)
Theorem NewProxyClient_sends `{!AEAD} (config : client.ClientConfig)
    (rnd : nat → byte) (now : Z → Z) (sessionID method url : string)
    (body : bytes) (headers : gmap string string) :
  let cfg := client.config (client.NewProxyClient config) in
  0 ≤ client.ChunkSize config ≤ goint.max_int →
  len body + client.ChunkSize cfg - 1 ≤ goint.max_int →
  client.UpstreamServers config ≠ [] →
  aes_key_ok (client.EncryptionKey cfg) = true
  ∧ client.ChunkSize cfg
    = (if client.ChunkSize config =? 0 then 8192 else client.ChunkSize config)
  ∧ ∃ sent,
      client.fragmentAndSend cfg rnd now sessionID method url body headers
      = (sent, Returned None)
      ∧ len sent = Z.max 1 (ceil_div (len body) (client.ChunkSize cfg)).
Proof.
  intros cfg Hcs Hov Hup.
  assert (aes_key_ok (client.EncryptionKey cfg) = true) as Hkey by done.
  split; [done|]. split; [done|].
  assert (1 ≤ client.ChunkSize cfg ≤ goint.max_int) as Hcs'.
  { subst cfg. cbn. unfold goint.max_int in *.
    destruct (Z.eqb_spec (client.ChunkSize config) 0); lia. }
  eexists. split.
  - apply fragmentAndSend_spec; done.
  - unfold len at 1. rewrite length_fmap, length_seqZ. unfold chunk_count. lia.
Qed.

Lemma NewProxyClient_sends_witness :
  ∃ sent,
    client.fragmentAndSend
      (client.config
         (client.NewProxyClient
            {| client.ChunkSize := 0;
               client.UpstreamServers := ["upstream-1:8001"];
               client.DownstreamPort := 0; client.Timeout := 0;
               client.Encryption_Enabled := true; client.EncryptionKey := [] |}))
      (λ _, x07) (λ i, i) "5e55" "POST" "http://echo.test/" [x01; x02; x03] ∅
    = (sent, Returned None)
    ∧ len sent = 1.
Proof.
  destruct (NewProxyClient_sends
              {| client.ChunkSize := 0;
                 client.UpstreamServers := ["upstream-1:8001"];
                 client.DownstreamPort := 0; client.Timeout := 0;
                 client.Encryption_Enabled := true; client.EncryptionKey := [] |}
              (λ _, x07) (λ i, i) "5e55" "POST" "http://echo.test/"
              [x01; x02; x03] ∅) as (_ & _ & sent & Hrun & Hlen).
  - vm_compute. split; discriminate.
  - vm_compute. discriminate.
  - discriminate.
  - exists sent. split; [exact Hrun|]. rewrite Hlen. reflexivity.
Defined.

(** ** upstream-server/main.go *)

(** X8: the upstream server answers 200 only when it has forwarded the
    chunk and the central proxy has answered 200.  A chunk it forwards keeps
    its session id, sequence number, total, timestamp, source, target and
    method; its headers are the configured obfuscation headers over the
    original ones; its payload is the original one, encrypted when encryption
    is enabled.  The same chunk is forwarded whatever the central proxy
    answers. *)
Theorem upstream_forwards_chunk `{!AEAD} (cfg : upstream.UpstreamConfig)
    (rnd : nat → byte) (central : Chunk.t → option Z) :
  (∀ r,
     status (upstream.handleChunk cfg rnd central r).1 = StatusOK →
     ∃ forwarded,
       (upstream.handleChunk cfg rnd central r).2 = Some forwarded
       ∧ central forwarded = Some StatusOK)
  ∧ (∀ chunk,
       (common.Enabled (upstream.Encryption cfg) = true →
        aes_key_ok (upstream.EncryptionKey cfg) = true) →
       ∃ forwarded,
         (upstream.handleChunk cfg rnd central (post chunk)).2 = Some forwarded
         ∧ (∀ central', (upstream.handleChunk cfg rnd central' (post chunk)).2
                        = Some forwarded)
         ∧ status (upstream.handleChunk cfg rnd central (post chunk)).1
           = (if bool_decide (central forwarded = Some StatusOK)
              then StatusOK else StatusInternalServerError)
         ∧ Chunk.SessionID forwarded = Chunk.SessionID chunk
         ∧ Chunk.SequenceNum forwarded = Chunk.SequenceNum chunk
         ∧ Chunk.TotalChunks forwarded = Chunk.TotalChunks chunk
         ∧ Chunk.Timestamp forwarded = Chunk.Timestamp chunk
         ∧ Chunk.SourceClient forwarded = Chunk.SourceClient chunk
         ∧ Chunk.TargetURL forwarded = Chunk.TargetURL chunk
         ∧ Chunk.Method forwarded = Chunk.Method chunk
         ∧ (∀ k, Chunk.Headers forwarded !! k
                 = match common.Headers (upstream.Obfuscation cfg) !! k with
                   | Some v => Some v
                   | None => Chunk.Headers chunk !! k
                   end)
         ∧ (if common.Enabled (upstream.Encryption cfg)
            then common.DecryptAES (Chunk.Data forwarded) (upstream.EncryptionKey cfg)
                 = Some (Chunk.Data chunk)
            else Chunk.Data forwarded = Chunk.Data chunk)).
Proof.
  split.
  - intros r. unfold upstream.handleChunk.
    destruct (negb (bool_decide _)); [done|].
    destruct (negb (post_readable r)); [done|].
    destruct (post_chunk r) as [chunk|]; [|done].
    destruct (if common.Enabled (upstream.Encryption cfg) then _ else _)
      as [data|]; [|done].
    case_bool_decide as Hok; [|done]. intros _. eauto.
  - intros chunk Hkey. unfold upstream.handleChunk.
    cbn [post post_method post_readable post_chunk].
    rewrite bool_decide_true by done. cbn [negb].
    assert (∃ data,
              (if common.Enabled (upstream.Encryption cfg)
               then common.EncryptAES rnd
                      (Chunk.Data
                         (Chunk.set_Headers chunk
                            (common.ApplyObfuscation (Chunk.Headers chunk)
                               (upstream.Obfuscation cfg))))
                      (upstream.EncryptionKey cfg)
               else Some (Chunk.Data
                            (Chunk.set_Headers chunk
                               (common.ApplyObfuscation (Chunk.Headers chunk)
                                  (upstream.Obfuscation cfg))))) = Some data
              ∧ (if common.Enabled (upstream.Encryption cfg)
                 then common.DecryptAES data (upstream.EncryptionKey cfg)
                      = Some (Chunk.Data chunk)
                 else data = Chunk.Data chunk)) as (data & -> & Hdata).
    { destruct (common.Enabled (upstream.Encryption cfg)); [|by eexists].
      destruct (DecryptAES_EncryptAES rnd (Chunk.Data chunk)
                  (upstream.EncryptionKey cfg)) as (c & Henc & Hdec); [by apply Hkey|].
      exists c. done. }
    eexists. split_and!.
    + by case_bool_decide.
    + intros central'. by case_bool_decide.
    + by case_bool_decide.
    + done.
    + done.
    + done.
    + done.
    + done.
    + done.
    + done.
    + intros k. cbn. unfold common.ApplyObfuscation. rewrite lookup_union.
      destruct (common.Headers (upstream.Obfuscation cfg) !! k) as [v|];
        destruct (Chunk.Headers chunk !! k); done.
    + done.
Qed.

Lemma upstream_forwards_chunk_witness :
  ∃ forwarded,
    (upstream.handleChunk example_upstream (λ _, x09) (λ _, None)
       (post whole_request)).2 = Some forwarded
    ∧ Chunk.Headers forwarded !! "Accept" = Some "text/html"
    ∧ common.DecryptAES (Chunk.Data forwarded) example_key = Some [x41]
    ∧ status (upstream.handleChunk example_upstream (λ _, x09) (λ _, None)
                (post whole_request)).1 = StatusInternalServerError.
Proof.
  destruct (upstream_forwards_chunk example_upstream (λ _, x09) (λ _, None))
    as [_ Hforward].
  destruct (Hforward whole_request) as (forwarded & Hrun & _ & Hstatus & _ & _
    & _ & _ & _ & _ & _ & Hheaders & Hdata); [reflexivity|].
  exists forwarded. split; [exact Hrun|]. split; [|split].
  - rewrite Hheaders. reflexivity.
  - exact Hdata.
  - rewrite Hstatus. reflexivity.
Defined.

(** ** central-proxy/main.go: fragmenting the response *)

Lemma slice_chunk (body : bytes) (cs i : Z) :
  1 ≤ cs ≤ goint.max_int → len body + cs - 1 ≤ goint.max_int →
  0 ≤ i → i * cs < Z.max 1 (len body) →
  slice body (goint.mul i cs)
    (if bool_decide (goint.add (goint.mul i cs) cs > len body)
     then len body else goint.add (goint.mul i cs) cs)
  = Ret (fragment body cs i).
Proof.
  intros Hcs Hov.
  exact (slice_fragment
           {| client.ChunkSize := cs; client.UpstreamServers := [];
              client.DownstreamPort := 0; client.Timeout := 0;
              client.Encryption_Enabled := false; client.EncryptionKey := [] |}
           body Hcs Hov i).
Qed.

Lemma ceil_div_pos (size chunk_size : Z) :
  0 ≤ size → 1 ≤ chunk_size →
  0 ≤ ceil_div size chunk_size
  ∧ (0 < size → ceil_div size chunk_size = chunk_count size chunk_size)
  ∧ (size = 0 → ceil_div size chunk_size = 0).
Proof.
  intros Hs Hc. rewrite <- ceil_div_spec by lia. unfold chunk_count.
  rewrite <- ceil_div_spec by lia.
  pose proof (Z.div_mod (size + chunk_size - 1) chunk_size ltac:(lia)).
  pose proof (Z.mod_pos_bound (size + chunk_size - 1) chunk_size ltac:(lia)).
  split_and!; [nia|intros; nia|intros; nia].
Qed.

Lemma fragmentAndForward_spec `{!AEAD} (cfg : central.CentralConfig)
    (rnd : nat → byte) (now : Z → Z) (session : Session.t) (first : Chunk.t)
    (response : bytes) :
  1 ≤ central.ChunkSize cfg ≤ goint.max_int →
  len response + central.ChunkSize cfg - 1 ≤ goint.max_int →
  central.DownstreamServers cfg ≠ [] →
  (common.Enabled (central.Encryption cfg) = true →
   aes_key_ok (central.EncryptionKey cfg) = true) →
  Session.Chunks session !! 1 = Some first →
  central.fragmentAndForward cfg rnd now session response
  = ((λ i, (round_robin (central.DownstreamServers cfg) i,
            central_chunk cfg rnd now session first response i))
       <$> seqZ 0 (ceil_div (len response) (central.ChunkSize cfg)),
     Returned None).
Proof.
  intros Hcs Hov Hdown Hkey Hfirst.
  assert (0 ≤ len response) by (unfold len; lia).
  destruct (ceil_div_pos (len response) (central.ChunkSize cfg)) as (Hn0 & Hn1 & _);
    [done|lia|].
  destruct (chunk_count_bounds (len response) (central.ChunkSize cfg))
    as (_ & Hb & _); [done|lia|]. cbn zeta in Hb.
  unfold central.fragmentAndForward.
  rewrite sub_add_exact
    by (unfold goint.in_range, goint.min_int, goint.max_int in *; lia).
  rewrite quo_exact by lia. rewrite ceil_div_spec by lia.
  set (n := ceil_div (len response) (central.ChunkSize cfg)) in *.
  replace (seqZ 0 n) with (seqZ 0 (Z.of_nat (Z.to_nat n)))
    by (by rewrite Z2Nat.id by lia).
  apply send_loop_all. intros k Hk. cbn [fst snd].
  assert (0 < len response) as Hpos.
  { destruct (decide (len response = 0)) as [Hz|]; [|lia].
    destruct (ceil_div_pos (len response) (central.ChunkSize cfg)) as (_ & _ & Hzero);
      [done|lia|]. specialize (Hzero Hz). lia. }
  rewrite <- Hn1 in Hb by done.
  unfold central.forward_step.
  rewrite slice_chunk by (done || nia). cbn [exec_bind]. rewrite Hfirst.
  cbn [exec_bind Chunk.Data].
  unfold central_chunk, central_sealed, common.EncryptAES.
  assert (0 ≤ k * central.ChunkSize cfg) by nia.
  destruct (common.Enabled (central.Encryption cfg)); [rewrite Hkey by done|].
  - rewrite rem_exact; [|unfold goint.max_int in *; nia|by apply len_pos].
    cbn [exec_bind]. rewrite index_round_robin by (done || lia).
    cbn [exec_bind]. do 2 f_equal. unfold Chunk.set_Data. cbn. f_equal.
    rewrite add_exact; [done|].
    unfold goint.in_range, goint.min_int, goint.max_int in *. nia.
  - rewrite rem_exact; [|unfold goint.max_int in *; nia|by apply len_pos].
    cbn [exec_bind]. rewrite index_round_robin by (done || lia).
    cbn [exec_bind]. do 2 f_equal. unfold Chunk.set_Data. cbn. f_equal.
    rewrite add_exact; [done|].
    unfold goint.in_range, goint.min_int, goint.max_int in *. nia.
Qed.

Lemma central_carries_sealed `{!AEAD} cfg rnd now session first response i :
  (common.Enabled (central.Encryption cfg) = true →
   aes_key_ok (central.EncryptionKey cfg) = true) →
  central_carries cfg (central_chunk cfg rnd now session first response i)
    (fragment response (central.ChunkSize cfg) i).
Proof.
  intros Hkey. unfold central_carries, central_chunk, central_sealed. cbn.
  destruct (common.Enabled (central.Encryption cfg)); [|done].
  destruct (DecryptAES_EncryptAES (λ k, rnd (Z.to_nat i * NonceSize + k)%nat)
              (fragment response (central.ChunkSize cfg) i)
              (central.EncryptionKey cfg)) as (c & Henc & Hdec); [by apply Hkey|].
  unfold common.EncryptAES in Henc. rewrite Hkey in Henc by done.
  by injection Henc as <-.
Qed.

(** X9: for every response and every chunk size from 1 on such that
    [|response| + chunk_size - 1] fits Go's [int], a central proxy with a
    downstream server (and a usable key when it encrypts) hands
    [sendToDownstream] exactly [ceil (|response| / chunk_size)] chunks and
    returns no error.  The i-th chunk goes to downstream server
    [(i - 1) mod len(DownstreamServers)], has the session's id, sequence
    number i, that count as its total and the source client of request chunk
    1, and carries the bytes [(i-1)*chunk_size, min (i*chunk_size,
    |response|)) of the response; these ranges, in order, make up the
    response. *)
Theorem central_fragmentation `{!AEAD} (cfg : central.CentralConfig)
    (rnd : nat → byte) (now : Z → Z) (session : Session.t) (first : Chunk.t)
    (response : bytes) :
  1 ≤ central.ChunkSize cfg ≤ goint.max_int →
  len response + central.ChunkSize cfg - 1 ≤ goint.max_int →
  central.DownstreamServers cfg ≠ [] →
  (common.Enabled (central.Encryption cfg) = true →
   aes_key_ok (central.EncryptionKey cfg) = true) →
  Session.Chunks session !! 1 = Some first →
  ∃ sent,
    central.fragmentAndForward cfg rnd now session response = (sent, Returned None)
    ∧ len sent = ceil_div (len response) (central.ChunkSize cfg)
    ∧ (∀ i, 1 ≤ i ≤ len sent →
         ∃ chunk,
           sent !! Z.to_nat (i - 1)
           = Some (round_robin (central.DownstreamServers cfg) (i - 1), chunk)
           ∧ Chunk.SessionID chunk = Session.SessionID session
           ∧ Chunk.SequenceNum chunk = i
           ∧ Chunk.TotalChunks chunk = len sent
           ∧ Chunk.SourceClient chunk = Chunk.SourceClient first
           ∧ central_carries cfg chunk
               (byte_range response (Z.to_nat ((i - 1) * central.ChunkSize cfg))
                  (Z.to_nat (Z.min (i * central.ChunkSize cfg) (len response)))))
    ∧ mjoin ((λ i, byte_range response (Z.to_nat ((i - 1) * central.ChunkSize cfg))
                     (Z.to_nat (Z.min (i * central.ChunkSize cfg) (len response))))
             <$> seqZ 1 (len sent))
      = response.
Proof.
  intros Hcs Hov Hdown Hkey Hfirst.
  assert (0 ≤ len response) by (unfold len; lia).
  destruct (ceil_div_pos (len response) (central.ChunkSize cfg)) as (Hn0 & Hn1 & Hz);
    [done|lia|].
  set (cs := central.ChunkSize cfg) in *.
  set (n := ceil_div (len response) cs) in *.
  exists ((λ i, (round_robin (central.DownstreamServers cfg) i,
                 central_chunk cfg rnd now session first response i))
            <$> seqZ 0 n).
  split; [by apply fragmentAndForward_spec|].
  assert (len ((λ i, (round_robin (central.DownstreamServers cfg) i,
                      central_chunk cfg rnd now session first response i))
               <$> seqZ 0 n) = n) as Hsent.
  { unfold len at 1. rewrite length_fmap, length_seqZ. lia. }
  rewrite Hsent. split; [done|]. split.
  - intros i Hi. eexists. split; [|split_and!].
    + rewrite list_lookup_fmap, lookup_seqZ_lt by lia. cbn.
      replace (0 + Z.of_nat (Z.to_nat (i - 1))) with (i - 1) by lia. reflexivity.
    + done.
    + cbn. lia.
    + done.
    + done.
    + pose proof (central_carries_sealed cfg rnd now session first response (i - 1) Hkey)
        as Hc.
      unfold fragment in Hc. fold cs in Hc.
      by replace (i - 1 + 1) with i in Hc by lia.
  - transitivity (mjoin (fragment response cs <$> seqZ 0 n)).
    + rewrite <- (fmap_add_seqZ 1 0), <- list_fmap_compose. f_equal.
      apply list_fmap_ext. intros _ i _. cbn. unfold fragment.
      replace (1 + i - 1) with i by lia. by replace (1 + i) with (i + 1) by lia.
    + apply fragments_join; [lia|done|].
      destruct (decide (len response = 0)) as [Hzero|Hne]; [lia|].
      rewrite Hn1 by lia.
      by destruct (chunk_count_bounds (len response) cs) as (_ & _ & ?); [done|lia|].
Qed.

Lemma central_fragmentation_witness :
  ∃ sent,
    central.fragmentAndForward (central.config (example_central encryption_on))
      (λ _, x07) (λ i, i) whole_session [x01; x02; x03; x04; x05]
    = (sent, Returned None)
    ∧ len sent = 3.
Proof.
  destruct (central_fragmentation (central.config (example_central encryption_on))
              (λ _, x07) (λ i, i) whole_session whole_request
              [x01; x02; x03; x04; x05]) as (sent & Hrun & Hlen & _).
  - vm_compute. split; discriminate.
  - vm_compute. discriminate.
  - discriminate.
  - reflexivity.
  - reflexivity.
  - exists sent. split; [exact Hrun|]. rewrite Hlen. reflexivity.
Defined.

(** ** central-proxy/main.go: sessions that stay *)

(** X10: when the outbound request of a complete session cannot be
    created, or is issued and fails, [processCompleteSession] returns at
    once: nothing is dispatched to any downstream server, and the session
    stays in the session map, as after a missing chunk. *)
Theorem central_failed_request_keeps_session `{!AEAD} `{!Net}
    (p : central.CentralProxy) (w : internet) (rnd : nat → byte) (now : Z → Z)
    (l : nat) (session : Session.t) (fullData : bytes) :
  central.heap p !! l = Some session →
  reassemble (Session.Chunks session) 1
    (Z.to_nat (Session.TotalChunks session)) [] = inr fullData →
  let req := {| req_method := Session.Method session;
                req_url := Session.TargetURL session;
                req_header := central.set_headers (Session.Headers session);
                req_body := fullData |} in
  (NewRequest_ok (Session.Method session) (Session.TargetURL session) = false →
   central.processCompleteSession p w rnd now l
   = {| central.proxy := p; central.net := w; central.outbound := [];
        central.dispatched := []; central.crashed := None |})
  ∧ (NewRequest_ok (Session.Method session) (Session.TargetURL session) = true →
     (Do w req).2 = None →
     central.processCompleteSession p w rnd now l
     = {| central.proxy := p; central.net := (Do w req).1;
          central.outbound := [req]; central.dispatched := [];
          central.crashed := None |}).
Proof.
  intros Hl Hre req. unfold central.processCompleteSession.
  rewrite Hl, Hre. unfold central.performProxyRequest. split.
  - by intros ->.
  - intros -> Hfail. fold req. by destruct (Do w req) as [w' [response|]].
Qed.

Lemma central_failed_request_keeps_session_witness :
  central.processCompleteSession (holding encryption_off unreachable_session)
    untouched (λ _, x07) (λ i, i) 0
  = {| central.proxy := holding encryption_off unreachable_session;
       central.net := 1%nat;
       central.outbound :=
         [ {| req_method := "POST"; req_url := "http://unreachable.test/";
              req_header := ∅; req_body := [x41] |} ];
       central.dispatched := []; central.crashed := None |}.
Proof.
  destruct (central_failed_request_keeps_session
              (holding encryption_off unreachable_session) untouched (λ _, x07)
              (λ i, i) 0 unreachable_session [x41]) as [_ Hfails].
  - reflexivity.
  - reflexivity.
  - apply Hfails; reflexivity.
Defined.



(** X12: whatever is posted to the central proxy, a session that exists
    keeps its pointer, its id, its total, its target, method and headers, and
    the time it was first seen: these are fixed by the first chunk to arrive,
    later chunks only add to (or replace in) its chunk map, and the timeout
    of the sweep runs from the first chunk. *)
Theorem central_session_metadata_fixed `{!AEAD} (p : central.CentralProxy)
    (now : Z) (r : ChunkPost) (sessionID : string) (l : nat)
    (session : Session.t) :
  central.sessions p !! sessionID = Some l →
  central.heap p !! l = Some session →
  ∃ session',
    central.sessions (central.handleChunk p now r).1.1 !! sessionID = Some l
    ∧ central.heap (central.handleChunk p now r).1.1 !! l = Some session'
    ∧ Session.SessionID session' = Session.SessionID session
    ∧ Session.TotalChunks session' = Session.TotalChunks session
    ∧ Session.ReceivedAt session' = Session.ReceivedAt session
    ∧ Session.TargetURL session' = Session.TargetURL session
    ∧ Session.Method session' = Session.Method session
    ∧ Session.Headers session' = Session.Headers session
    ∧ ∀ seq, is_Some (Session.Chunks session !! seq) →
             is_Some (Session.Chunks session' !! seq).
Proof.
  intros Hsid Hl. pose proof (lookup_lt_Some _ _ _ Hl) as Hlt.
  unfold central.handleChunk.
  destruct (negb (bool_decide _)); [by exists session|].
  destruct (negb (post_readable r)); [by exists session|].
  destruct (post_chunk r) as [chunk|]; [|by exists session].
  destruct (if common.Enabled (central.Encryption (central.config p)) then _ else _)
    as [data|]; [|by exists session].
  change (Chunk.SessionID (Chunk.set_Data chunk data)) with (Chunk.SessionID chunk).
  unfold central.insert_chunk, central.set_sessions.
  destruct (central.sessions p !! Chunk.SessionID chunk) as [l2|] eqn:Hsid2.
  - destruct (central.heap p !! l2) as [session2|] eqn:Hl2; [|by exists session].
    cbn. destruct (decide (l2 = l)) as [->|Hne].
    + rewrite Hl in Hl2. injection Hl2 as <-.
      eexists. rewrite list_lookup_insert_eq by done. split_and!; try done.
      intros seq Hseq. cbn.
      destruct (decide (Chunk.SequenceNum chunk = seq)) as [->|Hseq'].
      * by rewrite lookup_insert_eq.
      * by rewrite lookup_insert_ne.
    + exists session. by rewrite list_lookup_insert_ne.
  - cbn. exists session.
    assert (Chunk.SessionID chunk ≠ sessionID) by congruence.
    rewrite lookup_insert_ne by done.
    rewrite list_lookup_insert_ne by lia.
    by rewrite lookup_app_l.
Qed.

Lemma central_session_metadata_fixed_witness :
  ∃ session',
    central.heap
      (central.handleChunk (holding encryption_off whole_session) 500
         (post stray_chunk)).1.1 !! 0%nat = Some session'
    ∧ Session.ReceivedAt session' = 0
    ∧ Session.TotalChunks session' = 1.
Proof.
  destruct (central_session_metadata_fixed (holding encryption_off whole_session)
              500 (post stray_chunk) "5e55" 0 whole_session)
    as (session' & _ & Hl & _ & Htotal & Hat & _).
  - reflexivity.
  - reflexivity.
  - exists session'. split; [exact Hl|]. split.
    + rewrite Hat. reflexivity.
    + rewrite Htotal. reflexivity.
Defined.

(** ** starlink-gateway/main.go: batches, registrations, headers *)

#[local] Instance creatable_dec `{!Net} t : Decision (creatable t).
Proof. unfold creatable. apply _. Defined.




(** X14: [handleNodeRegistration] never looks at the secret: whoever
    names a configured node id gets a token.  A registration replaces the
    node's token, so after a second registration the gateway accepts for that
    node the token of the second registration and no other (the first
    registrant's token is turned away unless the two are equal), while the
    tokens of all other nodes stay as they were. *)
Theorem gateway_reregistration (g : gateway.StarlinkGateway)
    (rnd rnd' : nat → byte) (node secret secret' : string) :
  node ∈ gateway.AuthenticatedNodes (gateway.config g) →
  let g1 := registered g rnd node secret in
  let g2 := registered g1 rnd' node secret' in
  (∀ s, gateway.handleNodeRegistration g rnd
          (register_post {| gateway.node_id := node; gateway.secret := s |})
        = gateway.handleNodeRegistration g rnd
            (register_post {| gateway.node_id := node; gateway.secret := secret |}))
  ∧ (∀ token, gateway.authenticateNode g1 node token = true
              ↔ token = gateway.generateToken rnd)
  ∧ (∀ token, gateway.authenticateNode g2 node token = true
              ↔ token = gateway.generateToken rnd')
  ∧ (gateway.generateToken rnd ≠ gateway.generateToken rnd' →
     gateway.authenticateNode g2 node (gateway.generateToken rnd) = false)
  ∧ (∀ other token, other ≠ node →
       gateway.authenticateNode g2 other token
       = gateway.authenticateNode g other token).
Proof.
  intros Hknown g1 g2. apply authorized_elem_of in Hknown as Hauth.
  assert (∀ (g0 : gateway.StarlinkGateway) r s,
            gateway.AuthenticatedNodes (gateway.config g0)
            = gateway.AuthenticatedNodes (gateway.config g) →
            registered g0 r node s
            = gateway.set_NodeTokens g0
                (<[node := gateway.generateToken r]>
                   (gateway.NodeTokens (gateway.config g0)))) as Hreg.
  { intros g0 r s Hnodes. unfold registered, gateway.handleNodeRegistration. cbn.
    rewrite Hnodes, Hauth. done. }
  assert (g1 = gateway.set_NodeTokens g
                 (<[node := gateway.generateToken rnd]>
                    (gateway.NodeTokens (gateway.config g)))) as Hg1
    by (by apply Hreg).
  assert (g2 = gateway.set_NodeTokens g1
                 (<[node := gateway.generateToken rnd']>
                    (gateway.NodeTokens (gateway.config g1)))) as Hg2
    by (apply Hreg; by rewrite Hg1).
  assert (∀ token, gateway.authenticateNode g2 node token = true
                   ↔ token = gateway.generateToken rnd') as Hsecond.
  { intros token. rewrite Hg2. unfold gateway.authenticateNode. cbn.
    rewrite lookup_insert_eq, bool_decide_eq_true. split; congruence. }
  split_and!.
  - done.
  - intros token. rewrite Hg1. unfold gateway.authenticateNode. cbn.
    rewrite lookup_insert_eq, bool_decide_eq_true. split; congruence.
  - exact Hsecond.
  - intros Hdiff.
    destruct (gateway.authenticateNode g2 node (gateway.generateToken rnd)) eqn:Hacc;
      [|done].
    by apply Hsecond in Hacc.
  - intros other token Hother. rewrite Hg2, Hg1. unfold gateway.authenticateNode.
    cbn. by rewrite !lookup_insert_ne by done.
Qed.

Lemma gateway_reregistration_witness :
  gateway.authenticateNode
    (registered (registered (example_gateway true) (λ _, x3c) "relay-1" "secret")
       (λ _, x5d) "relay-1" "")
    "relay-1" (gateway.generateToken (λ _, x3c))
  = false.
Proof.
  destruct (gateway_reregistration (example_gateway true) (λ _, x3c) (λ _, x5d)
              "relay-1" "secret" "") as (_ & _ & _ & Hrevoked & _).
  - apply list_elem_of_singleton. reflexivity.
  - apply Hrevoked. vm_compute. discriminate.
Defined.

Lemma gateway_set_headers_kept `{!Net} (headers : gmap string string) :
  ∀ k v,
    headers !! k = Some v → k ≠ "X-Node-ID" → k ≠ "X-Auth-Token" →
    (∀ k2 v2, headers !! k2 = Some v2 → k2 ≠ "X-Node-ID" → k2 ≠ "X-Auth-Token" →
              CanonicalMIMEHeaderKey k2 = CanonicalMIMEHeaderKey k → k2 = k) →
    gateway.set_headers headers !! CanonicalMIMEHeaderKey k = Some v.
Proof.
  unfold gateway.set_headers.
  apply (map_fold_weak_ind
           (λ r m, ∀ k v, m !! k = Some v → k ≠ "X-Node-ID" → k ≠ "X-Auth-Token" →
              (∀ k2 v2, m !! k2 = Some v2 → k2 ≠ "X-Node-ID" → k2 ≠ "X-Auth-Token" →
                        CanonicalMIMEHeaderKey k2 = CanonicalMIMEHeaderKey k → k2 = k) →
              r !! CanonicalMIMEHeaderKey k = Some v)).
  - intros k v Hk. by rewrite lookup_empty in Hk.
  - intros i x m r Hi IH k v Hk Hnode Htoken Huniq.
    destruct (decide (i = k)) as [->|Hne].
    + rewrite lookup_insert_eq in Hk. injection Hk as ->.
      rewrite bool_decide_true by done. by rewrite lookup_insert_eq.
    + rewrite lookup_insert_ne in Hk by done.
      assert (r !! CanonicalMIMEHeaderKey k = Some v) as Hr.
      { apply IH; [done|done|done|]. intros k2 v2 Hk2 ? ? Hcanon.
        apply (Huniq k2 v2); [|done|done|done].
        rewrite lookup_insert_ne; [done|]. intros ->. congruence. }
      case_bool_decide as Hkeep; [|done].
      destruct Hkeep as [? ?]. rewrite lookup_insert_ne; [done|].
      intros Hcanon. apply Hne, (Huniq i x); [|done|done|done].
      by rewrite lookup_insert_eq.
Qed.

(** X15: the headers of the gateway's outbound request are exactly the
    headers of the request it proxies other than those spelled [X-Node-ID]
    and [X-Auth-Token], each under the canonical form of its key.  The two
    names are compared as they are spelled: a header with another spelling of
    the same name is kept, and set under the canonical key. *)
Theorem gateway_outbound_headers `{!Net} (headers : gmap string string) :
  (∀ k' v,
     gateway.set_headers headers !! k' = Some v →
     ∃ k, headers !! k = Some v ∧ k ≠ "X-Node-ID" ∧ k ≠ "X-Auth-Token"
          ∧ CanonicalMIMEHeaderKey k = k')
  ∧ (∀ k v,
       headers !! k = Some v → k ≠ "X-Node-ID" → k ≠ "X-Auth-Token" →
       (∀ k2 v2, headers !! k2 = Some v2 → k2 ≠ "X-Node-ID" → k2 ≠ "X-Auth-Token" →
                 CanonicalMIMEHeaderKey k2 = CanonicalMIMEHeaderKey k → k2 = k) →
       gateway.set_headers headers !! CanonicalMIMEHeaderKey k = Some v).
Proof.
  split.
  - apply gateway_set_headers_lookup.
  - apply gateway_set_headers_kept.
Qed.

Lemma gateway_outbound_headers_witness :
  gateway.set_headers {[ "x-auth-token" := "5ec2e7"; "X-Auth-Token" := "0ff1ce" ]}
    !! "X-Auth-Token" = Some "5ec2e7".
Proof.
  destruct (gateway_outbound_headers
              {[ "x-auth-token" := "5ec2e7"; "X-Auth-Token" := "0ff1ce" ]})
    as [_ Hkept].
  apply (Hkept "x-auth-token" "5ec2e7").
  - reflexivity.
  - discriminate.
  - discriminate.
  - intros k2 v2 Hk2 Hnode Htoken _. cbn in Hk2.
    apply lookup_insert_Some in Hk2 as [[<- _]|[_ Hk2]]; [done|].
    apply lookup_singleton_Some in Hk2 as [<- _]. done.
Defined.

(** ** relay-node/main.go: forwarding, registration, the buffer *)

Lemma distinct_header_names_ne `{!Net} :
  distinct_header_names →
  ∀ a b, a ∈ ["Content-Type"; "X-Request-ID"; "X-From-Node"; "X-Node-ID";
              "X-Auth-Token"] →
         b ∈ ["Content-Type"; "X-Request-ID"; "X-From-Node"; "X-Node-ID";
              "X-Auth-Token"] →
         a ≠ b → CanonicalMIMEHeaderKey a ≠ CanonicalMIMEHeaderKey b.
Proof.
  intros Hnd a b Ha Hb Hne Heq. apply Hne.
  apply list_elem_of_lookup in Ha as [i Hi]. apply list_elem_of_lookup in Hb as [j Hj].
  assert (i = j) as ->.
  { apply (NoDup_lookup _ i j (CanonicalMIMEHeaderKey a) Hnd).
    - by rewrite list_lookup_fmap, Hi.
    - by rewrite list_lookup_fmap, Hj, Heq. }
  congruence.
Qed.

Lemma forwardTraffic_target `{!Net} (r : relay.RelayNode) (hop : Request → option Z)
    (data : bytes) (requestID fromNode url : string) :
  forward_target r url →
  NewRequest_ok MethodPost url = true →
  relay.forwardTraffic r hop data requestID fromNode
  = Ret ([forwarded_request r url requestID data],
         match hop (forwarded_request r url requestID data) with
         | None => Some relay.request_error
         | Some code =>
             if bool_decide (code ≠ StatusOK ∧ code ≠ StatusAccepted)
             then Some (relay.next_hop_returned_status code)
             else None
         end).
Proof.
  intros Htarget Hok. unfold relay.forwardTraffic.
  assert ((if bool_decide (relay.GatewayURL (relay.config r) ≠ EmptyString)
           then Ret (relay.GatewayURL (relay.config r))
           else nextHop ←! relay.nextHop r;
                Ret ("http://" +:+ nextHop +:+ "/relay")%string) = Ret url) as ->.
  { destruct Htarget as [[Hgw ->]|[Hgw (h & Hh & ->)]].
    - by rewrite bool_decide_true.
    - rewrite bool_decide_false by (by intros ?). by rewrite Hh. }
  cbn [exec_bind]. rewrite Hok. fold (forwarded_request r url requestID data).
  destruct (hop _) as [code|]; [|done]. by case_bool_decide.
Qed.

Lemma forwardTraffic_request `{!Net} (r : relay.RelayNode)
    (hop : Request → option Z) (data : bytes) (requestID fromNode url : string) :
  distinct_header_names →
  forward_target r url → NewRequest_ok MethodPost url = true →
  ∃ req err,
    relay.forwardTraffic r hop data requestID fromNode = Ret ([req], err)
    ∧ req_method req = MethodPost
    ∧ req_url req = url
    ∧ req_body req = data
    ∧ relay.Header_Get (req_header req) "X-Request-ID" = requestID
    ∧ relay.Header_Get (req_header req) "X-From-Node" = relay.NodeID (relay.config r)
    ∧ (err = None ↔ hop req = Some StatusOK ∨ hop req = Some StatusAccepted)
    ∧ (relay.GatewayURL (relay.config r) ≠ EmptyString →
       relay.AuthToken (relay.config r) ≠ EmptyString →
       req_header req !! CanonicalMIMEHeaderKey "X-Node-ID"
       = Some (relay.NodeID (relay.config r))
       ∧ req_header req !! CanonicalMIMEHeaderKey "X-Auth-Token"
         = Some (relay.AuthToken (relay.config r)))
    ∧ (relay.GatewayURL (relay.config r) = EmptyString
       ∨ relay.AuthToken (relay.config r) = EmptyString →
       req_header req !! CanonicalMIMEHeaderKey "X-Node-ID" = None
       ∧ req_header req !! CanonicalMIMEHeaderKey "X-Auth-Token" = None).
Proof.
  intros Hnames Htarget Hok. do 2 eexists.
  split; [by apply forwardTraffic_target|].
  pose proof (distinct_header_names_ne Hnames) as Hne.
  assert (∀ a b, a ∈ ["Content-Type"; "X-Request-ID"; "X-From-Node"; "X-Node-ID";
                      "X-Auth-Token"] →
                 b ∈ ["Content-Type"; "X-Request-ID"; "X-From-Node"; "X-Node-ID";
                      "X-Auth-Token"] →
                 bool_decide (a = b) = false →
                 CanonicalMIMEHeaderKey a ≠ CanonicalMIMEHeaderKey b) as Hne'.
  { intros a b Ha Hb Hab. apply Hne; [done|done|].
    by apply bool_decide_eq_false in Hab. }
  assert (∀ a, bool_decide (a ∈ ["Content-Type"; "X-Request-ID"; "X-From-Node";
                                 "X-Node-ID"; "X-Auth-Token"]) = true →
               a ∈ ["Content-Type"; "X-Request-ID"; "X-From-Node"; "X-Node-ID";
                    "X-Auth-Token"]) as Hin
    by (intros a; apply bool_decide_eq_true).
  cbn [req_method req_url req_body req_header forwarded_request].
  split_and!; try done.
  - unfold relay.Header_Get, relay.forward_headers, relay.Header_Set.
    case_bool_decide.
    + rewrite !lookup_insert_ne by (apply Hne'; auto).
      by rewrite lookup_insert_eq.
    + rewrite !lookup_insert_ne by (apply Hne'; auto).
      by rewrite lookup_insert_eq.
  - unfold relay.Header_Get, relay.forward_headers, relay.Header_Set.
    case_bool_decide.
    + rewrite !lookup_insert_ne by (apply Hne'; auto).
      by rewrite lookup_insert_eq.
    + by rewrite lookup_insert_eq.
  - destruct (hop _) as [code|]; [|split; [done|by intros [?|?]]].
    unfold StatusOK, StatusAccepted in *.
    case_bool_decide as Hcode; split; try done.
    + intros [[= ->]|[= ->]]; lia.
    + intros _. destruct (decide (code = 200)) as [->|]; [by left|].
      destruct (decide (code = 202)) as [->|]; [by right|]. lia.
  - intros Hgw Htoken. unfold relay.forward_headers, relay.Header_Set.
    rewrite bool_decide_true by done. split.
    + rewrite lookup_insert_ne by (apply Hne'; auto).
      by rewrite lookup_insert_eq.
    + by rewrite lookup_insert_eq.
  - intros Hnone. unfold relay.forward_headers, relay.Header_Set.
    rewrite bool_decide_false by (intros [? ?]; by destruct Hnone).
    split.
    + rewrite !lookup_insert_ne by (apply Hne'; auto). done.
    + rewrite !lookup_insert_ne by (apply Hne'; auto). done.
Qed.

(** X16: what the relay forwards goes to the gateway URL as configured
    when there is one, and otherwise to the [/relay] endpoint of the next hop
    under the cursor; it carries the body it was given, the request id, and
    the relay's own node id as [X-From-Node].  The relay's credentials
    ([X-Node-ID], [X-Auth-Token]) are attached on the way to the gateway when
    the relay has a token, and never on the way to another relay.  The
    forward succeeds exactly when the receiver answers 200 or 202.  With
    neither a gateway nor a next hop the relay panics. *)
Theorem relay_forward_request `{!Net} (r : relay.RelayNode)
    (hop : Request → option Z) (data : bytes) (requestID fromNode url : string) :
  distinct_header_names →
  (forward_target r url → NewRequest_ok MethodPost url = true →
   ∃ req err,
     relay.forwardTraffic r hop data requestID fromNode = Ret ([req], err)
     ∧ req_method req = MethodPost
     ∧ req_url req = url
     ∧ req_body req = data
     ∧ relay.Header_Get (req_header req) "X-Request-ID" = requestID
     ∧ relay.Header_Get (req_header req) "X-From-Node" = relay.NodeID (relay.config r)
     ∧ (err = None ↔ hop req = Some StatusOK ∨ hop req = Some StatusAccepted)
     ∧ (relay.GatewayURL (relay.config r) ≠ EmptyString →
        relay.AuthToken (relay.config r) ≠ EmptyString →
        req_header req !! CanonicalMIMEHeaderKey "X-Node-ID"
        = Some (relay.NodeID (relay.config r))
        ∧ req_header req !! CanonicalMIMEHeaderKey "X-Auth-Token"
          = Some (relay.AuthToken (relay.config r)))
     ∧ (relay.GatewayURL (relay.config r) = EmptyString
        ∨ relay.AuthToken (relay.config r) = EmptyString →
        req_header req !! CanonicalMIMEHeaderKey "X-Node-ID" = None
        ∧ req_header req !! CanonicalMIMEHeaderKey "X-Auth-Token" = None))
  ∧ (relay.GatewayURL (relay.config r) = EmptyString →
     relay.NextHops (relay.config r) = [] →
     relay.forwardTraffic r hop data requestID fromNode
     = Panic "index out of range").
Proof.
  intros Hnames. split.
  - intros Htarget Hok. by apply forwardTraffic_request.
  - intros Hgw Hhops. unfold relay.forwardTraffic, relay.nextHop, index.
    rewrite bool_decide_false by (by intros ?). rewrite Hhops.
    case_bool_decide; [|done]. by rewrite lookup_nil.
Qed.

Lemma example_names_distinct : distinct_header_names.
Proof.
  unfold distinct_header_names. refine (bool_decide_unpack _ _).
  vm_compute. exact I.
Qed.

Lemma relay_forward_request_witness :
  ∃ req err,
    relay.forwardTraffic example_relay (λ _, Some StatusOK) [x41] "req-1" "relay-0"
    = Ret ([req], err)
    ∧ req_url req = "http://relay-2:9100/relay"
    ∧ req_header req !! "X-Auth-Token" = None.
Proof.
  destruct (relay_forward_request example_relay (λ _, Some StatusOK) [x41] "req-1"
              "relay-0" "http://relay-2:9100/relay" example_names_distinct)
    as [Hforward _].
  destruct Hforward as (req & err & Hrun & _ & Hurl & _ & _ & _ & _ & _ & Hbare).
  - right. split; [reflexivity|]. exists "relay-2:9100". split; reflexivity.
  - reflexivity.
  - exists req, err. split; [exact Hrun|]. split; [exact Hurl|].
    apply Hbare. left. reflexivity.
Defined.








(** ** Chunks that arrive in any order *)

Section arrivals.
Variables (n : Z) (chunk_at : Z → Chunk.t).
Hypothesis seq_at : ∀ i, Chunk.SequenceNum (chunk_at i) = i + 1.

Lemma arrivals_NoDup : NoDup (Chunk.SequenceNum <$> (chunk_at <$> seqZ 0 n)).
Proof.
  assert (Chunk.SequenceNum <$> (chunk_at <$> seqZ 0 n) = Z.add 1 <$> seqZ 0 n) as ->.
  { rewrite <- list_fmap_compose. apply list_fmap_ext.
    intros _ i _. cbn. rewrite seq_at. lia. }
  rewrite fmap_add_seqZ. apply NoDup_seqZ.
Qed.

Lemma arrivals_length : length (chunk_at <$> seqZ 0 n) = Z.to_nat n.
Proof. by rewrite length_fmap, length_seqZ. Qed.

Lemma arrivals_at (arrived : list Chunk.t) (i : Z) :
  arrived ≡ₚ chunk_at <$> seqZ 0 n → 0 ≤ i < n →
  stored arrived !! (i + 1) = Some (chunk_at i).
Proof.
  intros Hperm Hi. rewrite <- seq_at. apply stored_lookup.
  - rewrite Hperm. apply arrivals_NoDup.
  - rewrite Hperm. apply list_elem_of_fmap_2, elem_of_seqZ. lia.
Qed.

(** Once every chunk is stored, whatever the order of arrival, the
    reassembly loop returns the payloads in the order of the sequence
    numbers. *)
Lemma reassemble_arrivals (arrived : list Chunk.t) :
  0 ≤ n → arrived ≡ₚ chunk_at <$> seqZ 0 n →
  reassemble (stored arrived) 1 (Z.to_nat n) []
  = inr (mjoin ((λ i, Chunk.Data (chunk_at i)) <$> seqZ 0 n)).
Proof.
  intros Hn Hperm.
  rewrite (reassemble_all _ (λ j, chunk_at (j - 1))).
  - cbn [app]. f_equal. rewrite Z2Nat.id by lia.
    rewrite <- (fmap_add_seqZ 1 0), <- list_fmap_compose. f_equal.
    apply list_fmap_ext. intros _ i _. cbn. f_equal. f_equal. lia.
  - intros j Hj. replace j with (j - 1 + 1) at 1 by lia.
    apply arrivals_at; [done|lia].
Qed.

End arrivals.

Section client_arrivals.
Context `{!AEAD}.
Variables (sessionID : string) (n : Z) (chunk_at : Z → Chunk.t).
Hypothesis seq_at : ∀ i, Chunk.SequenceNum (chunk_at i) = i + 1.
Hypothesis session_at : ∀ i, Chunk.SessionID (chunk_at i) = sessionID.
Hypothesis total_at : ∀ i, Chunk.TotalChunks (chunk_at i) = n.
Hypothesis some_chunk : 1 ≤ n.

(** The listener of a client that does not decrypt, given the chunks
    still to come in any order, ends with the payloads, joined in the order
    of the sequence numbers, in the channel of the session. *)
Lemma client_serve_arrivals (l : nat) (rest arrived : list Chunk.t)
    (c : client.ProxyClient) (s : client.PendingSession) :
  rest ≠ [] →
  arrived ++ rest ≡ₚ chunk_at <$> seqZ 0 n →
  client.Encryption_Enabled (client.config c) = false →
  client.pendingSessions c !! sessionID = Some l →
  client.heap c !! l = Some s →
  client.Chunks s = stored arrived →
  client.ResponseChan s = [] →
  ∃ s',
    client.heap (client.serve c (post <$> rest)) !! l = Some s'
    ∧ client.ResponseChan s'
      = [assembled (mjoin ((λ i, Chunk.Data (chunk_at i)) <$> seqZ 0 n))].
Proof.
  revert arrived c s.
  induction rest as [|chunk rest IH];
    intros arrived c s Hne Hperm Hplain Hsid Hl Hch Hchan; [done|].
  assert (chunk ∈ chunk_at <$> seqZ 0 n) as Hin by (rewrite <- Hperm; set_solver).
  apply list_elem_of_fmap in Hin as (i & -> & _).
  assert ((arrived ++ [chunk_at i]) ++ rest ≡ₚ chunk_at <$> seqZ 0 n) as Hperm'
    by (by rewrite <- app_assoc).
  assert (NoDup (Chunk.SequenceNum <$> arrived ++ [chunk_at i])) as Hnd.
  { pose proof (arrivals_NoDup n chunk_at seq_at) as Hc.
    rewrite <- Hperm', fmap_app in Hc. by apply NoDup_app in Hc as (? & _). }
  assert (length (arrived ++ [chunk_at i]) + length rest = Z.to_nat n)%nat as Hlen.
  { rewrite <- (arrivals_length n chunk_at), <- Hperm'. by rewrite !length_app. }
  pose proof (lookup_lt_Some _ _ _ Hl) as Hlt.
  cbn [fmap list_fmap client.serve].
  unfold client.handleResponseChunk. cbn [post post_method post_readable post_chunk].
  rewrite Hplain. rewrite bool_decide_true by done. cbn [negb].
  replace (Chunk.set_Data (chunk_at i) (Chunk.Data (chunk_at i))) with (chunk_at i)
    by (by destruct (chunk_at i)).
  rewrite session_at, Hsid, Hl.
  set (s1 := client.add_chunk s (chunk_at i)).
  assert (client.Chunks s1 = stored (arrived ++ [chunk_at i])) as Hch1
    by (subst s1; cbn; by rewrite stored_snoc, Hch).
  assert (client.TotalChunks s1 = n) as Htot1 by (subst s1; cbn; apply total_at).
  rewrite Hch1, Htot1, stored_size by done.
  set (c1 := client.set_sessions c (client.pendingSessions c)
               (<[l:=s1]> (client.heap c))).
  assert (client.heap c1 !! l = Some s1) as Hl1
    by (subst c1; cbn; by rewrite list_lookup_insert_eq).
  destruct rest as [|next rest].
  - change (length (@nil Chunk.t)) with 0%nat in Hlen.
    rewrite bool_decide_true by lia.
    cbn [fmap list_fmap client.serve]. rewrite app_nil_r in Hperm'.
    unfold client.assembleResponse. rewrite Hl1, Hch1, Htot1.
    rewrite (reassemble_arrivals n chunk_at) by (done || lia).
    replace (client.ResponseChan s1) with (@nil client.ProxyResponse) by done.
    cbn. rewrite list_lookup_insert_eq by (by rewrite length_insert).
    eexists. split; done.
  - change (length (next :: rest)) with (S (length rest)) in Hlen.
    rewrite bool_decide_false by lia.
    apply (IH (arrived ++ [chunk_at i]) c1 s1); done.
Qed.

End client_arrivals.


Section central_arrivals.
Context `{!AEAD} `{!Net}.
Variables (sessionID method url : string) (n : Z) (chunk_at : Z → Chunk.t).
Hypothesis seq_at : ∀ i, Chunk.SequenceNum (chunk_at i) = i + 1.
Hypothesis session_at : ∀ i, Chunk.SessionID (chunk_at i) = sessionID.
Hypothesis total_at : ∀ i, Chunk.TotalChunks (chunk_at i) = n.
Hypothesis method_at : ∀ i, Chunk.Method (chunk_at i) = method.
Hypothesis url_at : ∀ i, Chunk.TargetURL (chunk_at i) = url.



End central_arrivals.

(** ** The request path, end to end *)





(** ** downstream-server/main.go *)

Lemma downstream_chunk_fields `{!AEAD} (cfg : downstream.DownstreamConfig)
    (rnd : nat → byte) (i : Z) (chunk : Chunk.t) :
  Chunk.SessionID (downstream_chunk cfg rnd i chunk) = Chunk.SessionID chunk
  ∧ Chunk.SequenceNum (downstream_chunk cfg rnd i chunk) = Chunk.SequenceNum chunk
  ∧ Chunk.TotalChunks (downstream_chunk cfg rnd i chunk) = Chunk.TotalChunks chunk
  ∧ Chunk.Data (downstream_chunk cfg rnd i chunk)
    = downstream_sealed cfg rnd i (Chunk.Data chunk).
Proof. unfold downstream_chunk. by case_bool_decide. Qed.

Lemma downstream_carries_sealed `{!AEAD} (cfg : downstream.DownstreamConfig)
    (rnd : nat → byte) (i : Z) (chunk : Chunk.t) :
  (common.Enabled (downstream.Encryption cfg) = true →
   aes_key_ok (downstream.EncryptionKey cfg) = true) →
  downstream_carries cfg (downstream_chunk cfg rnd i chunk) (Chunk.Data chunk).
Proof.
  intros Hkey. unfold downstream_carries.
  destruct (downstream_chunk_fields cfg rnd i chunk) as (_ & _ & _ & ->).
  unfold downstream_sealed.
  destruct (common.Enabled (downstream.Encryption cfg)); [|done].
  destruct (DecryptAES_EncryptAES (λ k, rnd (Z.to_nat i * NonceSize + k)%nat)
              (Chunk.Data chunk) (downstream.EncryptionKey cfg))
    as (c & Henc & Hdec); [by apply Hkey|].
  unfold common.EncryptAES in Henc. rewrite Hkey in Henc by done.
  by injection Henc as <-.
Qed.

Lemma deliver_loop_all `{!AEAD} (cfg : downstream.DownstreamConfig)
    (rnd : nat → byte) (clientAddr : string) (chunk_of : Z → Chunk.t) (n : nat) :
  (common.Enabled (downstream.Encryption cfg) = true →
   aes_key_ok (downstream.EncryptionKey cfg) = true) →
  ∀ (session : Session.t) (i : Z),
    (∀ j, i ≤ j < i + Z.of_nat n → Session.Chunks session !! j = Some (chunk_of j)) →
    (downstream.deliver_loop cfg rnd session clientAddr i n).2
    = (λ j, (clientAddr, downstream_chunk cfg rnd j (chunk_of j)))
        <$> seqZ i (Z.of_nat n).
Proof.
  intros Hkey. induction n as [|n IH]; intros session i Hall; [done|].
  cbn [downstream.deliver_loop]. rewrite Hall by lia.
  set (chunk1 := if bool_decide (common.Type_ (downstream.Obfuscation cfg) ≠ EmptyString)
                 then _ else _).
  assert (Chunk.Data chunk1 = Chunk.Data (chunk_of i)) as Hdata
    by (subst chunk1; by case_bool_decide).
  assert ((if common.Enabled (downstream.Encryption cfg)
           then common.EncryptAES (λ k, rnd (Z.to_nat i * NonceSize + k)%nat)
                  (Chunk.Data chunk1) (downstream.EncryptionKey cfg)
           else Some (Chunk.Data chunk1))
          = Some (downstream_sealed cfg rnd i (Chunk.Data (chunk_of i)))) as ->.
  { rewrite Hdata. unfold downstream_sealed, common.EncryptAES.
    destruct (common.Enabled (downstream.Encryption cfg)); [|done].
    by rewrite Hkey. }
  fold (downstream_chunk cfg rnd i (chunk_of i)).
  specialize (IH (Session.store session i (downstream_chunk cfg rnd i (chunk_of i)))
                (i + 1)).
  destruct (downstream.deliver_loop cfg rnd _ clientAddr (i + 1) n) as [session' sent].
  cbn [snd] in *. rewrite IH.
  - rewrite (seqZ_cons i) by lia. cbn [fmap list_fmap].
    replace (Z.pred (Z.of_nat (S n))) with (Z.of_nat n) by lia.
    by replace (Z.succ i) with (i + 1) by lia.
  - intros j Hj. cbn. rewrite lookup_insert_ne by lia. apply Hall. lia.
Qed.

Lemma deliverToClient_complete `{!AEAD} (d : downstream.DownstreamServer)
    (rnd : nat → byte) (l : nat) (session : Session.t) (chunk_of : Z → Chunk.t) :
  downstream.heap d !! l = Some session →
  1 ≤ Session.TotalChunks session →
  (∀ j, 1 ≤ j ≤ Session.TotalChunks session →
        Session.Chunks session !! j = Some (chunk_of j)) →
  Chunk.SourceClient (chunk_of 1) ≠ EmptyString →
  (common.Enabled (downstream.Encryption (downstream.config d)) = true →
   aes_key_ok (downstream.EncryptionKey (downstream.config d)) = true) →
  downstream.delivered (downstream.deliverToClient d rnd l)
  = (λ j, (Chunk.SourceClient (chunk_of 1),
           downstream_chunk (downstream.config d) rnd j (chunk_of j)))
      <$> seqZ 1 (Session.TotalChunks session)
  ∧ downstream.crashed (downstream.deliverToClient d rnd l) = None
  ∧ downstream.sessions (downstream.server (downstream.deliverToClient d rnd l))
    = delete (Session.SessionID session) (downstream.sessions d).
Proof.
  intros Hl Htotal Hall Haddr Hkey.
  unfold downstream.deliverToClient. rewrite Hl, (Hall 1) by lia.
  rewrite bool_decide_false by done.
  pose proof (deliver_loop_all (downstream.config d) rnd
                (Chunk.SourceClient (chunk_of 1)) chunk_of
                (Z.to_nat (Session.TotalChunks session)) Hkey session 1) as Hloop.
  destruct (downstream.deliver_loop _ _ _ _ _ _) as [session' sent].
  cbn [snd downstream.delivered downstream.crashed downstream.server
       downstream.sessions downstream.set_sessions] in *.
  split_and!; [|done|done].
  rewrite Hloop by (intros j Hj; apply Hall; lia). by rewrite Z2Nat.id by lia.
Qed.

(** X20: for a session that holds every chunk from 1 to its total, with a
    client address on chunk 1, [deliverToClient] sends the chunks in the
    order of their sequence numbers, all to that address, and deletes the
    session.  Each chunk it sends keeps its session id, sequence number and
    total, and carries the payload the server held, encrypted again when
    encryption is enabled. *)
Theorem downstream_delivery `{!AEAD} (d : downstream.DownstreamServer)
    (rnd : nat → byte) (l : nat) (session : Session.t) (chunk_of : Z → Chunk.t) :
  downstream.heap d !! l = Some session →
  1 ≤ Session.TotalChunks session →
  (∀ j, 1 ≤ j ≤ Session.TotalChunks session →
        Session.Chunks session !! j = Some (chunk_of j)) →
  Chunk.SourceClient (chunk_of 1) ≠ EmptyString →
  (common.Enabled (downstream.Encryption (downstream.config d)) = true →
   aes_key_ok (downstream.EncryptionKey (downstream.config d)) = true) →
  downstream.delivered (downstream.deliverToClient d rnd l)
  = (λ j, (Chunk.SourceClient (chunk_of 1),
           downstream_chunk (downstream.config d) rnd j (chunk_of j)))
      <$> seqZ 1 (Session.TotalChunks session)
  ∧ downstream.crashed (downstream.deliverToClient d rnd l) = None
  ∧ downstream.sessions (downstream.server (downstream.deliverToClient d rnd l))
    = delete (Session.SessionID session) (downstream.sessions d)
  ∧ ∀ j,
      let chunk := downstream_chunk (downstream.config d) rnd j (chunk_of j) in
      Chunk.SessionID chunk = Chunk.SessionID (chunk_of j)
      ∧ Chunk.SequenceNum chunk = Chunk.SequenceNum (chunk_of j)
      ∧ Chunk.TotalChunks chunk = Chunk.TotalChunks (chunk_of j)
      ∧ downstream_carries (downstream.config d) chunk (Chunk.Data (chunk_of j)).
Proof.
  intros Hl Htotal Hall Haddr Hkey.
  destruct (deliverToClient_complete d rnd l session chunk_of)
    as (Hsent & Hcrash & Hsessions); try done.
  split_and!; [done|done|done|].
  intros j. cbn zeta.
  destruct (downstream_chunk_fields (downstream.config d) rnd j (chunk_of j))
    as (-> & -> & -> & _).
  split_and!; try done. by apply downstream_carries_sealed.
Qed.

Lemma downstream_delivery_witness :
  downstream.delivered
    (downstream.deliverToClient
       (downstream.handleChunk (example_downstream encryption_off) 0
          (post whole_request)).1.1 (λ _, x07) 0)
  = [("client:7000",
      downstream_chunk (downstream.config (example_downstream encryption_off))
        (λ _, x07) 1 whole_request)].
Proof.
  destruct (downstream_delivery
              (downstream.handleChunk (example_downstream encryption_off) 0
                 (post whole_request)).1.1 (λ _, x07) 0
              {| Session.SessionID := "5e55";
                 Session.Chunks := {[ 1 := whole_request ]};
                 Session.TotalChunks := 1; Session.ReceivedAt := 0;
                 Session.TargetURL := ""; Session.Method := "";
                 Session.Headers := ∅ |}
              (λ _, whole_request)) as (Hsent & _).
  - reflexivity.
  - reflexivity.
  - intros j Hj. cbn in Hj. assert (j = 1) as -> by lia. reflexivity.
  - discriminate.
  - discriminate.
  - exact Hsent.
Defined.

(** X21: a single chunk that claims to be the whole response without
    being chunk 1 takes the downstream server down: the session counts as
    complete, [deliverToClient] is started, and reading the client address
    off the missing chunk 1 panics. *)
Theorem downstream_missing_first_chunk `{!AEAD} (d : downstream.DownstreamServer)
    (rnd : nat → nat → byte) (clock : nat → Z) (chunk : Chunk.t) :
  common.Enabled (downstream.Encryption (downstream.config d)) = false →
  downstream.sessions d !! Chunk.SessionID chunk = None →
  Chunk.TotalChunks chunk = 1 →
  Chunk.SequenceNum chunk ≠ 1 →
  (downstream.handleChunk d (clock 0%nat) (post chunk)).2
  = Some (length (downstream.heap d))
  ∧ downstream.serve d rnd clock [post chunk]
    = {| downstream.server :=
           (downstream.handleChunk d (clock 0%nat) (post chunk)).1.1;
         downstream.delivered := [];
         downstream.crashed := Some "nil pointer dereference" |}.
Proof.
  intros Hplain Hfresh Htotal Hseq.
  assert (downstream.handleChunk d (clock 0%nat) (post chunk)
          = (downstream.set_sessions d
               (<[Chunk.SessionID chunk := length (downstream.heap d)]>
                  (downstream.sessions d))
               (<[length (downstream.heap d) :=
                    Session.store
                      {| Session.SessionID := Chunk.SessionID chunk;
                         Session.Chunks := ∅;
                         Session.TotalChunks := Chunk.TotalChunks chunk;
                         Session.ReceivedAt := clock 0%nat;
                         Session.TargetURL := ""; Session.Method := "";
                         Session.Headers := ∅ |}
                      (Chunk.SequenceNum chunk) chunk]>
                  (downstream.heap d
                   ++ [ {| Session.SessionID := Chunk.SessionID chunk;
                           Session.Chunks := ∅;
                           Session.TotalChunks := Chunk.TotalChunks chunk;
                           Session.ReceivedAt := clock 0%nat;
                           Session.TargetURL := ""; Session.Method := "";
                           Session.Headers := ∅ |} ])),
             {| status := StatusOK; payload := Text "Chunk received" |},
             Some (length (downstream.heap d)))) as Hrun.
  { unfold downstream.handleChunk.
    cbn [post post_method post_readable post_chunk].
    rewrite bool_decide_true by done. cbn [negb]. rewrite Hplain.
    replace (Chunk.set_Data chunk (Chunk.Data chunk)) with chunk by (by destruct chunk).
    rewrite Hfresh. unfold downstream.insert_chunk. cbn.
    rewrite insert_empty, map_size_singleton, Htotal. done. }
  split; [by rewrite Hrun|].
  cbn [downstream.serve]. rewrite Hrun. cbn [fst].
  unfold downstream.deliverToClient. cbn [downstream.heap downstream.set_sessions].
  rewrite list_lookup_insert_eq by (rewrite length_app; cbn; lia).
  cbn [Session.Chunks Session.store].
  rewrite lookup_insert_ne by done. rewrite lookup_empty. done.
Qed.

Lemma downstream_missing_first_chunk_witness :
  downstream.crashed
    (downstream.serve (example_downstream encryption_off) (λ _ _, x07) (λ _, 0)
       [post stray_chunk])
  = Some "nil pointer dereference".
Proof.
  destruct (downstream_missing_first_chunk (example_downstream encryption_off)
              (λ _ _, x07) (λ _, 0) stray_chunk) as [_ Hserve].
  - reflexivity.
  - reflexivity.
  - reflexivity.
  - discriminate.
  - rewrite Hserve. reflexivity.
Defined.

Lemma downstream_handleChunk_short `{!AEAD} (d : downstream.DownstreamServer)
    (t : Z) (r : ChunkPost) (k : nat) (n : Z) :
  (∀ chunk, post_chunk r = Some chunk → Chunk.TotalChunks chunk = n) →
  downstream_short d k n →
  Z.of_nat (S k) < n →
  (downstream.handleChunk d t r).2 = None
  ∧ downstream_short (downstream.handleChunk d t r).1.1 (S k) n.
Proof.
  intros Htotal Hshort Hk.
  assert (downstream_short d (S k) n) as Hweak.
  { intros sid l session Hsid Hl. destruct (Hshort sid l session Hsid Hl). split; [lia|done]. }
  unfold downstream.handleChunk.
  destruct (negb (bool_decide _)); [done|].
  destruct (negb (post_readable r)); [done|].
  destruct (post_chunk r) as [chunk|]; [|done].
  specialize (Htotal chunk eq_refl).
  destruct (if common.Enabled (downstream.Encryption (downstream.config d)) then _ else _)
    as [data|]; [|done].
  change (Chunk.SessionID (Chunk.set_Data chunk data)) with (Chunk.SessionID chunk).
  change (Chunk.TotalChunks (Chunk.set_Data chunk data)) with (Chunk.TotalChunks chunk).
  unfold downstream.insert_chunk, downstream.set_sessions.
  destruct (downstream.sessions d !! Chunk.SessionID chunk) as [l|] eqn:Hsid.
  - destruct (downstream.heap d !! l) as [session|] eqn:Hl; [|done].
    destruct (Hshort _ _ _ Hsid Hl) as [Hsize Htot].
    pose proof (lookup_lt_Some _ _ _ Hl) as Hlt.
    assert (size (Session.Chunks
                    (Session.store session
                       (Chunk.SequenceNum (Chunk.set_Data chunk data))
                       (Chunk.set_Data chunk data))) ≤ S k)%nat as Hsize'.
    { cbn. rewrite map_size_insert.
      destruct (Session.Chunks session !! _); unfold id; lia. }
    cbn [fst snd]. split.
    + rewrite bool_decide_false; [done|]. cbn [Session.TotalChunks Session.store]. lia.
    + intros sid' l' session' Hsid' Hl'. cbn in Hsid', Hl'.
      destruct (decide (l' = l)) as [->|Hne].
      * rewrite list_lookup_insert_eq in Hl' by done. injection Hl' as <-.
        split; [exact Hsize'|done].
      * rewrite list_lookup_insert_ne in Hl' by done. by apply (Hweak sid' l').
  - cbn [fst snd]. split.
    + rewrite bool_decide_false; [done|]. cbn.
      rewrite insert_empty, map_size_singleton. lia.
    + intros sid' l' session' Hsid' Hl'. cbn in Hsid', Hl'.
      destruct (decide (l' = length (downstream.heap d))) as [->|Hne].
      * rewrite list_lookup_insert_eq in Hl' by (rewrite length_app; cbn; lia).
        injection Hl' as <-. cbn. rewrite insert_empty, map_size_singleton.
        split; [lia|done].
      * rewrite list_lookup_insert_ne in Hl' by done.
        assert (Chunk.SessionID chunk ≠ sid') as Hother.
        { intros <-. rewrite lookup_insert_eq in Hsid'. congruence. }
        rewrite lookup_insert_ne in Hsid' by done.
        apply lookup_app_Some in Hl' as [Hl'|[Hge Hl']].
        -- by apply (Hweak sid' l').
        -- apply list_lookup_singleton_Some in Hl' as [Hl' _]. lia.
Qed.

Lemma downstream_serve_short `{!AEAD} (n : Z) (posts : list ChunkPost) :
  ∀ (d : downstream.DownstreamServer) (rnd : nat → nat → byte) (clock : nat → Z)
    (k : nat),
    (∀ r chunk, r ∈ posts → post_chunk r = Some chunk → Chunk.TotalChunks chunk = n) →
    downstream_short d k n →
    Z.of_nat (k + length posts) < n →
    downstream.delivered (downstream.serve d rnd clock posts) = []
    ∧ downstream.crashed (downstream.serve d rnd clock posts) = None.
Proof.
  induction posts as [|r posts IH]; intros d rnd clock k Htotal Hshort Hk; [done|].
  cbn [length] in Hk. cbn [downstream.serve].
  destruct (downstream_handleChunk_short d (clock 0%nat) r k n) as [Hnone Hshort'].
  { intros chunk. apply Htotal. apply list_elem_of_here. }
  { done. }
  { lia. }
  destruct (downstream.handleChunk d (clock 0%nat) r) as [[d' reply] started].
  cbn [fst snd] in *. subst started.
  apply (IH d' _ _ (S k)); [|done|lia].
  intros r' chunk Hin. apply Htotal. by apply list_elem_of_further.
Qed.

(** X22: the central proxy deals the chunks of a response out to its
    downstream servers in turn, and a downstream server delivers a session
    only once it holds as many chunks as the total.  So with two or more
    distinct downstream servers, a response of two or more chunks is never
    delivered: whichever downstream server one looks at, it receives fewer
    chunks than the total, starts no delivery, and sends the client
    nothing. *)
Theorem downstream_round_robin_starves `{!AEAD} (cfg : central.CentralConfig)
    (rnd : nat → byte) (now : Z → Z) (session : Session.t) (first : Chunk.t)
    (response : bytes) (d : downstream.DownstreamServer)
    (rnd_d : nat → nat → byte) (clock : nat → Z) (server : string) :
  1 ≤ central.ChunkSize cfg ≤ goint.max_int →
  len response + central.ChunkSize cfg - 1 ≤ goint.max_int →
  central.ChunkSize cfg < len response →
  NoDup (central.DownstreamServers cfg) →
  (2 ≤ length (central.DownstreamServers cfg))%nat →
  (common.Enabled (central.Encryption cfg) = true →
   aes_key_ok (central.EncryptionKey cfg) = true) →
  Session.Chunks session !! 1 = Some first →
  downstream.sessions d = ∅ →
  let dispatched := (central.fragmentAndForward cfg rnd now session response).1 in
  (2 ≤ length dispatched)%nat
  ∧ (length (sent_to server dispatched) < length dispatched)%nat
  ∧ downstream.delivered
      (downstream.serve d rnd_d clock (post <$> sent_to server dispatched)) = []
  ∧ downstream.crashed
      (downstream.serve d rnd_d clock (post <$> sent_to server dispatched)) = None.
Proof.
  intros Hcs Hov Hbig Hnd Htwo Hkey Hfirst Hfresh dispatched.
  assert (0 ≤ len response) by (unfold len; lia).
  destruct (ceil_div_pos (len response) (central.ChunkSize cfg)) as (_ & Hn1 & _);
    [done|lia|].
  destruct (chunk_count_bounds (len response) (central.ChunkSize cfg))
    as (_ & _ & Hn3); [done|lia|]. cbn zeta in Hn3.
  rewrite <- Hn1 in Hn3 by lia.
  assert (central.DownstreamServers cfg ≠ []) as Hdown
    by (intros Hnil; rewrite Hnil in Htwo; cbn in Htwo; lia).
  subst dispatched. rewrite (fragmentAndForward_spec cfg rnd now session first) by done.
  cbn [fst].
  set (n := ceil_div (len response) (central.ChunkSize cfg)) in *.
  assert (2 ≤ n) as Hn by nia.
  set (f := λ i, (round_robin (central.DownstreamServers cfg) i,
                  central_chunk cfg rnd now session first response i)).
  assert (length (f <$> seqZ 0 n) = Z.to_nat n) as Hlen
    by (by rewrite length_fmap, length_seqZ).
  assert (length (sent_to server (f <$> seqZ 0 n)) < length (f <$> seqZ 0 n))%nat
    as Hfewer.
  { unfold sent_to. rewrite length_fmap.
    destruct (central.DownstreamServers cfg) as [|s0 [|s1 servers]] eqn:Hservers;
      [done|cbn in Htwo; lia|].
    assert (s0 ≠ s1) as Hdiff.
    { apply NoDup_cons in Hnd as [Hnotin _]. intros ->.
      apply Hnotin, list_elem_of_here. }
    assert (len (s0 :: s1 :: servers) = 2 + len servers) as Hl
      by (unfold len; cbn [length]; lia).
    assert (0 ≤ len servers) by (unfold len; lia).
    assert ((f 0).1 = s0) as Hf0.
    { subst f. cbn [fst]. unfold round_robin. rewrite Hl.
      rewrite Z.mod_0_l by lia. done. }
    assert ((f 1).1 = s1) as Hf1.
    { subst f. cbn [fst]. unfold round_robin. rewrite Hl.
      rewrite Z.mod_small by lia. done. }
    destruct (decide (server = s0)) as [->|Hne0].
    - apply (length_filter_lt _ _ (f 1)).
      + apply list_elem_of_fmap_2, elem_of_seqZ. lia.
      + rewrite Hf1. congruence.
    - apply (length_filter_lt _ _ (f 0)).
      + apply list_elem_of_fmap_2, elem_of_seqZ. lia.
      + rewrite Hf0. congruence. }
  split; [lia|]. split; [done|].
  apply (downstream_serve_short n _ d rnd_d clock 0).
  - intros r chunk Hr Hchunk.
    apply list_elem_of_fmap in Hr as (c & -> & Hc). cbn in Hchunk. injection Hchunk as <-.
    unfold sent_to in Hc. apply list_elem_of_fmap in Hc as ([srv c'] & -> & Hc).
    apply list_elem_of_filter in Hc as [_ Hc].
    apply list_elem_of_fmap in Hc as (i & [= _ ->] & _). done.
  - intros sid l s Hsid. by rewrite Hfresh, lookup_empty in Hsid.
  - rewrite length_fmap. lia.
Qed.

Lemma downstream_round_robin_starves_witness :
  downstream.delivered
    (downstream.serve (example_downstream encryption_on) (λ _ _, x07) (λ _, 0)
       (post <$> sent_to "downstream-1:8443"
                   (central.fragmentAndForward
                      (central.config (example_central encryption_on)) (λ _, x07)
                      (λ i, i) whole_session [x01; x02; x03; x04; x05]).1))
  = [].
Proof.
  destruct (downstream_round_robin_starves
              (central.config (example_central encryption_on)) (λ _, x07) (λ i, i)
              whole_session whole_request [x01; x02; x03; x04; x05]
              (example_downstream encryption_on) (λ _ _, x07) (λ _, 0)
              "downstream-1:8443") as (_ & _ & Hnone & _).
  - vm_compute. split; discriminate.
  - vm_compute. discriminate.
  - reflexivity.
  - refine (bool_decide_unpack _ _). vm_compute. exact I.
  - cbn. lia.
  - reflexivity.
  - reflexivity.
  - reflexivity.
  - exact Hnone.
Defined.

(** ** The response path, end to end *)

Lemma delivery_alone (run : downstream.Run) :
  downstream.crashed run = None →
  {| downstream.server := downstream.server run;
     downstream.delivered := downstream.delivered run ++ [];
     downstream.crashed := None |} = run.
Proof. destruct run. cbn. intros ->. by rewrite app_nil_r. Qed.

Section downstream_arrivals.
Context `{!AEAD}.
Variables (sessionID : string) (n : Z) (chunk_at : Z → Chunk.t).
Hypothesis seq_at : ∀ i, Chunk.SequenceNum (chunk_at i) = i + 1.
Hypothesis session_at : ∀ i, Chunk.SessionID (chunk_at i) = sessionID.
Hypothesis total_at : ∀ i, Chunk.TotalChunks (chunk_at i) = n.

(** One more chunk at a downstream server that does not decrypt. *)
Lemma downstream_handleChunk_arrival (d : downstream.DownstreamServer) (t i : Z)
    (arrived : list Chunk.t) :
  common.Enabled (downstream.Encryption (downstream.config d)) = false →
  downstream_holds d sessionID n arrived →
  NoDup (Chunk.SequenceNum <$> arrived ++ [chunk_at i]) →
  ∃ d' l s,
    downstream.handleChunk d t (post (chunk_at i))
    = (d', {| status := StatusOK; payload := Text "Chunk received" |},
       if bool_decide (Z.of_nat (length (arrived ++ [chunk_at i])) = n)
       then Some l else None)
    ∧ downstream.config d' = downstream.config d
    ∧ downstream.sessions d' !! sessionID = Some l
    ∧ downstream.heap d' !! l = Some s
    ∧ Session.Chunks s = stored (arrived ++ [chunk_at i])
    ∧ Session.TotalChunks s = n
    ∧ Session.SessionID s = sessionID.
Proof.
  intros Hplain Hholds Hnd.
  unfold downstream.handleChunk. cbn [post post_method post_readable post_chunk].
  rewrite Hplain. rewrite bool_decide_true by done. cbn [negb].
  replace (Chunk.set_Data (chunk_at i) (Chunk.Data (chunk_at i))) with (chunk_at i)
    by (by destruct (chunk_at i)).
  rewrite session_at. unfold downstream.insert_chunk, downstream.set_sessions.
  destruct Hholds as [[-> Hnone]|(l & s & Hsid & Hl & Hch & Htot & Hid)].
  - rewrite Hnone.
    eexists _, (length (downstream.heap d)), _. split; [|split_and!].
    + cbn. rewrite insert_empty, map_size_singleton. rewrite total_at. done.
    + done.
    + cbn. by rewrite lookup_insert_eq.
    + cbn. rewrite list_lookup_insert_eq by (rewrite length_app; cbn; lia). done.
    + done.
    + cbn. by rewrite ?total_at.
    + done.
  - rewrite Hsid, Hl. pose proof (lookup_lt_Some _ _ _ Hl) as Hlt.
    eexists _, l, _. split; [|split_and!].
    + cbn. rewrite Hch, <- stored_snoc, stored_size by done. rewrite Htot. done.
    + done.
    + done.
    + cbn. by rewrite list_lookup_insert_eq.
    + cbn. by rewrite Hch, stored_snoc.
    + done.
    + done.
Qed.

(** The downstream server, given the chunks still to come in any order,
    starts [deliverToClient] once, at the last of them, on the session that
    holds them all. *)
Lemma downstream_serve_arrivals (rest : list Chunk.t) :
  ∀ (arrived : list Chunk.t) (d : downstream.DownstreamServer)
    (rnd : nat → nat → byte) (clock : nat → Z),
    rest ≠ [] →
    arrived ++ rest ≡ₚ chunk_at <$> seqZ 0 n →
    common.Enabled (downstream.Encryption (downstream.config d)) = false →
    downstream_holds d sessionID n arrived →
    ∃ d1 l s rnd1,
      downstream.serve d rnd clock (post <$> rest)
      = downstream.deliverToClient d1 rnd1 l
      ∧ downstream.config d1 = downstream.config d
      ∧ downstream.heap d1 !! l = Some s
      ∧ Session.Chunks s = stored (arrived ++ rest)
      ∧ Session.TotalChunks s = n.
Proof.
  induction rest as [|chunk rest IH];
    intros arrived d rnd clock Hne Hperm Hplain Hholds; [done|].
  assert (chunk ∈ chunk_at <$> seqZ 0 n) as Hin.
  { rewrite <- Hperm. apply elem_of_app. right. apply list_elem_of_here. }
  apply list_elem_of_fmap in Hin as (i & -> & Hi%elem_of_seqZ).
  assert ((arrived ++ [chunk_at i]) ++ rest ≡ₚ chunk_at <$> seqZ 0 n) as Hperm'
    by (by rewrite <- app_assoc).
  assert (NoDup (Chunk.SequenceNum <$> arrived ++ [chunk_at i])) as Hnd.
  { pose proof (arrivals_NoDup n chunk_at seq_at) as Hc.
    rewrite <- Hperm', fmap_app in Hc. by apply NoDup_app in Hc as (? & _). }
  assert (length (arrived ++ [chunk_at i]) + length rest = Z.to_nat n)%nat as Hlen.
  { rewrite <- (arrivals_length n chunk_at), <- Hperm'. by rewrite !length_app. }
  destruct (downstream_handleChunk_arrival d (clock 0%nat) i arrived Hplain Hholds Hnd)
    as (d' & l & s & Hrun & Hcfg & Hsid & Hl & Hch & Htot & Hid).
  cbn [fmap list_fmap downstream.serve]. rewrite Hrun.
  destruct rest as [|next rest].
  - change (length (@nil Chunk.t)) with 0%nat in Hlen.
    rewrite bool_decide_true by lia.
    exists d', l, s, (rnd 0%nat). split; [|done].
    cbn [fmap list_fmap downstream.serve downstream.server downstream.delivered
         downstream.crashed].
    destruct (downstream.crashed (downstream.deliverToClient d' (rnd 0%nat) l))
      eqn:Hcrash; [done|].
    by apply delivery_alone.
  - change (length (next :: rest)) with (S (length rest)) in Hlen.
    rewrite bool_decide_false by lia.
    destruct (IH (arrived ++ [chunk_at i]) d' (λ k, rnd (S k)) (λ k, clock (S k)))
      as (d1 & l1 & s1 & rnd1 & Hserve & Hcfg1 & Hl1 & Hch1 & Htot1);
      [done|done|by rewrite Hcfg| |].
    + right. by exists l, s.
    + exists d1, l1, s1, rnd1. rewrite <- app_assoc in Hch1.
      split_and!; try done. congruence.
Qed.

End downstream_arrivals.

(** X23: with encryption disabled at the central proxy, at its only
    downstream server and at the client, a response that is not empty
    reaches the caller as it left the target: the chunks the central proxy
    dispatches, delivered to the downstream server in any order, are sent on
    to the client address of request chunk 1 in the order of their sequence
    numbers, and the client's listener hands the waiting caller exactly the
    response, without error. *)
Theorem response_path_roundtrip `{!AEAD} (cfg : central.CentralConfig)
    (rnd : nat → byte) (now : Z → Z) (session : Session.t) (first : Chunk.t)
    (response : bytes) (server : string) (d : downstream.DownstreamServer)
    (rnd_d : nat → nat → byte) (clock : nat → Z) (arrivals : list Chunk.t)
    (c : client.ProxyClient) (l : nat) (s : client.PendingSession) :
  1 ≤ central.ChunkSize cfg ≤ goint.max_int →
  len response + central.ChunkSize cfg - 1 ≤ goint.max_int →
  response ≠ [] →
  central.DownstreamServers cfg = [server] →
  common.Enabled (central.Encryption cfg) = false →
  common.Enabled (downstream.Encryption (downstream.config d)) = false →
  client.Encryption_Enabled (client.config c) = false →
  Session.Chunks session !! 1 = Some first →
  Chunk.SourceClient first ≠ EmptyString →
  downstream.sessions d !! Session.SessionID session = None →
  client.pendingSessions c !! Session.SessionID session = Some l →
  client.heap c !! l = Some s →
  client.Chunks s = ∅ →
  client.ResponseChan s = [] →
  arrivals ≡ₚ (central.fragmentAndForward cfg rnd now session response).1.*2 →
  let delivered :=
    downstream.delivered (downstream.serve d rnd_d clock (post <$> arrivals)) in
  Forall (λ addressed, addressed.1 = Chunk.SourceClient first) delivered
  ∧ Chunk.SequenceNum <$> delivered.*2 = seqZ 1 (len arrivals)
  ∧ (client.MakeRequest_wait (client.serve c (post <$> delivered.*2))
       (Session.SessionID session) l).1.2 = Some (assembled response)
  ∧ (client.MakeRequest_wait (client.serve c (post <$> delivered.*2))
       (Session.SessionID session) l).2 = None.
Proof.
  intros Hcs Hov Hsome Hserver Hcentral Hdown Hclient Hfirst Haddr Hfresh
    Hsid Hl Hchunks Hchan Hperm delivered.
  assert (0 < len response) as Hpos.
  { unfold len. destruct response; [done|cbn; lia]. }
  destruct (ceil_div_pos (len response) (central.ChunkSize cfg)) as (_ & Hn1 & _);
    [lia|lia|].
  destruct (chunk_count_bounds (len response) (central.ChunkSize cfg))
    as (Hn2 & _ & Hn3); [lia|lia|]. cbn zeta in Hn2, Hn3.
  rewrite <- Hn1 in Hn2, Hn3 by done.
  rewrite (fragmentAndForward_spec cfg rnd now session first) in Hperm;
    [|done|done|by rewrite Hserver|by rewrite Hcentral|done].
  cbn [fst] in Hperm. rewrite <- list_fmap_compose in Hperm.
  set (n := ceil_div (len response) (central.ChunkSize cfg)) in *.
  set (chunk_at := central_chunk cfg rnd now session first response).
  assert (arrivals ≡ₚ chunk_at <$> seqZ 0 n) as Harr by exact Hperm.
  assert (len arrivals = n) as Hlen.
  { unfold len. rewrite Harr, length_fmap, length_seqZ. lia. }
  assert (arrivals ≠ []) as Hne.
  { intros ->. unfold len in Hlen. cbn in Hlen. lia. }
  destruct (downstream_serve_arrivals (Session.SessionID session) n chunk_at
              ltac:(done) ltac:(done) ltac:(done)
              arrivals [] d rnd_d clock Hne Harr Hdown)
    as (d1 & l1 & s1 & rnd1 & Hserve & Hcfg1 & Hl1 & Hch1 & Htot1).
  { by left. }
  cbn [app] in Hch1.
  destruct (deliverToClient_complete d1 rnd1 l1 s1 (λ j, chunk_at (j - 1)))
    as (Hsent & _ & _).
  { done. }
  { lia. }
  { intros j Hj. rewrite Hch1. replace j with (j - 1 + 1) at 1 by lia.
    apply (arrivals_at n chunk_at); [done|done|lia]. }
  { done. }
  { rewrite Hcfg1, Hdown. done. }
  subst delivered. rewrite Hserve, Hsent, Htot1.
  set (chunk_at' := λ i, downstream_chunk (downstream.config d1) rnd1 (1 + i)
                            (chunk_at (1 + i - 1))).
  assert (((λ j, (Chunk.SourceClient (chunk_at (1 - 1)),
                  downstream_chunk (downstream.config d1) rnd1 j (chunk_at (j - 1))))
             <$> seqZ 1 n).*2 = chunk_at' <$> seqZ 0 n) as Hsecond.
  { rewrite <- (fmap_add_seqZ 1 0), <- !list_fmap_compose. done. }
  rewrite Hsecond.
  assert (∀ i, Chunk.SequenceNum (chunk_at' i) = i + 1) as Hseq'.
  { intros i. subst chunk_at'. cbn beta.
    destruct (downstream_chunk_fields (downstream.config d1) rnd1 (1 + i)
                (chunk_at (1 + i - 1))) as (_ & -> & _). cbn. lia. }
  assert (∀ i, Chunk.SessionID (chunk_at' i) = Session.SessionID session) as Hsid'.
  { intros i. subst chunk_at'. cbn beta.
    by destruct (downstream_chunk_fields (downstream.config d1) rnd1 (1 + i)
                   (chunk_at (1 + i - 1))) as (-> & _). }
  assert (∀ i, Chunk.TotalChunks (chunk_at' i) = n) as Htot'.
  { intros i. subst chunk_at'. cbn beta.
    by destruct (downstream_chunk_fields (downstream.config d1) rnd1 (1 + i)
                   (chunk_at (1 + i - 1))) as (_ & _ & -> & _). }
  assert (mjoin ((λ i, Chunk.Data (chunk_at' i)) <$> seqZ 0 n) = response) as Hjoin.
  { transitivity (mjoin (fragment response (central.ChunkSize cfg) <$> seqZ 0 n));
      [|apply fragments_join; lia].
    f_equal. apply list_fmap_ext. intros _ i _. subst chunk_at'. cbn beta.
    destruct (downstream_chunk_fields (downstream.config d1) rnd1 (1 + i)
                (chunk_at (1 + i - 1))) as (_ & _ & _ & ->).
    unfold downstream_sealed. rewrite Hcfg1, Hdown. cbn.
    unfold central_sealed. rewrite Hcentral. f_equal. lia. }
  destruct (client_serve_arrivals (Session.SessionID session) n chunk_at'
              Hseq' Hsid' Htot' Hn2 l (chunk_at' <$> seqZ 0 n) [] c s)
    as (s' & Hl' & Hchan'); try done.
  { intros Hnil. apply (f_equal length) in Hnil.
    rewrite length_fmap, length_seqZ in Hnil. cbn in Hnil. lia. }
  split_and!.
  - apply Forall_fmap, Forall_forall. intros j _. cbn.
    replace (1 - 1) with 0 by lia. done.
  - rewrite <- list_fmap_compose, Hlen.
    rewrite <- (fmap_add_seqZ 1 0). apply list_fmap_ext. intros _ i _.
    unfold compose. rewrite Hseq'. lia.
  - unfold client.MakeRequest_wait. rewrite Hl', Hchan', Hjoin. done.
  - unfold client.MakeRequest_wait. rewrite Hl', Hchan', Hjoin. done.
Qed.

Lemma response_path_roundtrip_witness :
  (client.MakeRequest_wait
     (client.serve (waiting plain_chunks)
        (post <$> (downstream.delivered
                     (downstream.serve (example_downstream encryption_off)
                        (λ _ _, x07) (λ _, 0)
                        (post <$> reverse
                           (central.fragmentAndForward one_downstream (λ _, x07)
                              (λ i, i) whole_session
                              [x01; x02; x03; x04; x05]).1.*2))).*2))
     "5e55" 0).1.2
  = Some (assembled [x01; x02; x03; x04; x05]).
Proof.
  destruct (response_path_roundtrip one_downstream (λ _, x07) (λ i, i)
              whole_session whole_request [x01; x02; x03; x04; x05]
              "downstream-1:8443" (example_downstream encryption_off)
              (λ _ _, x07) (λ _, 0)
              (reverse (central.fragmentAndForward one_downstream (λ _, x07)
                          (λ i, i) whole_session [x01; x02; x03; x04; x05]).1.*2)
              (waiting plain_chunks) 0 fresh_session)
    as (_ & _ & Hresponse & _).
  - vm_compute. split; discriminate.
  - vm_compute. discriminate.
  - discriminate.
  - reflexivity.
  - reflexivity.
  - reflexivity.
  - reflexivity.
  - reflexivity.
  - discriminate.
  - reflexivity.
  - reflexivity.
  - reflexivity.
  - reflexivity.
  - reflexivity.
  - apply reverse_Permutation.
  - exact Hresponse.
Defined.

(** ** relay-node/main.go: forwarding at once, and after rotations *)

(** X24: a relay without traffic mixing turns away what is not a POST
    (405) and what it cannot read (400) without forwarding anything;
    otherwise it forwards the body at once, as one request with the request
    id of the incoming one, and answers 200 when the receiver answered 200 or
    202 and 500 in every other case.  The relay itself is left unchanged. *)
Theorem relay_immediate_forward `{!Net} (r : relay.RelayNode)
    (hop : Request → option Z) (now : Z) (req : relay.RelayPost) (url : string) :
  relay.TrafficMixing (relay.config r) = false →
  (relay.relay_method req ≠ MethodPost →
   relay.handleRelay r hop now req
   = Ret (r, {| status := StatusMethodNotAllowed; payload := Text "Method not allowed" |}, []))
  ∧ (relay.relay_method req = MethodPost → relay.relay_readable req = false →
     relay.handleRelay r hop now req
     = Ret (r, {| status := StatusBadRequest; payload := Text "Failed to read body" |}, []))
  ∧ (relay.relay_method req = MethodPost → relay.relay_readable req = true →
     forward_target r url → NewRequest_ok MethodPost url = true →
     let out :=
       forwarded_request r url
         (relay.Header_Get (relay.relay_header req) "X-Request-ID")
         (relay.relay_body req) in
     relay.handleRelay r hop now req
     = Ret (r,
            if bool_decide (hop out = Some StatusOK ∨ hop out = Some StatusAccepted)
            then {| status := StatusOK; payload := Text "Traffic relayed" |}
            else {| status := StatusInternalServerError;
                    payload := Text "Forward failed" |},
            [out])).
Proof.
  intros Hmix. unfold relay.handleRelay. split_and!.
  - intros Hmethod. by rewrite bool_decide_false.
  - intros -> ->. by rewrite bool_decide_true.
  - intros -> -> Htarget Hok. rewrite bool_decide_true by done. cbn [negb].
    rewrite Hmix. rewrite (forwardTraffic_target r hop _ _ _ url) by done.
    cbn [exec_bind fst snd].
    set (out := forwarded_request r url _ _).
    destruct (hop out) as [code|].
    + unfold StatusOK, StatusAccepted.
      destruct (decide (code = 200)) as [->|Hne200].
      { rewrite bool_decide_false by lia. by rewrite bool_decide_true by (by left). }
      destruct (decide (code = 202)) as [->|Hne202].
      { rewrite bool_decide_false by lia. by rewrite bool_decide_true by (by right). }
      rewrite bool_decide_true by lia.
      rewrite bool_decide_false; [done|]. intros [[= ?]|[= ?]]; lia.
    + rewrite bool_decide_false; [done|]. by intros [?|?].
Qed.

Lemma relay_immediate_forward_witness :
  relay.handleRelay (final_relay false "5ec2e7") (λ _, Some 503) 0
    (relay_post "req-1" [x41])
  = Ret (final_relay false "5ec2e7",
         {| status := StatusInternalServerError; payload := Text "Forward failed" |},
         [forwarded_request (final_relay false "5ec2e7")
            "http://gateway:9000/proxy" "req-1" [x41]]).
Proof.
  destruct (relay_immediate_forward (final_relay false "5ec2e7") (λ _, Some 503) 0
              (relay_post "req-1" [x41]) "http://gateway:9000/proxy")
    as (_ & _ & Hforward).
  - reflexivity.
  - apply Hforward.
    + reflexivity.
    + reflexivity.
    + left. split; [discriminate|reflexivity].
    + reflexivity.
Defined.


